(** * Markdown Attributes: the annotation processor and the editor decorations

    A shallow embedding of [processor.ts] (class [Processor]) and of the
    decoration code of [main.ts] (the decoration cache, the state field and
    [rangesInclude]), with the properties of the specification stated and
    proved over it.

    JavaScript strings are modelled as [string]; a character is one 8-bit
    code unit, so the white space class of the engine ([\s], [trim]) is
    restricted to the code units below 256.  [undefined] and [null] are
    [None].  Console output is not modelled. *)

From Stdlib Require Import String Ascii List ZArith Bool Lia.
From stdpp Require Import gmap strings.
Import ListNotations.

Local Open Scope string_scope.

(* ===================================================================== *)
(** * Strings *)
(* ===================================================================== *)

Module Str.

Definition dq : ascii := "034"%char.        (* the double quote *)
Definition sq : ascii := "039"%char.        (* the single quote *)
Definition bt : ascii := "096"%char.        (* the back-tick *)
Definition nl : ascii := "010"%char.        (* line feed *)
Definition cr : ascii := "013"%char.        (* carriage return *)

Definition of_char (c : ascii) : string := String c EmptyString.

(** [\s] of the regular expression engine and the characters removed by
    [trim]: tab, LF, VT, FF, CR, space and the no-break space. *)
Definition is_space (c : ascii) : bool :=
  existsb (Ascii.eqb c)
    ["009"; "010"; "011"; "012"; "013"; " "; "160"]%char.

(** LineTerminator, for [$] under the [m] flag. *)
Definition is_line_terminator (c : ascii) : bool :=
  Ascii.eqb c nl || Ascii.eqb c cr.

Fixpoint take (n : nat) (s : string) : string :=
  match n, s with
  | S n', String c s' => String c (take n' s')
  | _, _ => EmptyString
  end.

Fixpoint drop (n : nat) (s : string) : string :=
  match n, s with
  | S n', String _ s' => drop n' s'
  | _, _ => s
  end.

Fixpoint starts_with (p s : string) : bool :=
  match p, s with
  | EmptyString, _ => true
  | String a p', String b s' => Ascii.eqb a b && starts_with p' s'
  | String _ _, EmptyString => false
  end.

Fixpoint filter (f : ascii -> bool) (s : string) : string :=
  match s with
  | EmptyString => EmptyString
  | String c s' => if f c then String c (filter f s') else filter f s'
  end.

Fixpoint existsb (f : ascii -> bool) (s : string) : bool :=
  match s with
  | EmptyString => false
  | String c s' => f c || existsb f s'
  end.

Fixpoint rev_onto (s acc : string) : string :=
  match s with
  | EmptyString => acc
  | String c s' => rev_onto s' (String c acc)
  end.

Definition rev (s : string) : string := rev_onto s EmptyString.

Fixpoint trim_start (s : string) : string :=
  match s with
  | String c s' => if is_space c then trim_start s' else s
  | EmptyString => EmptyString
  end.

(** [String.prototype.trim]. *)
Definition trim (s : string) : string :=
  rev (trim_start (rev (trim_start s))).

(** [s.charAt(0) === c]. *)
Definition first_is (c : ascii) (s : string) : bool :=
  match s with
  | String a _ => Ascii.eqb a c
  | EmptyString => false
  end.

(** [s.slice(1)]. *)
Definition slice1 (s : string) : string := drop 1 s.

(** The text before the first [c]: [s.slice(0, s.indexOf(c))] when [c]
    occurs in [s], and the first piece of [s.split(c)] in any case. *)
Fixpoint before (c : ascii) (s : string) : string :=
  match s with
  | EmptyString => EmptyString
  | String a s' => if Ascii.eqb a c then EmptyString else String a (before c s')
  end.

(** The text after the first [c], when there is one. *)
Fixpoint after (c : ascii) (s : string) : option string :=
  match s with
  | EmptyString => None
  | String a s' => if Ascii.eqb a c then Some s' else after c s'
  end.

(** [s.indexOf(c)], [-1] when [c] does not occur. *)
Fixpoint indexOf_from (c : ascii) (s : string) (i : Z) : Z :=
  match s with
  | EmptyString => (-1)%Z
  | String a s' => if Ascii.eqb a c then i else indexOf_from c s' (i + 1)%Z
  end.

Definition indexOf (c : ascii) (s : string) : Z := indexOf_from c s 0%Z.

(** [s.slice(0, e)] for an [e] that [indexOf] returned: a negative end
    counts from the end of the string. *)
Definition slice0 (s : string) (e : Z) : string :=
  if (e <? 0)%Z
  then take (Z.to_nat (Z.of_nat (String.length s) + e)) s
  else take (Z.to_nat e) s.

(** [s.split(c)] for a one-character separator: every occurrence splits. *)
Fixpoint split_on (c : ascii) (s : string) : list string :=
  match s with
  | EmptyString => [EmptyString]
  | String a s' =>
      if Ascii.eqb a c then EmptyString :: split_on c s'
      else match split_on c s' with
           | p :: ps => String a p :: ps
           | [] => [String a EmptyString]
           end
  end.

(** [content.replace(original, "")] with a string pattern: the first
    occurrence of [original] is removed, nothing else. *)
Fixpoint remove_first (original content : string) : string :=
  if starts_with original content
  then drop (String.length original) content
  else match content with
       | EmptyString => EmptyString
       | String c rest => String c (remove_first original rest)
       end.

(** [s.toLowerCase()] on 8-bit code units. *)
Definition lower_char (c : ascii) : ascii :=
  let n := nat_of_ascii c in
  if ((65 <=? n) && (n <=? 90))%nat then ascii_of_nat (n + 32)
  else if ((192 <=? n) && (n <=? 222) && negb (n =? 215))%nat
       then ascii_of_nat (n + 32)
       else c.

Fixpoint toLowerCase (s : string) : string :=
  match s with
  | EmptyString => EmptyString
  | String c s' => String (lower_char c) (toLowerCase s')
  end.

End Str.

(* ===================================================================== *)
(** * The regular expressions of the source, and a backtracking matcher *)
(* ===================================================================== *)

Module RegExp.

(** The fragment of the pattern language the source uses.  Every pattern
    of the source has at most one capture group, so [Cap] is group 1 and
    [Backref] is [\1]. *)
Inductive re : Type :=
| Eps
| Chr (c : ascii)                      (* a literal character *)
| Cls (negated : bool) (set : list ascii)  (* [...] and [^...] *)
| Space                                (* \s *)
| Cat (r1 r2 : re)
| Star (r : re)                        (* greedy r* *)
| Opt (r : re)                         (* greedy r? *)
| Cap (r : re)                         (* ( r ), group 1 *)
| Backref                              (* \1 *)
| Lookahead (r : re)                   (* (?= r ) *)
| Dollar (multiline : bool).           (* $ *)

Fixpoint has_cap (r : re) : bool :=
  match r with
  | Cap _ => true
  | Cat r1 r2 => has_cap r1 || has_cap r2
  | Star r1 | Opt r1 | Lookahead r1 => has_cap r1
  | _ => false
  end.

(** A match state: the input still to read and the value of group 1. *)
Definition result : Type := string * option string.
Definition cont : Type := string -> option string -> option result.

Definition in_class (negated : bool) (set : list ascii) (a : ascii) : bool :=
  xorb negated (List.existsb (Ascii.eqb a) set).

(** The backtracking matcher, in continuation-passing style: [m r k s cap]
    matches [r] at the front of [s] and hands what is left to [k]; the
    first alternative that makes [k] succeed wins.  A quantified group
    resets its capture at the start of every iteration and rejects an
    iteration that reads nothing, as the language definition says. *)
Fixpoint m (r : re) (k : cont) (s : string) (cap : option string)
  {struct r} : option result :=
  match r with
  | Eps => k s cap
  | Chr c =>
      match s with
      | String a s' => if Ascii.eqb a c then k s' cap else None
      | EmptyString => None
      end
  | Cls negated set =>
      match s with
      | String a s' => if in_class negated set a then k s' cap else None
      | EmptyString => None
      end
  | Space =>
      match s with
      | String a s' => if Str.is_space a then k s' cap else None
      | EmptyString => None
      end
  | Cat r1 r2 => m r1 (m r2 k) s cap
  | Star r1 =>
      (fix iter (n : nat) (s : string) (cap : option string) : option result :=
         match n with
         | O => k s cap
         | S n' =>
             match m r1
                     (fun s' c' =>
                        if (String.length s' <? String.length s)%nat
                        then iter n' s' c' else None)
                     s (if has_cap r1 then None else cap) with
             | Some x => Some x
             | None => k s cap
             end
         end) (String.length s) s cap
  | Opt r1 =>
      match m r1
              (fun s' c' =>
                 if (String.length s' <? String.length s)%nat
                 then k s' c' else None)
              s (if has_cap r1 then None else cap) with
      | Some x => Some x
      | None => k s cap
      end
  | Cap r1 =>
      m r1
        (fun s' _ =>
           k s' (Some (Str.take (String.length s - String.length s') s)))
        s None
  | Backref =>
      match cap with
      | None => k s cap
      | Some c =>
          if Str.starts_with c s then k (Str.drop (String.length c) s) cap
          else None
      end
  | Lookahead r1 =>
      match m r1 (fun s' c' => Some (s', c')) s cap with
      | Some (_, c') => k s c'
      | None => None
      end
  | Dollar multiline =>
      match s with
      | EmptyString => k s cap
      | String a _ =>
          if multiline && Str.is_line_terminator a then k s cap else None
      end
  end.

(** The continuation that ends a match. *)
Definition accept : cont := fun s' c => Some (s', c).

(** One match attempt anchored at the front of [s]: what is left and the
    capture. *)
Definition match_here (r : re) (s : string) : option result :=
  m r accept s None.

(** The result of [exec]: index, matched text, group 1. *)
Record MatchResult : Type := mkMatch {
  index : nat;
  matched : string;
  group1 : option string
}.

(** [r.exec(s)] from position 0: the leftmost position where [r] matches. *)
Fixpoint exec_from (r : re) (s : string) (i : nat) : option MatchResult :=
  match match_here r s with
  | Some (rest, c) =>
      Some (mkMatch i (Str.take (String.length s - String.length rest) s) c)
  | None =>
      match s with
      | String _ s' => exec_from r s' (S i)
      | EmptyString => None
      end
  end.

Definition exec (r : re) (s : string) : option MatchResult := exec_from r s 0.

(** [r.test(s)] for a pattern without the [g] flag. *)
Definition test (r : re) (s : string) : bool :=
  match exec r s with Some _ => true | None => false end.

(** [s.matchAll(r)] for a pattern with the [g] flag: the successive
    matches, each search starting where the last match ended (one past it
    after an empty match).  [s] is what is left of the string, [offset] the
    number of characters before it. *)
Fixpoint matchAll_loop (r : re) (n offset : nat) (s : string) : list MatchResult :=
  match n with
  | O => []
  | S n' =>
      match exec r s with
      | None => []
      | Some mr =>
          let e := (index mr + String.length (matched mr))%nat in
          mkMatch (offset + index mr) (matched mr) (group1 mr)
          :: match String.length (matched mr) with
             | O => match Str.drop e s with
                    | EmptyString => []
                    | String _ s' => matchAll_loop r n' (offset + S e) s'
                    end
             | S _ => matchAll_loop r n' (offset + e) (Str.drop e s)
             end
      end
  end.

Definition matchAll (r : re) (s : string) : list MatchResult :=
  matchAll_loop r (S (String.length s)) 0 s.

(** [s.split(r)]: the text between the matches, with the value of the
    capture group spliced in after every split point ([None] when the
    group did not take part in the match).  [acc] is the text since the
    last split point; a match that is empty at the last split point is
    skipped. *)
Fixpoint split_loop (r : re) (n : nat) (acc s : string)
  : list (option string) :=
  match n with
  | O => [Some (acc +:+ s)]
  | S n' =>
      match s with
      | EmptyString => [Some acc]
      | String a s' =>
          match match_here r s with
          | None => split_loop r n' (acc +:+ Str.of_char a) s'
          | Some (rest, c) =>
              if (String.length rest =? String.length s)%nat
                 && (String.length acc =? 0)%nat
              then split_loop r n' (acc +:+ Str.of_char a) s'
              else Some acc :: c :: split_loop r n' EmptyString rest
          end
      end
  end.

Definition split (r : re) (s : string) : list (option string) :=
  match s with
  | EmptyString =>
      match match_here r s with Some _ => [] | None => [Some s] end
  | _ => split_loop r (S (2 * String.length s)) EmptyString s
  end.

End RegExp.

(* ===================================================================== *)
(** * processor.ts: class Processor *)
(* ===================================================================== *)

Module Processor.
Import Str RegExp.

(** ** The four patterns *)

Definition not_close : re := Cls true ["}"; nl]%char.          (* [^\}\n]  *)
Definition first_char : re := Cls true ["}"; nl; " "]%char.    (* [^\}\n ] *)
Definition spaces : re := Star (Chr " ").                      (* [ ]*     *)

(** [BASE_RE], written here with its atoms apart:
    [\{  \:?  [ ]*  (  [^\}\n ]  [^\}\n]*  )  [ ]*  \}] *)
Definition BASE_RE : re :=
  Cat (Chr "{") (Cat (Opt (Chr ":")) (Cat spaces
    (Cat (Cap (Cat first_char (Star not_close))) (Cat spaces (Chr "}"))))).

(** [END_RE], flag [m]:
    [\{  \:?  [ ]*  (  [^\}\n ]  [^\}\n]*  )  [ ]*  \}  $] *)
Definition END_RE : re :=
  Cat (Chr "{") (Cat (Opt (Chr ":")) (Cat spaces
    (Cat (Cap (Cat first_char (Star not_close)))
       (Cat spaces (Cat (Chr "}") (Dollar true)))))).

(** [BLOCK_RE], no flag:
    [\n  [ ]*  \{  \:?  [ ]*  (  [^\}\n ]  [^\}\n]*  )  [ ]*  \}  [ ]*  $] *)
Definition BLOCK_RE : re :=
  Cat (Chr nl) (Cat spaces
    (Cat (Chr "{") (Cat (Opt (Chr ":")) (Cat spaces
      (Cat (Cap (Cat first_char (Star not_close)))
         (Cat spaces (Cat (Chr "}") (Cat spaces (Dollar false))))))))).

(** ** getAttrs *)

Definition quotes : list ascii := [sq; dq; bt].
Definition not_quote : re := Cls true quotes.                  (* none of the three quotes *)

(** The pattern of the split, with [Q] for the class of the three quote
    characters (single, double, back-tick) and [N] for its complement:
    [\s (?= (?: N* (Q) N* \1 )* N* $ )].  A white space character after
    which the rest of the string is a run of quoted pieces between text
    without quotes. *)
Definition quoted_piece : re :=                  (* N* (Q) N* \1 *)
  Cat (Star not_quote)
    (Cat (Cap (Cls false quotes)) (Cat (Star not_quote) Backref)).

Definition SPLIT_RE : re :=
  Cat Space
    (Lookahead (Cat (Star quoted_piece) (Cat (Star not_quote) (Dollar false)))).

(** [.map((t) => t && t.trim())] *)
Definition trim_fragment (t : option string) : option string :=
  match t with
  | None => None
  | Some EmptyString => Some EmptyString
  | Some s => Some (trim s)
  end.

(** [.filter(...)]: [t] is truthy, is not the double quote alone, is not
    the single quote alone, and has a length. *)
Definition keep_fragment (t : option string) : bool :=
  match t with
  | None => false
  | Some s =>
      negb (String.eqb s EmptyString)
      && negb (String.eqb s (of_char dq))
      && negb (String.eqb s (of_char sq))
      && negb (String.length s =? 0)%nat
  end.

(** The array [trys]: split, trim, filter. *)
Definition trys (str : option string) : list string :=
  omap id
    (List.filter keep_fragment
       (List.map trim_fragment (split SPLIT_RE (default EmptyString str)))).

(** [allowedKeyChars]: one character that is none of tab, line feed, form
    feed, space, slash, greater-than, double quote, single quote and the
    equals sign; [test] asks for one such character anywhere. *)
Definition allowedKeyChars : re :=
  Cls true ["009"; "010"; "012"; " "; "/"; ">"; dq; sq; "="]%char.

Definition keySeparator : ascii := "="%char.
Definition classChar : ascii := "."%char.

(** An attribute pair [[key, value]]; the value is [None] for [null]. *)
Definition Attr : Type := string * option string.

(** [[...pair.split(keySeparator, 2)]] read as a pair: the limit keeps the
    first two pieces of the split. *)
Definition split_limit2 (pair : string) : Attr :=
  match firstn 2 (split_on keySeparator pair) with
  | [k] => (k, None)
  | k :: v :: _ => (k, Some v)
  | [] => (EmptyString, None)
  end.

(** The body of the loop over [trys], for a pair that is not skipped. *)
Definition attr_of_pair (pair : string) : Attr :=
  if first_is classChar pair then ("class", Some (slice1 pair))
  else if test (Chr keySeparator) pair
          && test allowedKeyChars (slice0 pair (indexOf keySeparator pair))
  then split_limit2 pair
  else (pair, None).

Fixpoint getAttrs_loop (ts : list string) : list Attr :=
  match ts with
  | [] => []
  | unit :: rest =>
      if (String.length unit =? 0)%nat then getAttrs_loop rest
      else attr_of_pair unit :: getAttrs_loop rest
  end.

(** [getAttrs(str)]: [None] is the bare [return]. *)
Definition getAttrs (str : option string) : option (list Attr) :=
  match trys str with
  | [] => None
  | ts => Some (getAttrs_loop ts)
  end.

(** ** parseLine *)

(** An entry of the returned array: the target (absent for [parseLine]),
    the attributes and the text of the capture group. *)
Record ElementWithAttributes (T : Type) : Type := mkEWA {
  element : option T;
  attributes : option (list Attr);
  text : option string
}.
Arguments mkEWA {T} _ _ _.
Arguments element {T} _.
Arguments attributes {T} _.
Arguments text {T} _.

Definition parseLine (s : string) : list (ElementWithAttributes unit) :=
  List.map (fun mr => mkEWA None (getAttrs (group1 mr)) (group1 mr))
    (matchAll END_RE s).

(** ** tryToReplace *)

(** The second argument of [setAttr]: [true] or a string. *)
Inductive AttrValue : Type :=
| AttrTrue
| AttrString (v : string).

(** How a call ends: it returns, or it throws; either way the receiver
    is left in some state. *)
Inductive Outcome (E : Type) : Type :=
| Returned (e : E)
| Thrown (e : E).
Arguments Returned {E} _.
Arguments Thrown {E} _.

(** What the processor asks of a host element. *)
Class ElementHost (E : Type) : Type := {
  setAttr : E -> string -> AttrValue -> Outcome E;
  addClasses : E -> list string -> Outcome E
}.

(** [value.replace(/(DQ|SQ)/g, "")]: every double and single quote goes. *)
Definition is_dq_or_sq (c : ascii) : bool := Ascii.eqb c dq || Ascii.eqb c sq.
Definition strip_quotes (v : string) : string :=
  Str.filter (fun c => negb (is_dq_or_sq c)) v.

(** JavaScript truthiness of a string or [null]. *)
Definition truthy (v : option string) : bool :=
  match v with
  | Some (String _ _) => true
  | _ => false
  end.

(** [if (value) value = value.replace(...)] *)
Definition clean_value (value : option string) : option string :=
  if truthy value then option_map strip_quotes value else value.

Section TryToReplace.
Context {E : Type} `{ElementHost E}.

Definition on_element (o : Outcome E) : Outcome (option E) :=
  match o with
  | Returned e => Returned (Some e)
  | Thrown e => Thrown (Some e)
  end.

(** The body of the [try] block, [value] already cleaned.  A method
    call on a [null] element, and [value.split] on a [null] value,
    throw a TypeError. *)
Definition set_one (element : option E) (key : string)
           (value : option string) : Outcome (option E) :=
  match element with
  | None => Thrown None
  | Some e =>
      if String.eqb key "class" then
        match value with
        | None => Thrown (Some e)
        | Some v => on_element (addClasses e (split_on " " v))
        end
      else
        match value with
        | Some (String c v) => on_element (setAttr e key (AttrString (String c v)))
        | _ => on_element (setAttr e key AttrTrue)
        end
  end.

(** The [for] loop of [tryToReplace]; [Thrown] is the [catch] branch. *)
Fixpoint apply_attrs (element : option E) (attrs : list Attr)
  : Outcome (option E) :=
  match attrs with
  | [] => Returned element
  | (key, value) :: rest =>
      if (String.length key =? 0)%nat then apply_attrs element rest
      else match set_one element key (clean_value value) with
           | Returned e' => apply_attrs e' rest
           | Thrown e' => Thrown e'
           end
  end.

(** [tryToReplace(element, content, attributes, original)]: the element
    as the call leaves it, and the returned string. *)
Definition tryToReplace (element : option E) (content : string)
           (attrs : option (list Attr)) (original : string)
  : option E * string :=
  match attrs with
  | None | Some [] => (element, content)
  | Some l =>
      match apply_attrs element l with
      | Thrown e' => (e', content)
      | Returned e' => (e', remove_first original content)
      end
  end.

End TryToReplace.

(** ** The host tree *)

(** The interface an element implements, as far as the [instanceof] tests
    of the source tell them apart.  [OtherElement] is an element that is
    not an [HTMLElement]. *)
Inductive Interface : Type :=
| HTMLLIElement
| HTMLQuoteElement
| HTMLPreElement
| HTMLBRElement
| HTMLElement
| OtherElement.

Record Props : Type := mkProps {
  iface : Interface;
  tagName : string;
  classList : list string;
  attrList : list (string * string)
}.

#[local] Set Warnings "-register-all".
Inductive Node : Type :=
| Text (data : string)
| Element (p : Props) (childNodes : list Node).

Definition hasClass (c : string) (p : Props) : bool :=
  List.existsb (String.eqb c) (classList p).

Definition is_li (p : Props) : bool :=
  match iface p with HTMLLIElement => true | _ => false end.
Definition is_quote (p : Props) : bool :=
  match iface p with HTMLQuoteElement => true | _ => false end.
Definition is_pre (p : Props) : bool :=
  match iface p with HTMLPreElement => true | _ => false end.
Definition is_br (p : Props) : bool :=
  match iface p with HTMLBRElement => true | _ => false end.
Definition is_html (p : Props) : bool :=
  match iface p with OtherElement => false | _ => true end.

(** [getTopLevelText]: the data of the text nodes among the children,
    joined. *)
Fixpoint getTopLevelText (cs : list Node) : string :=
  match cs with
  | [] => EmptyString
  | Text d :: rest => d +:+ getTopLevelText rest
  | Element _ _ :: rest => getTopLevelText rest
  end.

(** An element as the walk names it, relative to the element it scans:
    the element itself, its child at an index of [childNodes], its
    ancestor at a depth (0 is the parent), or [null]. *)
Inductive Target : Type :=
| Self
| Child (i : nat)
| Ancestor (d : nat)
| NoElement.

Definition Binding : Type := ElementWithAttributes Target.

(** How a walk ends: it returns, it throws a TypeError, or the recursion
    outruns the call stack (the fuel). *)
Inductive Run (A : Type) : Type :=
| Ok (a : A)
| TypeError
| StackOverflow.
Arguments Ok {A} _.
Arguments TypeError {A}.
Arguments StackOverflow {A}.

(** The walk's view of the tree: the properties of the ancestors of the
    scanned element (parent first), of the element, its child nodes, and
    the bindings found. *)
Definition Walk : Type := list Props * Props * list Node * list Binding.

Definition parentElement (ancs : list Props) (t : Target) : Target :=
  match t with
  | Self => match ancs with [] => NoElement | _ :: _ => Ancestor 0 end
  | Child _ => Self
  | Ancestor d =>
      match ancs !! S d with Some _ => Ancestor (S d) | None => NoElement end
  | NoElement => NoElement
  end.

Definition lookup_target (ancs : list Props) (p : Props) (cs : list Node)
           (t : Target) : option Props :=
  match t with
  | Self => Some p
  | Child i => match cs !! i with Some (Element q _) => Some q | _ => None end
  | Ancestor d => ancs !! d
  | NoElement => None
  end.

Definition store_target (ancs : list Props) (p : Props) (cs : list Node)
           (t : Target) (e : option Props)
  : list Props * Props * list Node :=
  match e, t with
  | Some e', Self => (ancs, e', cs)
  | Some e', Child i =>
      match cs !! i with
      | Some (Element _ kids) => (ancs, p, <[i := Element e' kids]> cs)
      | _ => (ancs, p, cs)
      end
  | Some e', Ancestor d => (<[d := e']> ancs, p, cs)
  | _, _ => (ancs, p, cs)
  end.

(** The first text node among the children: its index and its data. *)
Fixpoint first_text (cs : list Node) (i : nat) : option (nat * string) :=
  match cs with
  | [] => None
  | Text d :: _ => Some (i, d)
  | Element _ _ :: rest => first_text rest (S i)
  end.

(** [child instanceof HTMLPreElement || child.tagName.toLowerCase() === "code"] *)
Definition opaque (q : Props) : bool :=
  is_pre q || String.eqb (toLowerCase (tagName q)) "code".

(** The target of a block annotation on the element [p]. *)
Definition block_target (ancs : list Props) (p : Props) : Target :=
  if is_li p
     || match ancs with parent :: _ => is_quote parent | [] => false end
     || hasClass "callout" p
  then parentElement ancs Self
  else Self.

(** The target of an inline annotation whose text node is at index [i]:
    the element child right before the text node, else the element; then
    up once past a collapse indicator, and up once past a line break. *)
Definition inline_target (ancs : list Props) (p : Props) (cs : list Node)
           (i : nat) : Target :=
  let sibling :=
    match i with
    | S j => match cs !! j with Some (Element _ _) => Child j | _ => Self end
    | O => Self
    end in
  let sibling :=
    match lookup_target ancs p cs sibling with
    | Some q => if hasClass "collapse-indicator" q
                then parentElement ancs sibling else sibling
    | None => sibling
    end in
  match lookup_target ancs p cs sibling with
  | Some q => if is_br q then parentElement ancs sibling else sibling
  | None => sibling
  end.

(** [text.match(RE) ?? []] destructured into [original] and
    [attribute_string]. *)
Definition match_parts (r : re) (text : string)
  : option string * option string :=
  match exec r text with
  | Some mr => (Some (matched mr), group1 mr)
  | None => (None, None)
  end.

(** A pattern that is [undefined] is searched as the text "undefined". *)
Definition pattern_of (original : option string) : string :=
  default "undefined" original.

Section Recurse.
Context `{ElementHost Props}.
(** The getter and the setter of [innerHTML]: the host's serialiser
    and parser. *)
Variable innerHTML : list Node -> string.
Variable setInnerHTML : string -> list Node.

(** The first branch: the own text ends in a block annotation.  The
    result is the tree after [el.innerHTML = this.tryToReplace(...)]. *)
Definition block_step (ancs : list Props) (p : Props) (cs : list Node)
  : list Props * Props * list Node * Binding :=
  let text := getTopLevelText cs in
  let element := block_target ancs p in
  let '(original, attribute_string) := match_parts BLOCK_RE text in
  let toAdd := mkEWA (Some element) (getAttrs attribute_string)
                     attribute_string in
  let '(e', content) :=
    tryToReplace (lookup_target ancs p cs element) (innerHTML cs)
                 (attributes toAdd) (pattern_of original) in
  let '(ancs', p', _) := store_target ancs p cs element e' in
  (ancs', p', setInnerHTML content, toAdd).

(** The second branch: the own text holds an inline annotation. *)
Definition inline_step (ancs : list Props) (p : Props) (cs : list Node)
  : Run (list Props * Props * list Node * Binding) :=
  let text := getTopLevelText cs in
  match first_text cs 0 with
  | None => TypeError
  | Some (i, data) =>
      let sibling := inline_target ancs p cs i in
      let '(original, attribute_string) := match_parts BASE_RE text in
      let toAdd := mkEWA (Some sibling) (getAttrs attribute_string)
                         attribute_string in
      let '(e', content) :=
        tryToReplace (lookup_target ancs p cs sibling) data
                     (attributes toAdd) (pattern_of original) in
      let '(ancs', p', cs') := store_target ancs p cs sibling e' in
      Ok (ancs', p', <[i := Text content]> cs', toAdd)
  end.

(** The loop over [el.children]: [done] are the children already
    passed, [todo] those to come; [rec] is the recursive call. *)
Fixpoint children_loop (rec : list Props -> Props -> list Node -> Run Walk)
         (ancs : list Props) (p : Props) (done todo : list Node)
         (found : list Binding) : Run Walk :=
  match todo with
  | [] => Ok (ancs, p, done, found)
  | Text d :: rest =>
      children_loop rec ancs p (done ++ [Text d]) rest found
  | Element q kids :: rest =>
      if negb (is_html q) then
        children_loop rec ancs p (done ++ [Element q kids]) rest found
      else if opaque q then
        children_loop rec ancs p (done ++ [Element q kids]) rest found
      else
        match rec (p :: ancs) q kids with
        | Ok (up, q', kids', bs) =>
            children_loop rec (tl up) (hd p up)
              (done ++ [Element q' kids']) rest (found ++ bs)
        | TypeError => TypeError
        | StackOverflow => StackOverflow
        end
  end.

(** [recurseAndParseElements(el)], [el] given by its properties [p], its
    child nodes [cs] and the properties of its ancestors. *)
Fixpoint recurseAndParseElements (fuel : nat) (ancs : list Props)
         (p : Props) (cs : list Node) : Run Walk :=
  match fuel with
  | O => StackOverflow
  | S fuel' =>
      let text := getTopLevelText cs in
      let branch : Run Walk :=
        if test BLOCK_RE text then
          let '(ancs1, p1, cs1, toAdd) := block_step ancs p cs in
          if is_li p then
            match recurseAndParseElements fuel' ancs1 p1 cs1 with
            | Ok (ancs2, p2, cs2, bs) => Ok (ancs2, p2, cs2, toAdd :: bs)
            | TypeError => TypeError
            | StackOverflow => StackOverflow
            end
          else Ok (ancs1, p1, cs1, [toAdd])
        else if test BASE_RE text then
          match inline_step ancs p cs with
          | Ok (ancs1, p1, cs1, toAdd) => Ok (ancs1, p1, cs1, [toAdd])
          | TypeError => TypeError
          | StackOverflow => StackOverflow
          end
        else Ok (ancs, p, cs, [])
      in
      match branch with
      | Ok (ancs1, p1, cs1, found) =>
          children_loop (recurseAndParseElements fuel') ancs1 p1 [] cs1 found
      | TypeError => TypeError
      | StackOverflow => StackOverflow
      end
  end.

End Recurse.

End Processor.

(* ===================================================================== *)
(** * A host: elements with attributes and classes, plain contents *)
(* ===================================================================== *)

Module Host.
Import Str Processor.

(** A name the host accepts for an attribute: not empty, and free of white
    space, NUL, slash, equals sign and greater-than. *)
Definition bad_name_char (c : ascii) : bool :=
  List.existsb (Ascii.eqb c)
    ["000"; "009"; "010"; "012"; "013"; " "; "/"; "="; ">"]%char.

Definition valid_name (k : string) : bool :=
  negb (String.length k =? 0)%nat && negb (Str.existsb bad_name_char k).

(** A class token the host accepts: not empty and free of white space. *)
Definition valid_token (t : string) : bool :=
  negb (String.length t =? 0)%nat && negb (Str.existsb is_space t).

Fixpoint set_assoc (k v : string) (l : list (string * string))
  : list (string * string) :=
  match l with
  | [] => [(k, v)]
  | (k', v') :: rest =>
      if String.eqb k' k then (k, v) :: rest else (k', v') :: set_assoc k v rest
  end.

Definition with_attrs (p : Props) (l : list (string * string)) : Props :=
  mkProps (iface p) (tagName p) (classList p) l.

Definition with_classes (p : Props) (l : list string) : Props :=
  mkProps (iface p) (tagName p) l (attrList p).

(** [setAttr(key, value)] is [setAttribute(key, String(value))].  The name
    is stored as it is written: the lower-casing of names on HTML elements
    is not modelled. *)
Definition dom_setAttr (p : Props) (key : string) (v : AttrValue)
  : Outcome Props :=
  if valid_name key
  then Returned (with_attrs p (set_assoc key
                   (match v with AttrTrue => "true" | AttrString s => s end)
                   (attrList p)))
  else Thrown p.

(** [addClasses(tokens)] adds the tokens one by one. *)
Fixpoint dom_addClasses (p : Props) (tokens : list string) : Outcome Props :=
  match tokens with
  | [] => Returned p
  | t :: rest =>
      if valid_token t
      then dom_addClasses
             (if hasClass t p then p else with_classes p (classList p ++ [t]))
             rest
      else Thrown p
  end.

#[export] Instance dom_host : ElementHost Props :=
  {| setAttr := dom_setAttr; addClasses := dom_addClasses |}.

(** The [innerHTML] of contents that are text free of markup characters:
    such text serialises to itself and parses back to one text node, or
    to no node when it is empty.  Child elements are written as a bare
    pair of tags.  The pair is faithful on contents that are text alone,
    free of markup characters: the escaping of such characters and the
    parsing of markup back into elements are not modelled. *)
Fixpoint plain_innerHTML (cs : list Node) : string :=
  match cs with
  | [] => EmptyString
  | Text d :: rest => d +:+ plain_innerHTML rest
  | Element q kids :: rest =>
      "<" +:+ toLowerCase (tagName q) +:+ ">"
      +:+ (fix inner (l : list Node) : string :=
             match l with
             | [] => EmptyString
             | Text d :: r => d +:+ inner r
             | Element _ _ :: r => inner r
             end) kids
      +:+ "</" +:+ toLowerCase (tagName q) +:+ ">" +:+ plain_innerHTML rest
  end.

Definition plain_setInnerHTML (html : string) : list Node :=
  match html with
  | EmptyString => []
  | _ => [Text html]
  end.

Definition walk : nat -> list Props -> Props -> list Node -> Run Walk :=
  recurseAndParseElements plain_innerHTML plain_setInnerHTML.

Definition elem (i : Interface) (tag : string) : Props := mkProps i tag [] [].

End Host.

(* ===================================================================== *)
(** * main.ts: the decorations of the editor *)
(* ===================================================================== *)

Module Editor.
Import Str RegExp Processor.

(** ** rangesInclude *)

Record SelectionRange : Type := mkSel { sel_from : Z; sel_to : Z }.

Fixpoint rangesInclude (ranges : list SelectionRange) (from to : Z) : bool :=
  match ranges with
  | [] => false
  | range :: rest =>
      let rFrom := sel_from range in
      let rTo := sel_to range in
      if (rFrom >=? from)%Z && (rFrom <=? to)%Z then true
      else if (rTo >=? from)%Z && (rTo <=? to)%Z then true
      else if (rFrom <? from)%Z && (rTo >? to)%Z then true
      else rangesInclude rest from to
  end.

(** ** Decorations and the cache of [StatefulDecorationSet] *)

(** The spec object a decoration is made from.  [Object.fromEntries]
    turns the attribute pairs into an object: a later pair with the same
    key overwrites an earlier one. *)
Inductive DecoSpec : Type :=
| MarkSpec (attributes : gmap string (option string))
| ReplaceSpec (inclusive : bool) (loc : Z * Z).

(** A decoration object; [ident] stands for its identity: the number of
    the allocation that made it. *)
Record Decoration : Type := mkDeco { ident : nat; spec : DecoSpec }.

(** [deco.range(from, to)] *)
Record Range : Type := mkRange {
  range_from : Z;
  range_to : Z;
  range_value : Decoration
}.

Definition DecorationSet : Type := list Range.

Inductive TokenSpec : Type :=
| MarkToken (from to : Z) (value : string) (attributes : option (list Attr))
| ReplaceToken (from to : Z) (loc : Z * Z) (value : string) (index : Z).

Definition token_value (t : TokenSpec) : string :=
  match t with
  | MarkToken _ _ v _ => v
  | ReplaceToken _ _ _ v _ => v
  end.

Definition token_from (t : TokenSpec) : Z :=
  match t with
  | MarkToken f _ _ _ => f
  | ReplaceToken f _ _ _ _ => f
  end.

Definition token_to (t : TokenSpec) : Z :=
  match t with
  | MarkToken _ e _ _ => e
  | ReplaceToken _ e _ _ _ => e
  end.

Definition is_mark (t : TokenSpec) : bool :=
  match t with MarkToken _ _ _ _ => true | _ => false end.

(** The manager: [decoCache], and the number of decoration objects
    allocated so far. *)
Record Manager : Type := mkManager {
  decoCache : gmap string Decoration;
  allocated : nat
}.

Definition fromEntries (l : list Attr) : gmap string (option string) :=
  list_to_map (List.rev l).

(** The spec of the decoration a token asks for; [None] when building it
    throws ([Object.fromEntries(undefined)]). *)
Definition spec_of (t : TokenSpec) : option DecoSpec :=
  match t with
  | MarkToken _ _ _ (Some attrs) => Some (MarkSpec (fromEntries attrs))
  | MarkToken _ _ _ None => None
  | ReplaceToken _ _ loc _ _ => Some (ReplaceSpec true loc)
  end.

(** One turn of the loop of [compute]: the decoration for the token,
    taken from the cache under the token's value or made and cached. *)
Definition decoration_for (mgr : Manager) (t : TokenSpec)
  : Manager * option Decoration :=
  match decoCache mgr !! token_value t with
  | Some deco => (mgr, Some deco)
  | None =>
      match spec_of t with
      | None => (mgr, None)
      | Some sp =>
          let deco := mkDeco (allocated mgr) sp in
          (mkManager (<[token_value t := deco]> (decoCache mgr))
                     (S (allocated mgr)),
           Some deco)
      end
  end.

(** The loop of [compute]: the manager afterwards, and the [mark] and
    [replace] arrays, or [None] when a turn threw.  The throw that is
    modelled is that of [Object.fromEntries]; [deco.range] is taken to
    return, so a span the library refuses (an empty span for a mark
    decoration) is outside the model. *)
Fixpoint compute_loop (mgr : Manager) (tokens : list TokenSpec)
  : Manager * option (list Range * list Range) :=
  match tokens with
  | [] => (mgr, Some ([], []))
  | t :: rest =>
      match decoration_for mgr t with
      | (mgr', None) => (mgr', None)
      | (mgr', Some deco) =>
          let r := mkRange (token_from t) (token_to t) deco in
          match compute_loop mgr' rest with
          | (mgr'', Some (mark, replace)) =>
              (mgr'', Some (if is_mark t then (r :: mark, replace)
                            else (mark, r :: replace)))
          | (mgr'', None) => (mgr'', None)
          end
      end
  end.

(** [Decoration.set(ranges, true)]: the ranges sorted by their start. *)
Fixpoint insert_range (r : Range) (l : list Range) : list Range :=
  match l with
  | [] => [r]
  | x :: rest =>
      if (range_from r <? range_from x)%Z then r :: l
      else x :: insert_range r rest
  end.

Definition Decoration_set (l : list Range) : DecorationSet :=
  fold_right insert_range [] l.

(** [compute(tokens)] *)
Definition compute (mgr : Manager) (tokens : list TokenSpec)
  : Manager * option (DecorationSet * DecorationSet) :=
  match compute_loop mgr tokens with
  | (mgr', Some (mark, replace)) =>
      (mgr', Some (Decoration_set mark, Decoration_set replace))
  | (mgr', None) => (mgr', None)
  end.

(** ** The state field *)

Inductive Effect : Type :=
| UpdateEffect (value : DecorationSet)      (* statefulDecorations.update *)
| ReplaceEffect (value : DecorationSet)     (* statefulDecorations.replace *)
| OtherEffect.

(** The filter of the [replace] branch; reading [spec.loc.from] of a
    decoration without [loc] throws. *)
Definition keeps (sel : list SelectionRange) (r : Range) : option bool :=
  match spec (range_value r) with
  | ReplaceSpec _ (from, to) => Some (negb (rangesInclude sel from to))
  | MarkSpec _ => None
  end.

(** [value.update({ filter })] *)
Fixpoint filter_set (sel : list SelectionRange) (v : DecorationSet)
  : option DecorationSet :=
  match v with
  | [] => Some []
  | r :: rest =>
      match keeps sel r with
      | None => None
      | Some b =>
          match filter_set sel rest with
          | None => None
          | Some rest' => Some (if b then r :: rest' else rest')
          end
      end
  end.

Section Field.
(** The change sets of the host and the mapping of a decoration set
    through one. *)
Variable ChangeSet : Type.
Variable mapSet : ChangeSet -> DecorationSet -> DecorationSet.

Record Transaction : Type := mkTr {
  changes : ChangeSet;
  effects : list Effect;
  newSelection : list SelectionRange
}.

(** The reducer of [field.update]; [None] when the filter threw. *)
Definition reducer (tr : Transaction) (deco : option DecorationSet)
           (effect : Effect) : option DecorationSet :=
  match deco with
  | None => None
  | Some d =>
      match effect with
      | UpdateEffect value => Some value
      | ReplaceEffect value => filter_set (newSelection tr) value
      | OtherEffect => Some d
      end
  end.

(** [update(deco, tr)] of the state field. *)
Definition field_update (deco : DecorationSet) (tr : Transaction)
  : option DecorationSet :=
  fold_left (reducer tr) (effects tr) (Some (mapSet (changes tr) deco)).

End Field.
Arguments mkTr {ChangeSet} _ _ _.
Arguments changes {ChangeSet} _.
Arguments effects {ChangeSet} _.
Arguments newSelection {ChangeSet} _.
Arguments reducer {ChangeSet} _ _ _.
Arguments field_update {ChangeSet} _ _ _.

(** ** build *)

(** A node of the syntax tree as [enter] sees it: its token classes and
    its span. *)
Record SyntaxNode : Type := mkNode {
  tokenProps : option string;
  node_from : Z;
  node_to : Z
}.

(** [doc.sliceString(from, to)] *)
Definition sliceString (doc : string) (from to : Z) : string :=
  take (Z.to_nat (to - from)) (drop (Z.to_nat from) doc).

(** The source of the pattern that finds the annotation again: in the
    template literal the escape of the letter s before the last question
    mark is the letter itself. *)
Definition replace_pattern (text : string) : string :=
  "\{\s?" +:+ text +:+ "s?\}".

Section Build.
(** The [RegExp] constructor; [None] is a SyntaxError. *)
Variable compile : string -> option re.

(** The two tokens of one parsed item; [None] when the pattern does not
    compile or does not match. *)
Definition item_tokens (from to : Z) (original : string)
           (item : ElementWithAttributes unit) : option (list TokenSpec) :=
  let text := pattern_of (Processor.text item) in
  match compile (replace_pattern text) with
  | None => None
  | Some r =>
      match exec r original with
      | None => None
      | Some mr =>
          let i := Z.of_nat (index mr) in
          Some [MarkToken from to text (attributes item);
                ReplaceToken (from + i - 1)
                  (from + i + Z.of_nat (String.length (matched mr)))
                  (from, to) (matched mr) i]
      end
  end.

Fixpoint items_tokens (from to : Z) (original : string)
         (items : list (ElementWithAttributes unit))
  : option (list TokenSpec) :=
  match items with
  | [] => Some []
  | item :: rest =>
      match item_tokens from to original item with
      | None => None
      | Some ts =>
          match items_tokens from to original rest with
          | None => None
          | Some ts' => Some (ts ++ ts')%list
          end
      end
  end.

(** The callback [enter]. *)
Definition enter (doc : string) (n : SyntaxNode) : option (list TokenSpec) :=
  match tokenProps n with
  | None | Some EmptyString => Some []
  | Some props =>
      if List.existsb (String.eqb "hmd-codeblock") (split_on " " props)
      then Some []
      else
        let original := sliceString doc (node_from n) (node_to n) in
        if negb (test END_RE original) then Some []
        else items_tokens (node_from n) (node_to n) original
                          (parseLine original)
  end.

(** [build]: the tokens of the nodes of the visible ranges, in order. *)
Fixpoint build (doc : string) (nodes : list SyntaxNode)
  : option (list TokenSpec) :=
  match nodes with
  | [] => Some []
  | n :: rest =>
      match enter doc n with
      | None => None
      | Some ts =>
          match build doc rest with
          | None => None
          | Some ts' => Some (ts ++ ts')%list
          end
      end
  end.

End Build.

End Editor.

(* ===================================================================== *)
(** * The tokenizer as the specification words it *)
(* ===================================================================== *)

Module Spec.
Import Str Processor.

Definition is_quote (c : ascii) : bool := List.existsb (Ascii.eqb c) quotes.

(** Reading [s] from left to right with the quote [open] open, if any:
    every quote is closed by the same character, with no other quote
    character in between.  The result is then the last quote that was
    closed ([cap] when there was none); [None] when the quotes of [s] do not
    pair up. *)
Fixpoint pairs (open : option ascii) (cap : option string) (s : string)
  : option (option string) :=
  match s with
  | EmptyString => match open with None => Some cap | Some _ => None end
  | String c s' =>
      if is_quote c then
        match open with
        | None => pairs (Some c) cap s'
        | Some q => if Ascii.eqb c q then pairs None (Some (of_char q)) s' else None
        end
      else pairs open cap s'
  end.

(** A string whose quotes pair up. *)
Definition well_quoted (s : string) : bool :=
  match pairs None None s with Some _ => true | None => false end.

(** The quote-aware split in the words of section 3 of the specification:
    a split at the white space that is not inside a matching pair of single,
    double or back-tick quotes.  [open] is the quote that is open, [acc] the
    fragment read so far. *)
Fixpoint split_outside_quotes (open : option ascii) (acc s : string)
  : list string :=
  match s with
  | EmptyString => [acc]
  | String c s' =>
      match open with
      | Some q =>
          split_outside_quotes (if Ascii.eqb c q then None else Some q)
                               (acc +:+ of_char c) s'
      | None =>
          if is_quote c then split_outside_quotes (Some c) (acc +:+ of_char c) s'
          else if is_space c then acc :: split_outside_quotes None EmptyString s'
          else split_outside_quotes None (acc +:+ of_char c) s'
      end
  end.

(** In the words of section 4.1 of the specification: a fragment that is
    empty or is one quote character alone is discarded. *)
Definition kept (t : string) : bool :=
  match t with
  | EmptyString => false
  | String c EmptyString => negb (is_quote c)
  | _ => true
  end.

(** The text from the first quote character on. *)
Fixpoint skip_text (s : string) : string :=
  match s with
  | EmptyString => EmptyString
  | String c s' => if is_quote c then s else skip_text s'
  end.

Definition is_bt (c : ascii) : bool := Ascii.eqb c bt.

(** What is left of the array of the split after the trim and the filter
    of [getAttrs]. *)
Definition fragments (l : list (option string)) : list string :=
  omap id (List.filter keep_fragment (List.map trim_fragment l)).

(** An entry of the array of the split that the filter drops. *)
Definition dropped (c : option string) : bool :=
  negb (keep_fragment (trim_fragment c)).

End Spec.

(* ===================================================================== *)
(** * Inputs used in the examples *)
(* ===================================================================== *)

Module Examples.
Import Str Processor Host Editor.

(** [s] between two quote characters [q]. *)
Definition quoted (q : ascii) (s : string) : string :=
  String q (s +:+ of_char q).

(** Two lines. *)
Definition lines (a b : string) : string := a +:+ String nl b.

Definition p_elem : Props := elem HTMLElement "P".
Definition ul_elem : Props := elem HTMLElement "UL".
Definition li_elem : Props := elem HTMLLIElement "LI".
Definition pre_elem : Props := elem HTMLPreElement "PRE".
Definition code_elem : Props := elem HTMLElement "CODE".

(** The unit [data-x=QaQ bQ checked] with double quotes, and the unit
    [data-x] with a value in back-ticks. *)
Definition dq_units : string := "data-x=" +:+ quoted dq "a b" +:+ " checked".
Definition bt_unit : string := "data-x=" +:+ quoted bt "a b".

(** A list item whose block annotation names an attribute the host
    rejects, inside its list. *)
Definition rejected_item : list Node :=
  [Element li_elem [Text (lines "Item" "{: a/b}")]].

(** A list item with an inline and a block annotation. *)
Definition annotated_item : list Node :=
  [Text (lines "Item {.y}" "{: .x}")].

(** A code block as the post processor hands it over: the annotation of
    the fence line put in front of the code element. *)
Definition fenced : list Node :=
  [Text "{.note}"; Element code_elem [Text "x {.y}"]].

(** A paragraph with inline code that holds annotation text. *)
Definition with_code : list Node :=
  [Text "Hello {.note}"; Element code_elem [Text "x {.y}"];
   Element pre_elem [Text "{.z}"]].

(** A replace decoration anchored at [3, 10], and a caret at 5. *)
Definition hidden : Range := mkRange 2 10 (mkDeco 0 (ReplaceSpec true (3, 10)%Z)).
Definition caret (pos : Z) : list SelectionRange := [mkSel pos pos].

End Examples.

(* ===================================================================== *)
(** * What a pattern reads: a declarative account of the matcher *)
(* ===================================================================== *)

Module Sem.
Import Str RegExp.

(** [Matches r p rest c c']: the pattern [r] can read the text [p] when
    [rest] follows it, the capture being [c] before and [c'] after.  The
    matcher [m] only ever returns such a reading. *)
Inductive Matches : re -> string -> string -> option string -> option string -> Prop :=
| M_Eps rest c : Matches Eps EmptyString rest c c
| M_Chr a rest c : Matches (Chr a) (of_char a) rest c c
| M_Cls negated set a rest c :
    in_class negated set a = true ->
    Matches (Cls negated set) (of_char a) rest c c
| M_Space a rest c :
    is_space a = true -> Matches Space (of_char a) rest c c
| M_Cat r1 r2 p1 p2 rest c c1 c2 :
    Matches r1 p1 (p2 +:+ rest) c c1 ->
    Matches r2 p2 rest c1 c2 ->
    Matches (Cat r1 r2) (p1 +:+ p2) rest c c2
| M_Star_stop r rest c : Matches (Star r) EmptyString rest c c
| M_Star_more r p1 p2 rest c c1 c2 :
    Matches r p1 (p2 +:+ rest) (if has_cap r then None else c) c1 ->
    p1 <> EmptyString ->
    Matches (Star r) p2 rest c1 c2 ->
    Matches (Star r) (p1 +:+ p2) rest c c2
| M_Opt_none r rest c : Matches (Opt r) EmptyString rest c c
| M_Opt_some r p rest c c1 :
    Matches r p rest (if has_cap r then None else c) c1 ->
    p <> EmptyString ->
    Matches (Opt r) p rest c c1
| M_Cap r p rest c c1 :
    Matches r p rest None c1 -> Matches (Cap r) p rest c (Some p)
| M_Backref_unset rest : Matches Backref EmptyString rest None None
| M_Backref_set g rest : Matches Backref g rest (Some g) (Some g)
| M_Lookahead r p rest c c1 :
    Matches r p rest c c1 -> Matches (Lookahead r) EmptyString (p +:+ rest) c c1
| M_Dollar_end multiline c : Matches (Dollar multiline) EmptyString EmptyString c c
| M_Dollar_line a rest c :
    is_line_terminator a = true ->
    Matches (Dollar true) EmptyString (String a rest) c c.

(** Every character of [s] satisfies [f]. *)
Fixpoint all (f : ascii -> bool) (s : string) : bool :=
  match s with
  | EmptyString => true
  | String c s' => f c && all f s'
  end.

Definition is_space_char (c : ascii) : bool := Ascii.eqb c " ".
Definition is_close (c : ascii) : bool := Ascii.eqb c "}".
Definition is_nl (c : ascii) : bool := Ascii.eqb c nl.

(** The text [p] is an annotation with the capture [g]: an opening brace,
    an optional colon, spaces, then [g], spaces and the closing brace; [g]
    starts with a character that is no closing brace, line feed or space and
    goes on with characters that are no closing brace or line feed. *)
Definition annotation (p g : string) : Prop :=
  exists colon sp1 c0 g' sp2,
    p = "{" +:+ colon +:+ sp1 +:+ g +:+ sp2 +:+ "}"
    /\ g = String c0 g'
    /\ (colon = EmptyString \/ colon = ":")
    /\ all is_space_char sp1 = true
    /\ all is_space_char sp2 = true
    /\ (is_close c0 || is_nl c0 || is_space_char c0) = false
    /\ all (fun c => negb (is_close c || is_nl c)) g' = true.

(** A suffix of [s] from which the pattern [r] matches. *)
Definition matches_within (r : re) (s : string) : Prop :=
  exists i, is_Some (match_here r (drop i s)).

End Sem.

(* ===================================================================== *)
(** * Trees without annotations, effects, token pairs *)
(* ===================================================================== *)

Module Tree.
Import Str RegExp Processor.

(** Neither test of the walk finds an annotation in the text. *)
Definition no_annotation (text : string) : bool :=
  negb (test BLOCK_RE text) && negb (test BASE_RE text).

(** A child the loop hands to the recursion. *)
Definition entered (q : Props) : bool := is_html q && negb (opaque q).

(** No element the walk would enter under this node has an annotation in
    its own text. *)
Fixpoint quiet (n : Node) : bool :=
  match n with
  | Text _ => true
  | Element q kids =>
      negb (entered q)
      || (no_annotation (getTopLevelText kids) && List.forallb quiet kids)
  end.

(** The nesting depth of elements under a node. *)
Fixpoint depth (n : Node) : nat :=
  match n with
  | Text _ => 0
  | Element _ kids => S (list_max (List.map depth kids))
  end.

(** A binding that carries the capture of an annotation, with the pairs
    [getAttrs] reads from that capture. *)
Definition carries_annotation (b : Binding) : Prop :=
  exists p g,
    Sem.annotation p g /\ text b = Some g /\ attributes b = getAttrs (Some g).

End Tree.

Module Field.
Import Editor.

(** The last effect of a transaction that is an update or a replace
    effect. *)
Definition last_effect (effects : list Effect) : option Effect :=
  fold_left (fun acc e => match e with OtherEffect => acc | _ => Some e end)
            effects None.

(** The filter of a replace effect returns; an effect of another kind has
    no filter. *)
Definition returns (sel : list SelectionRange) (e : Effect) : bool :=
  match e with
  | ReplaceEffect value =>
      match filter_set sel value with Some _ => true | None => false end
  | _ => true
  end.

(** A range whose decoration has no anchor. *)
Definition is_mark_range (r : Range) : bool :=
  match spec (range_value r) with MarkSpec _ => true | ReplaceSpec _ _ => false end.

End Field.

Module Tokens.
Import Editor.

(** The tokens of one syntax node with the span [from, to]: a mark token
    over the span, then the replace token of the same item, anchored at the
    span, which starts one character before the index of the match and ends
    after the matched text. *)
Fixpoint paired (from to : Z) (ts : list TokenSpec) : bool :=
  match ts with
  | [] => true
  | MarkToken f t _ _ :: ReplaceToken rf rt (lf, lt) v i :: rest =>
      (f =? from)%Z && (t =? to)%Z && (lf =? from)%Z && (lt =? to)%Z
      && (0 <=? i)%Z && (rf =? from + i - 1)%Z
      && (rt =? from + i + Z.of_nat (String.length v))%Z
      && paired from to rest
  | _ => false
  end.

(** The range [r] is the one [compute] makes for the token [t]: the span of
    the token, with the decoration the cache of [mgr] holds under the value
    of the token. *)
Definition range_of (mgr : Manager) (t : TokenSpec) (r : Range) : Prop :=
  range_from r = token_from t
  /\ range_to r = token_to t
  /\ decoCache mgr !! token_value t = Some (range_value r).

End Tokens.

Module Cases.
Import Str RegExp Processor Host Editor.

(** A list with two items and nested emphasis, no annotation anywhere but
    inside inline code. *)
Definition plain_list : list Node :=
  [Element (elem HTMLLIElement "LI")
     [Text "one "; Element (elem HTMLElement "EM") [Text "two"]];
   Element (elem HTMLLIElement "LI")
     [Element (elem HTMLElement "CODE") [Text "x {.y}"]; Text " three"]].

(** A paragraph with text, an emphasised word and an annotation after it. *)
Definition after_emphasis : list Node :=
  [Text "text "; Element (elem HTMLElement "EM") [Text "x"]; Text "{.cls}"].

(** A compiler for the one pattern source the example needs: the pattern
    built for the text [.note], whose dot reads any character. *)
Definition compile_note (source : string) : option re :=
  if String.eqb source (replace_pattern ".note")
  then Some (Cat (Chr "{") (Cat (Opt Space)
               (Cat (Cls true [nl; cr]) (Cat (Chr "n") (Cat (Chr "o") (Cat (Chr "t")
                 (Cat (Chr "e") (Cat (Opt (Chr "s")) (Chr "}")))))))))
  else None.

(** The contents of a list item with an inline annotation and a block
    annotation whose capture is a double quote alone. *)
Definition lone_quote_item : list Node :=
  [Text (Examples.lines "Item {.y}" ("{: " +:+ of_char dq +:+ "}"))].

(** A decoration set that holds a mark decoration. *)
Definition with_mark : DecorationSet :=
  [Examples.hidden; mkRange 0 9 (mkDeco 1 (MarkSpec ∅))].

End Cases.

(* ===================================================================== *)
(** * Facts about the string functions *)
(* ===================================================================== *)

Import RegExp Processor Editor.
Local Open Scope list_scope.

(** The pieces of [split_on]: the text before the first separator, then the
    pieces of what follows it. *)
Lemma split_on_before_after (c : ascii) (s : string) :
  Str.split_on c s =
  Str.before c s :: match Str.after c s with
                    | Some rest => Str.split_on c rest
                    | None => []
                    end.
Proof.
  induction s as [|a s IH]; simpl; [reflexivity|].
  destruct (Ascii.eqb a c); [reflexivity|].
  rewrite IH. reflexivity.
Qed.

(** A separator that occurs has a text after it. *)
Lemma after_is_some (c : ascii) (s : string) :
  Str.existsb (fun a => Ascii.eqb a c) s = true ->
  exists rest, Str.after c s = Some rest.
Proof.
  induction s as [|a s IH]; simpl; [discriminate|].
  destruct (Ascii.eqb a c); simpl; eauto.
Qed.

(** Without a separator the text before it is the whole string. *)
Lemma before_without (c : ascii) (s : string) :
  Str.existsb (fun a => Ascii.eqb a c) s = false -> Str.before c s = s.
Proof.
  induction s as [|a s IH]; simpl; [reflexivity|].
  destruct (Ascii.eqb a c); simpl; [discriminate|].
  intros Hs. rewrite IH by assumption. reflexivity.
Qed.

(** The text before the separator is a prefix of the string. *)
Lemma take_before (c : ascii) (s : string) :
  Str.take (String.length (Str.before c s)) s = Str.before c s.
Proof.
  induction s as [|a s IH]; simpl; [reflexivity|].
  destruct (Ascii.eqb a c); simpl; [reflexivity|].
  rewrite IH. reflexivity.
Qed.

(** [indexOf] counts the characters before the first separator. *)
Lemma indexOf_from_before (c : ascii) (s : string) (i : Z) :
  Str.existsb (fun a => Ascii.eqb a c) s = true ->
  Str.indexOf_from c s i = (i + Z.of_nat (String.length (Str.before c s)))%Z.
Proof.
  revert i. induction s as [|a s IH]; simpl; intros i; [discriminate|].
  destruct (Ascii.eqb a c); simpl; intros Hs.
  - lia.
  - rewrite IH by assumption. lia.
Qed.

(** [unit.slice(0, unit.indexOf(c))] is the text before the first [c]. *)
Lemma slice0_indexOf (c : ascii) (s : string) :
  Str.existsb (fun a => Ascii.eqb a c) s = true ->
  Str.slice0 s (Str.indexOf c s) = Str.before c s.
Proof.
  intros Hs. unfold Str.slice0, Str.indexOf.
  rewrite indexOf_from_before by assumption.
  destruct (Z.ltb_spec (0 + Z.of_nat (String.length (Str.before c s))) 0); [lia|].
  rewrite Z.add_0_l, Nat2Z.id. apply take_before.
Qed.

(** [new RegExp(c).test(s)] for a literal character: [c] occurs in [s]. *)
Lemma test_Chr (c : ascii) (s : string) :
  test (Chr c) s = Str.existsb (fun a => Ascii.eqb a c) s.
Proof.
  unfold test, exec. generalize 0%nat.
  induction s as [|a s IH]; intros i; simpl; [reflexivity|].
  unfold match_here; simpl.
  destruct (Ascii.eqb a c); simpl; [reflexivity|]. apply IH.
Qed.

(** [test] of a single class: some character of [s] is in the class. *)
Lemma test_Cls (negated : bool) (set : list ascii) (s : string) :
  test (Cls negated set) s = Str.existsb (in_class negated set) s.
Proof.
  unfold test, exec. generalize 0%nat.
  induction s as [|a s IH]; intros i; simpl; [reflexivity|].
  unfold match_here; simpl.
  destruct (in_class negated set a); simpl; [reflexivity|]. apply IH.
Qed.

(** The pair that [split] with limit 2 yields: the texts before the first
    and before the second separator. *)
Lemma split_limit2_spec (s rest : string) :
  Str.after keySeparator s = Some rest ->
  split_limit2 s = (Str.before keySeparator s, Some (Str.before keySeparator rest)).
Proof.
  intros Hs. unfold split_limit2.
  rewrite split_on_before_after, Hs, (split_on_before_after _ rest).
  reflexivity.
Qed.

(* ===================================================================== *)
(** * getAttrs: fragments and tokens *)
(* ===================================================================== *)

(** Every fragment [getAttrs] keeps is non-empty and is neither the double
    quote alone nor the single quote alone. *)
Lemma trys_fragments (str : option string) (t : string) :
  In t (trys str) ->
  t <> EmptyString /\ t <> Str.of_char Str.dq /\ t <> Str.of_char Str.sq.
Proof.
  unfold trys. intros Hin.
  apply list_elem_of_In, list_elem_of_omap in Hin.
  destruct Hin as (o & Ho & Hid). simpl in Hid. subst o.
  apply list_elem_of_In, filter_In in Ho. destruct Ho as [_ Hk].
  unfold keep_fragment in Hk.
  repeat (apply andb_prop in Hk; destruct Hk as [Hk ?]).
  repeat split; intros ->; simpl in *; discriminate.
Qed.

(** The loop of [getAttrs] maps the fragments to pairs, one for one. *)
Lemma getAttrs_loop_map (ts : list string) :
  Forall (fun t => t <> EmptyString) ts ->
  getAttrs_loop ts = List.map attr_of_pair ts.
Proof.
  induction 1 as [|t ts Ht _ IH]; simpl; [reflexivity|].
  destruct t; [contradiction|]. simpl. rewrite IH. reflexivity.
Qed.

(** On the empty string, and on [undefined], [getAttrs] returns nothing. *)
Lemma getAttrs_empty :
  getAttrs (Some EmptyString) = None /\ getAttrs None = None.
Proof. split; reflexivity. Qed.

(** The fragments between the split points that are a double or a single
    quote alone are dropped, and so is the capture spliced in by the split:
    the example of the specification. *)
Example getAttrs_double_quoted :
  split SPLIT_RE ("checked " +:+ Examples.quoted Str.dq "a b")
  = [Some "checked"; Some (Str.of_char Str.dq); Some (Examples.quoted Str.dq "a b")]
  /\ getAttrs (Some ("checked x=" +:+ Examples.quoted Str.dq "a b"))
     = Some [("checked", None); ("x", Some (Examples.quoted Str.dq "a b"))]
  /\ getAttrs (Some Examples.dq_units)
     = Some [("data-x", Some (Examples.quoted Str.dq "a b")); ("checked", None)].
Proof. repeat split; vm_compute; reflexivity. Qed.

(** C8 (the code at the failing input): a fragment that is a back-tick
    alone is not discarded.  The split pattern takes the back-tick as a
    quote and splices it in as the capture of a split point, but the filter
    drops only the double and the single quote; the back-tick becomes a flag
    token of its own, on a lone back-tick as on a unit quoted in
    back-ticks. *)
Theorem C8_backtick_fragment_is_kept :
  getAttrs (Some (Str.of_char Str.bt)) = Some [(Str.of_char Str.bt, None)]
  /\ getAttrs (Some ("a b=" +:+ Examples.quoted Str.bt "c"))
     = Some [("a", None); (Str.of_char Str.bt, None);
             ("b", Some (Examples.quoted Str.bt "c"))]
  /\ getAttrs (Some (Str.of_char Str.dq)) = None
  /\ getAttrs (Some (Str.of_char Str.sq)) = None.
Proof. repeat split; vm_compute; reflexivity. Qed.

(** C7 (counterexample): on [a=b=c] the value is [b], not [b=c]: the
    split is at every separator and the limit keeps two pieces.  And a unit
    that starts with the class character is a class token, whatever
    separator it holds. *)
Lemma C7_second_separator_cuts_value :
  attr_of_pair "a=b=c" = ("a", Some "b")
  /\ attr_of_pair "a=b=c" <> ("a", Some "b=c")
  /\ getAttrs (Some "a=b=c") = Some [("a", Some "b")]
  /\ test allowedKeyChars (Str.before keySeparator ".a=b") = true
  /\ attr_of_pair ".a=b" = ("class", Some "a=b").
Proof.
  split; [vm_compute; reflexivity|].
  split; [vm_compute; discriminate|].
  repeat split; vm_compute; reflexivity.
Qed.

(** The pair of a unit that goes through the key/value branch: the key is
    the text before the first separator, the value the text between the
    first separator and the next one. *)
Lemma attr_of_pair_key_value (unit rest : string) :
  Str.first_is classChar unit = false ->
  Str.after keySeparator unit = Some rest ->
  test allowedKeyChars (Str.before keySeparator unit) = true ->
  attr_of_pair unit
  = (Str.before keySeparator unit, Some (Str.before keySeparator rest)).
Proof.
  intros Hclass Hrest Hkey.
  assert (Hsep : Str.existsb (fun a => Ascii.eqb a keySeparator) unit = true).
  { clear Hkey Hclass. revert Hrest. induction unit as [|a u IH]; simpl; [discriminate|].
    destruct (Ascii.eqb a keySeparator); simpl; [reflexivity|exact IH]. }
  unfold attr_of_pair. rewrite Hclass, test_Chr, Hsep.
  rewrite slice0_indexOf by assumption. rewrite Hkey. simpl.
  apply split_limit2_spec; assumption.
Qed.

(** C7 (amended): a unit that does not start with the class character, that
    holds the separator once and whose text before the separator passes the
    key test, yields a pair whose key is the text before the separator and
    whose value is all the text after it. *)
Theorem C7_key_value_split (unit rest : string) :
  Str.first_is classChar unit = false ->
  Str.after keySeparator unit = Some rest ->
  Str.existsb (fun a => Ascii.eqb a keySeparator) rest = false ->
  test allowedKeyChars (Str.before keySeparator unit) = true ->
  attr_of_pair unit = (Str.before keySeparator unit, Some rest).
Proof.
  intros Hclass Hrest Hone Hkey.
  rewrite (attr_of_pair_key_value unit rest Hclass Hrest Hkey).
  rewrite (before_without _ _ Hone). reflexivity.
Qed.

(** The theorem on the unit [data-x=1]. *)
Lemma C7_key_value_split_witness :
  attr_of_pair "data-x=1" = ("data-x", Some "1").
Proof.
  apply (C7_key_value_split "data-x=1" "1"); reflexivity.
Defined.

(* ===================================================================== *)
(** * tryToReplace *)
(* ===================================================================== *)

Section TryToReplaceFacts.
Context {E : Type} `{ElementHost E}.

(** The loop stops at the first pair the host rejects: the element is as
    the pairs before it left it (and as the rejected call left it), and
    the pairs after it are not looked at. *)
Lemma apply_attrs_thrown (attrs : list Attr) (element e' : option E) :
  apply_attrs element attrs = Thrown e' ->
  exists pre key value post e1,
    attrs = pre ++ (key, value) :: post
    /\ apply_attrs element pre = Returned e1
    /\ set_one e1 key (clean_value value) = Thrown e'.
Proof.
  revert element. induction attrs as [|[key value] attrs IH]; intros element.
  - discriminate.
  - simpl. destruct (String.length key =? 0)%nat eqn:Hk.
    + intros Hthrown. destruct (IH _ Hthrown) as (pre & k & v & post & e1 & -> & Hpre & Hset).
      exists ((key, value) :: pre), k, v, post, e1.
      repeat split; [|assumption]. simpl. rewrite Hk. assumption.
    + destruct (set_one element key (clean_value value)) as [e2|e2] eqn:Hone.
      * intros Hthrown. destruct (IH _ Hthrown) as (pre & k & v & post & e1 & -> & Hpre & Hset).
        exists ((key, value) :: pre), k, v, post, e1.
        repeat split; [|assumption]. simpl. rewrite Hk, Hone. assumption.
      * intros [= <-]. exists [], key, value, attrs, element.
        repeat split; assumption.
Qed.

(** When the host rejects a pair, [tryToReplace] returns the content as
    it got it: the matched text stays. *)
Lemma tryToReplace_rejected (element e' : option E) (content original : string)
      (attrs : list Attr) :
  apply_attrs element attrs = Thrown e' ->
  tryToReplace element content (Some attrs) original = (e', content).
Proof.
  intros Hthrown. unfold tryToReplace. rewrite Hthrown.
  destruct attrs; [discriminate|reflexivity].
Qed.

(** When every pair is accepted, the first occurrence of the matched text
    is removed. *)
Lemma tryToReplace_accepted (element e' : option E) (content original : string)
      (attrs : list Attr) :
  attrs <> [] ->
  apply_attrs element attrs = Returned e' ->
  tryToReplace element content (Some attrs) original
  = (e', Str.remove_first original content).
Proof.
  intros Hne Hret. unfold tryToReplace. rewrite Hret.
  destruct attrs; [contradiction|reflexivity].
Qed.

(** C10 (amended): a pair whose key is not [class] and whose
    value is empty once the double and single quotes are stripped is set
    as [setAttr(key, true)], which is what a flag pair (value [null]) of
    the same key does, so the two pairs continue the same way; and a pair
    with an empty key is skipped, the loop going on with the next pair. *)
Theorem C10_empty_value_is_flag (e : E) (key v : string) (rest : list Attr) :
  String.eqb key "class" = false ->
  strip_quotes v = EmptyString ->
  set_one (Some e) key (clean_value (Some v)) = on_element (setAttr e key AttrTrue)
  /\ set_one (Some e) key (clean_value None) = on_element (setAttr e key AttrTrue)
  /\ apply_attrs (Some e) ((key, Some v) :: rest)
     = apply_attrs (Some e) ((key, None) :: rest)
  /\ (forall (element : option E) (value : option string),
         apply_attrs element ((EmptyString, value) :: rest)
         = apply_attrs element rest).
Proof.
  intros Hc Hstrip.
  assert (H1 : set_one (Some e) key (clean_value (Some v))
               = on_element (setAttr e key AttrTrue)).
  { unfold set_one, clean_value. rewrite Hc.
    destruct v as [|c v]; simpl; [reflexivity|].
    change (Str.filter _ (String c v)) with (strip_quotes (String c v)).
    rewrite Hstrip. reflexivity. }
  assert (H2 : set_one (Some e) key (clean_value None)
               = on_element (setAttr e key AttrTrue)).
  { unfold set_one, clean_value. rewrite Hc. reflexivity. }
  split; [exact H1|]. split; [exact H2|]. split.
  - cbn [apply_attrs]. rewrite H1, H2. reflexivity.
  - intros element value. reflexivity.
Qed.

End TryToReplaceFacts.

Import Host.

(** The theorem on the key [key] with the value of two double quotes, and
    with the empty value. *)
Lemma C10_empty_value_is_flag_witness :
  set_one (Some Examples.p_elem) "key" (clean_value (Some (Examples.quoted Str.dq "")))
  = on_element (setAttr Examples.p_elem "key" AttrTrue)
  /\ apply_attrs (Some Examples.p_elem) [("key", Some EmptyString)]
     = apply_attrs (Some Examples.p_elem) [("key", None)].
Proof.
  split.
  - apply (C10_empty_value_is_flag Examples.p_elem "key" (Examples.quoted Str.dq "") []);
      reflexivity.
  - apply (C10_empty_value_is_flag Examples.p_elem "key" EmptyString []);
      reflexivity.
Defined.

(** C10 (counterexample): the unit [class=] is a key/value unit with an
    empty value, yet no attribute is set to true: the pair goes to the class
    branch, [addClasses] gets the empty token, the host rejects it, and the
    element is left without any attribute. *)
Lemma C10_class_key_takes_class_branch :
  getAttrs (Some "class=") = Some [("class", Some EmptyString)]
  /\ set_one (Some Examples.p_elem) "class" (clean_value (Some EmptyString))
     = on_element (addClasses Examples.p_elem [EmptyString])
  /\ set_one (Some Examples.p_elem) "class" (clean_value (Some EmptyString))
     <> on_element (setAttr Examples.p_elem "class" AttrTrue)
  /\ tryToReplace (Some Examples.p_elem) "a {class=}" (getAttrs (Some "class="))
                  "{class=}"
     = (Some Examples.p_elem, "a {class=}").
Proof.
  split; [vm_compute; reflexivity|].
  split; [reflexivity|].
  split; [vm_compute; discriminate | vm_compute; reflexivity].
Qed.

(** The example of the specification, with double quotes: the quotes are
    stripped, the space inside the value stays, the flag is set to true,
    and the annotation is removed from the content. *)
Example tryToReplace_double_quoted :
  tryToReplace (Some Examples.p_elem) ("x {" +:+ Examples.dq_units +:+ "}")
               (getAttrs (Some Examples.dq_units))
               ("{" +:+ Examples.dq_units +:+ "}")
  = (Some (Host.with_attrs Examples.p_elem
             [("data-x", "a b"); ("checked", "true")]), "x ").
Proof. vm_compute. reflexivity. Qed.

(** Stripping removes the double and the single quotes and nothing else;
    the back-tick, white space and every other character stay in place. *)
Lemma strip_quotes_cons (c : ascii) (v : string) :
  strip_quotes (String c v)
  = if is_dq_or_sq c then strip_quotes v else String c (strip_quotes v).
Proof. unfold strip_quotes. simpl. destruct (is_dq_or_sq c); reflexivity. Qed.

(** A value without double and single quotes is left as it is. *)
Lemma strip_quotes_keeps (v : string) :
  Str.existsb is_dq_or_sq v = false -> strip_quotes v = v.
Proof.
  induction v as [|c v IH]; [reflexivity|].
  rewrite strip_quotes_cons. simpl.
  destruct (is_dq_or_sq c); simpl; [discriminate|].
  intros Hv. rewrite IH by assumption. reflexivity.
Qed.

(** A value between back-ticks is kept together by the split, but its
    back-ticks are not stripped: they reach the element as part of the
    attribute value.  With a unit before it, the back-tick captured at the
    split point is a token of its own. *)
Example backtick_quotes_are_not_stripped :
  getAttrs (Some Examples.bt_unit)
  = Some [("data-x", Some (Examples.quoted Str.bt "a b"))]
  /\ tryToReplace (Some Examples.p_elem) ("x {" +:+ Examples.bt_unit +:+ "}")
                  (getAttrs (Some Examples.bt_unit))
                  ("{" +:+ Examples.bt_unit +:+ "}")
     = (Some (Host.with_attrs Examples.p_elem
                [("data-x", Examples.quoted Str.bt "a b")]), "x ")
  /\ strip_quotes (Examples.quoted Str.bt "a b") = Examples.quoted Str.bt "a b"
  /\ getAttrs (Some (".c " +:+ Examples.bt_unit))
     = Some [("class", Some "c"); (Str.of_char Str.bt, None);
             ("data-x", Some (Examples.quoted Str.bt "a b"))].
Proof. repeat split; vm_compute; reflexivity. Qed.

(* ===================================================================== *)
(** * recurseAndParseElements *)
(* ===================================================================== *)

(** [test] is true when [exec] finds a match. *)
Lemma test_exec (r : re) (s : string) :
  test r s = true -> exists mr, exec r s = Some mr.
Proof. unfold test. destruct (exec r s); [eauto|discriminate]. Qed.

(** [getAttrs] never returns an empty array. *)
Lemma getAttrs_nonempty (str : option string) (attrs : list Attr) :
  getAttrs str = Some attrs -> attrs <> [].
Proof.
  unfold getAttrs. destruct (trys str) as [|t ts] eqn:Hts; [discriminate|].
  intros [= <-].
  assert (Ht : t <> EmptyString).
  { apply (trys_fragments str). rewrite Hts. left. reflexivity. }
  simpl. destruct t; [contradiction|]. simpl. discriminate.
Qed.

Section WalkFacts.
Context `{ElementHost Props}.
Variable innerHTML : list Node -> string.
Variable setInnerHTML : string -> list Node.

Local Abbreviation recurse := (recurseAndParseElements innerHTML setInnerHTML).
Local Abbreviation bstep := (block_step innerHTML setInnerHTML).

(** The loop on an element that exists ends on an element. *)
Lemma apply_attrs_some (attrs : list Attr) (e : Props) :
  exists e', apply_attrs (Some e) attrs = Returned (Some e')
             \/ apply_attrs (Some e) attrs = Thrown (Some e').
Proof.
  revert e. induction attrs as [|[key value] attrs IH]; intros e; simpl.
  - eauto.
  - destruct (String.length key =? 0)%nat; [apply IH|].
    unfold set_one. destruct (String.eqb key "class").
    + destruct (clean_value value) as [v|]; [|eauto].
      destruct (addClasses e (Str.split_on " " v)); simpl; eauto.
    + destruct (clean_value value) as [[|c v]|];
        match goal with
        | |- context [setAttr ?a ?b ?c] => destruct (setAttr a b c); simpl; eauto
        end.
Qed.

(** [tryToReplace] on an element that exists leaves an element. *)
Lemma tryToReplace_some (e : Props) (content original : string)
      (attrs : option (list Attr)) :
  exists e' content',
    tryToReplace (Some e) content attrs original = (Some e', content').
Proof.
  unfold tryToReplace. destruct attrs as [[|a l]|]; eauto.
  destruct (apply_attrs_some (a :: l) e) as [e' [-> | ->]]; eauto.
Qed.

(** The four ways through the body of the walk. *)
Lemma recurse_block_li (fuel : nat) (ancs : list Props) (p : Props)
      (cs : list Node) :
  test BLOCK_RE (getTopLevelText cs) = true ->
  is_li p = true ->
  recurse (S fuel) ancs p cs =
  let '(ancs1, p1, cs1, toAdd) := bstep ancs p cs in
  match recurse fuel ancs1 p1 cs1 with
  | Ok (ancs2, p2, cs2, bs) =>
      children_loop (recurse fuel) ancs2 p2 [] cs2 (toAdd :: bs)
  | TypeError => TypeError
  | StackOverflow => StackOverflow
  end.
Proof.
  intros Ht Hli. cbn [recurseAndParseElements]. rewrite Ht.
  destruct (bstep ancs p cs) as [[[a1 p1] c1] t]. rewrite Hli.
  destruct (recurse fuel a1 p1 c1) as [[[[? ?] ?] ?]| |]; reflexivity.
Qed.

Lemma recurse_block_other (fuel : nat) (ancs : list Props) (p : Props)
      (cs : list Node) :
  test BLOCK_RE (getTopLevelText cs) = true ->
  is_li p = false ->
  recurse (S fuel) ancs p cs =
  let '(ancs1, p1, cs1, toAdd) := bstep ancs p cs in
  children_loop (recurse fuel) ancs1 p1 [] cs1 [toAdd].
Proof.
  intros Ht Hli. cbn [recurseAndParseElements]. rewrite Ht.
  destruct (bstep ancs p cs) as [[[a1 p1] c1] t]. rewrite Hli. reflexivity.
Qed.

Lemma recurse_inline (fuel : nat) (ancs : list Props) (p : Props)
      (cs : list Node) :
  test BLOCK_RE (getTopLevelText cs) = false ->
  test BASE_RE (getTopLevelText cs) = true ->
  recurse (S fuel) ancs p cs =
  match inline_step ancs p cs with
  | Ok (ancs1, p1, cs1, toAdd) =>
      children_loop (recurse fuel) ancs1 p1 [] cs1 [toAdd]
  | TypeError => TypeError
  | StackOverflow => StackOverflow
  end.
Proof.
  intros Hb Hi. cbn [recurseAndParseElements]. rewrite Hb, Hi.
  destruct (inline_step ancs p cs) as [[[[? ?] ?] ?]| |]; reflexivity.
Qed.

Lemma recurse_plain (fuel : nat) (ancs : list Props) (p : Props)
      (cs : list Node) :
  test BLOCK_RE (getTopLevelText cs) = false ->
  test BASE_RE (getTopLevelText cs) = false ->
  recurse (S fuel) ancs p cs = children_loop (recurse fuel) ancs p [] cs [].
Proof.
  intros Hb Hi. cbn [recurseAndParseElements]. rewrite Hb, Hi. reflexivity.
Qed.

(** The loop hands a child that is an HTML element and is not opaque to
    the recursion. *)
Lemma children_loop_visit (rec : list Props -> Props -> list Node -> Run Walk)
      (ancs : list Props) (p q : Props) (kids done rest : list Node)
      (found : list Binding) :
  is_html q = true ->
  opaque q = false ->
  children_loop rec ancs p done (Element q kids :: rest) found =
  match rec (p :: ancs) q kids with
  | Ok (up, q', kids', bs) =>
      children_loop rec (tl up) (hd p up) (done ++ [Element q' kids']) rest
                    (found ++ bs)
  | TypeError => TypeError
  | StackOverflow => StackOverflow
  end.
Proof. intros Hh Ho. cbn [children_loop]. rewrite Hh, Ho. reflexivity. Qed.

(** A list item that the block step leaves as it found it is walked again
    and again: the walk ends in a stack overflow whatever the depth. *)
Lemma unchanged_list_item_overflows (ancs : list Props) (p : Props)
      (cs : list Node) (toAdd : Binding) :
  test BLOCK_RE (getTopLevelText cs) = true ->
  is_li p = true ->
  bstep ancs p cs = (ancs, p, cs, toAdd) ->
  forall fuel, recurse fuel ancs p cs = StackOverflow.
Proof.
  intros Ht Hli Hstep fuel. induction fuel as [|fuel IH]; [reflexivity|].
  rewrite (recurse_block_li _ _ _ _ Ht Hli), Hstep, IH. reflexivity.
Qed.

(** When the own text of an element ends in a block annotation and the
    element is a list item, or its parent is a quote, or it has the class
    callout, the binding names the parent, the attributes are applied to
    the parent and the element keeps its own properties; the content of
    the element is set to what [tryToReplace] returns, which is the
    content without the matched text when the host accepted every
    attribute; and for a list item the walk runs again on the element as
    the block step left it, its bindings following the block binding,
    before the children are looped over. *)
Lemma block_annotation_goes_to_parent
        (fuel : nat) (parent : Props) (ancs : list Props) (p : Props)
        (cs : list Node) :
  test BLOCK_RE (getTopLevelText cs) = true ->
  is_li p || is_quote parent || hasClass "callout" p = true ->
  exists mr parent' content,
    exec BLOCK_RE (getTopLevelText cs) = Some mr
    /\ tryToReplace (Some parent) (innerHTML cs) (getAttrs (group1 mr))
                    (matched mr) = (Some parent', content)
    /\ bstep (parent :: ancs) p cs
       = (parent' :: ancs, p, setInnerHTML content,
          mkEWA (Some (Ancestor 0)) (getAttrs (group1 mr)) (group1 mr))
    /\ (forall attrs e',
           getAttrs (group1 mr) = Some attrs ->
           apply_attrs (Some parent) attrs = Returned e' ->
           content = Str.remove_first (matched mr) (innerHTML cs))
    /\ (is_li p = true ->
        recurse (S fuel) (parent :: ancs) p cs =
        match recurse fuel (parent' :: ancs) p (setInnerHTML content) with
        | Ok (ancs2, p2, cs2, bs) =>
            children_loop (recurse fuel) ancs2 p2 [] cs2
              (mkEWA (Some (Ancestor 0)) (getAttrs (group1 mr)) (group1 mr)
                 :: bs)
        | TypeError => TypeError
        | StackOverflow => StackOverflow
        end).
Proof.
  intros Ht Hcond.
  destruct (test_exec _ _ Ht) as [mr Hmr].
  destruct (tryToReplace_some parent (innerHTML cs) (matched mr)
              (getAttrs (group1 mr))) as (parent' & content & Htry).
  exists mr, parent', content.
  assert (Hstep : bstep (parent :: ancs) p cs
                  = (parent' :: ancs, p, setInnerHTML content,
                     mkEWA (Some (Ancestor 0)) (getAttrs (group1 mr))
                           (group1 mr))).
  { unfold block_step, block_target, match_parts. rewrite Hmr, Hcond. simpl.
    rewrite Htry. reflexivity. }
  split; [exact Hmr|]. split; [exact Htry|]. split; [exact Hstep|]. split.
  - intros attrs e' Hattrs Hret.
    rewrite Hattrs in Htry.
    rewrite (tryToReplace_accepted _ _ _ _ _ (getAttrs_nonempty _ _ Hattrs) Hret)
      in Htry.
    injection Htry as _ <-. reflexivity.
  - intros Hli. rewrite (recurse_block_li _ _ _ _ Ht Hli), Hstep. reflexivity.
Qed.

(** Storing back the properties read from the target of a block annotation
    changes nothing. *)
Lemma store_target_same (ancs : list Props) (p : Props) (cs : list Node) :
  store_target ancs p cs (block_target ancs p)
               (lookup_target ancs p cs (block_target ancs p))
  = (ancs, p, cs).
Proof.
  unfold block_target.
  destruct (is_li p || match ancs with parent :: _ => is_quote parent | [] => false end
            || hasClass "callout" p); [|reflexivity].
  destruct ancs as [|parent rest]; reflexivity.
Qed.

(** A list item whose block annotation gives no attribute, and whose
    contents are read back as they were written: the block step leaves the
    tree as it was, and the walk runs again on the same list item whatever
    the depth the call stack allows. *)
Lemma list_item_without_attributes_overflows
      (ancs : list Props) (p : Props) (cs : list Node) :
  test BLOCK_RE (getTopLevelText cs) = true ->
  is_li p = true ->
  getAttrs (match_parts BLOCK_RE (getTopLevelText cs)).2 = None ->
  setInnerHTML (innerHTML cs) = cs ->
  forall fuel, recurse fuel ancs p cs = StackOverflow.
Proof.
  intros Ht Hli Hnone Hround.
  apply (unchanged_list_item_overflows _ _ _
           (mkEWA (Some (block_target ancs p)) None
                  (match_parts BLOCK_RE (getTopLevelText cs)).2) Ht Hli).
  unfold block_step.
  destruct (match_parts BLOCK_RE (getTopLevelText cs)) as [original attribute_string].
  simpl in Hnone. cbn [attributes]. rewrite Hnone. cbn [tryToReplace].
  rewrite store_target_same, Hround. reflexivity.
Qed.

End WalkFacts.

(** A list item with an inline and a block annotation whose attributes the
    host accepts: the class of the block annotation goes to the list, the
    annotation is stripped, and the walk that runs again on the item finds
    the inline annotation. *)
Example annotated_item_is_walked_again :
  Host.walk 3 [Examples.ul_elem] Examples.li_elem Examples.annotated_item
  = Ok ([Host.with_classes Examples.ul_elem ["x"]],
        Host.with_classes Examples.li_elem ["y"],
        [Text "Item "],
        [mkEWA (Some (Ancestor 0)) (Some [("class", Some "x")]) (Some ".x");
         mkEWA (Some Self) (Some [("class", Some "y")]) (Some ".y")]).
Proof. vm_compute. reflexivity. Qed.

(** The list item of [Examples.rejected_item]: the host rejects the
    attribute name, the content is set back as it was, and the walk runs
    again on the same list item, whatever the depth the call stack allows. *)
Lemma rejected_item_reruns (fuel : nat) :
  Host.walk fuel [Examples.ul_elem] Examples.li_elem
            [Text (Examples.lines "Item" "{: a/b}")]
  = StackOverflow.
Proof.
  unfold Host.walk.
  apply (unchanged_list_item_overflows _ _ _ _ _
           (mkEWA (Some (Ancestor 0)) (Some [("a/b", None)]) (Some "a/b")));
    vm_compute; reflexivity.
Qed.

(** C2 (the code at the failing input): a list item whose block annotation
    holds an attribute name the host rejects.  [tryToReplace] returns the
    content as it was, with the element untouched, but the walk over the
    list does not go on to anything else: for every depth of the call stack
    it ends in a stack overflow. *)
Theorem C2_rejected_block_annotation_on_list_item_overflows :
  tryToReplace (Some Examples.ul_elem) (Examples.lines "Item" "{: a/b}")
               (getAttrs (Some "a/b")) (String Str.nl "{: a/b}")
  = (Some Examples.ul_elem, Examples.lines "Item" "{: a/b}")
  /\ forall fuel : nat,
      Host.walk fuel [] Examples.ul_elem Examples.rejected_item = StackOverflow.
Proof.
  split; [vm_compute; reflexivity|].
  intros [|fuel]; [reflexivity|].
  unfold Host.walk. rewrite recurse_plain by (vm_compute; reflexivity).
  unfold Examples.rejected_item.
  rewrite children_loop_visit by reflexivity.
  change (recurseAndParseElements Host.plain_innerHTML Host.plain_setInnerHTML fuel)
    with (Host.walk fuel).
  rewrite rejected_item_reruns. reflexivity.
Qed.

(** The list item of [Cases.lone_quote_item]: no attribute is read from the
    capture, the content is set back as it was, and the walk runs again on
    the same list item, whatever the depth the call stack allows. *)
Lemma lone_quote_item_reruns (fuel : nat) :
  Host.walk fuel [Examples.ul_elem] Examples.li_elem Cases.lone_quote_item
  = StackOverflow.
Proof.
  unfold Host.walk.
  apply list_item_without_attributes_overflows; vm_compute; reflexivity.
Qed.

(** C3 (the code at the failing input): a list item, in its list, with an
    inline annotation and a block annotation whose capture is a double
    quote alone.  The block annotation is found and its target is the list,
    as the claim says; but [getAttrs] reads no attribute from the capture,
    so [tryToReplace] strips nothing, the block step leaves the item as it
    was, and the walk that runs again on the item meets the same block
    annotation: for every depth of the call stack the walk over the list
    ends in a stack overflow, and the inline annotation of the item is
    never reached. *)
Theorem C3_list_item_with_unstripped_block_annotation_overflows :
  test BLOCK_RE (getTopLevelText Cases.lone_quote_item) = true
  /\ test BASE_RE (getTopLevelText Cases.lone_quote_item) = true
  /\ block_target [Examples.ul_elem] Examples.li_elem = Ancestor 0
  /\ getAttrs (Some (Str.of_char Str.dq)) = None
  /\ block_step Host.plain_innerHTML Host.plain_setInnerHTML
       [Examples.ul_elem] Examples.li_elem Cases.lone_quote_item
     = ([Examples.ul_elem], Examples.li_elem, Cases.lone_quote_item,
        mkEWA (Some (Ancestor 0)) None (Some (Str.of_char Str.dq)))
  /\ forall fuel : nat,
      Host.walk fuel [] Examples.ul_elem
                [Element Examples.li_elem Cases.lone_quote_item]
      = StackOverflow.
Proof.
  split; [vm_compute; reflexivity|].
  split; [vm_compute; reflexivity|].
  split; [reflexivity|].
  split; [vm_compute; reflexivity|].
  split; [vm_compute; reflexivity|].
  intros [|fuel]; [reflexivity|].
  unfold Host.walk. rewrite recurse_plain by (vm_compute; reflexivity).
  rewrite children_loop_visit by reflexivity.
  change (recurseAndParseElements Host.plain_innerHTML Host.plain_setInnerHTML fuel)
    with (Host.walk fuel).
  rewrite lone_quote_item_reruns. reflexivity.
Qed.

(** The same annotation at the end of a paragraph: the content stays, and
    the walk goes on to the next paragraph. *)
Example rejected_annotation_on_paragraph :
  Host.walk 2 [] Examples.ul_elem
            [Element Examples.p_elem [Text (Examples.lines "Item" "{: a/b}")];
             Element Examples.p_elem [Text "x {.k}"]]
  = Ok ([], Examples.ul_elem,
        [Element Examples.p_elem [Text (Examples.lines "Item" "{: a/b}")];
         Element (Host.with_classes Examples.p_elem ["k"]) [Text "x "]],
        [mkEWA (Some Self) (Some [("a/b", None)]) (Some "a/b");
         mkEWA (Some Self) (Some [("class", Some "k")]) (Some ".k")]).
Proof. vm_compute. reflexivity. Qed.

(* ===================================================================== *)
(** * Opaque elements *)
(* ===================================================================== *)

(** The index [first_text] returns is that of a text node with that data. *)
Lemma first_text_lookup (cs : list Node) (n i : nat) (data : string) :
  first_text cs n = Some (i, data) ->
  exists j, i = (n + j)%nat /\ cs !! j = Some (Text data).
Proof.
  revert n. induction cs as [|[d|q kids] cs IH]; intros n; simpl.
  - discriminate.
  - intros [= <- <-]. exists 0%nat. split; [lia|reflexivity].
  - intros Hf. destruct (IH _ Hf) as (j & -> & Hj).
    exists (S j). split; [lia|exact Hj].
Qed.

(** Storing the properties of a target leaves the child nodes of every
    child element as they were. *)
Lemma store_target_keeps_kids (ancs : list Props) (p : Props) (cs : list Node)
      (t : Target) (e : option Props) (i : nat) (q : Props) (kids : list Node) :
  cs !! i = Some (Element q kids) ->
  exists q', (store_target ancs p cs t e).2 !! i = Some (Element q' kids).
Proof.
  intros Hi. unfold store_target.
  destruct e as [e'|]; [|destruct t; simpl; eauto].
  destruct t as [|j|d|]; simpl; eauto.
  destruct (cs !! j) as [[d|qj kj]|] eqn:Hj; simpl; eauto.
  destruct (decide (i = j)) as [->|Hne].
  - rewrite Hj in Hi. injection Hi as -> ->.
    rewrite list_lookup_insert_eq by (eapply lookup_lt_Some; eassumption). eauto.
  - rewrite list_lookup_insert_ne by congruence. eauto.
Qed.

Section OpaqueFacts.
Context `{ElementHost Props}.
Variable innerHTML : list Node -> string.
Variable setInnerHTML : string -> list Node.

(** The loop calls the recursion on no child that is opaque or is not an
    HTML element: what the recursion would do there does not matter. *)
Lemma children_loop_ext (rec rec' : list Props -> Props -> list Node -> Run Walk) :
  (forall a q kids, is_html q = true -> opaque q = false ->
                    rec a q kids = rec' a q kids) ->
  forall todo ancs p done found,
    children_loop rec ancs p done todo found
    = children_loop rec' ancs p done todo found.
Proof.
  intros Hext. induction todo as [|[d|q kids] rest IH]; intros ancs p done found;
    cbn [children_loop]; [reflexivity | apply IH |].
  destruct (is_html q) eqn:Hh; simpl; [|apply IH].
  destruct (opaque q) eqn:Ho; [apply IH|].
  rewrite Hext by assumption.
  destruct (rec' (p :: ancs) q kids) as [[[[up q'] kids'] bs]| |];
    [apply IH | reflexivity | reflexivity].
Qed.

(** The loop returns the children at their places, and every opaque child
    exactly as it was. *)
Lemma children_loop_frame (rec : list Props -> Props -> list Node -> Run Walk) :
  forall todo ancs p done found ancs' p' cs' bs,
    children_loop rec ancs p done todo found = Ok (ancs', p', cs', bs) ->
    exists todo',
      cs' = done ++ todo'
      /\ length todo' = length todo
      /\ forall i q kids,
          todo !! i = Some (Element q kids) -> opaque q = true ->
          todo' !! i = Some (Element q kids).
Proof.
  induction todo as [|[d|q kids] rest IH]; intros ancs p done found ancs' p' cs' bs;
    cbn [children_loop].
  - intros [= _ _ <- _]. exists []. rewrite app_nil_r.
    repeat split. intros i q kids Hi. discriminate.
  - intros Hloop. destruct (IH _ _ _ _ _ _ _ _ Hloop) as (todo' & -> & Hlen & Hfr).
    exists (Text d :: todo'). rewrite <- app_assoc. simpl.
    repeat split; [congruence|].
    intros [|i] q kids Hi Ho; [discriminate|]. simpl in *. eauto.
  - assert (Hskip : forall ancs p found,
               children_loop rec ancs p (done ++ [Element q kids]) rest found
               = Ok (ancs', p', cs', bs) ->
               exists todo',
                 cs' = done ++ todo'
                 /\ length todo' = length (Element q kids :: rest)
                 /\ forall i q0 kids0,
                     (Element q kids :: rest) !! i = Some (Element q0 kids0) ->
                     opaque q0 = true -> todo' !! i = Some (Element q0 kids0)).
    { intros a0 p0 f0 Hloop.
      destruct (IH _ _ _ _ _ _ _ _ Hloop) as (todo' & -> & Hlen & Hfr).
      exists (Element q kids :: todo'). rewrite <- app_assoc. simpl.
      repeat split; [congruence|].
      intros [|i] q0 kids0 Hi Ho; simpl in *; [assumption|eauto]. }
    destruct (is_html q) eqn:Hh; simpl; [|apply Hskip].
    destruct (opaque q) eqn:Ho; [apply Hskip|].
    destruct (rec (p :: ancs) q kids) as [[[[up q'] kids'] bs0]| |];
      [|discriminate|discriminate].
    intros Hloop. destruct (IH _ _ _ _ _ _ _ _ Hloop) as (todo' & -> & Hlen & Hfr).
    exists (Element q' kids' :: todo'). rewrite <- app_assoc. simpl.
    repeat split; [congruence|].
    intros [|i] q0 kids0 Hi Ho0; simpl in *; [|eauto].
    injection Hi as -> ->. congruence.
Qed.

(** The inline branch leaves the child nodes of every child element as they
    were: it writes the first text node and the properties of its target. *)
Lemma inline_step_frame (ancs : list Props) (p : Props) (cs : list Node)
      (ancs1 : list Props) (p1 : Props) (cs1 : list Node) (toAdd : Binding) :
  inline_step ancs p cs = Ok (ancs1, p1, cs1, toAdd) ->
  forall i q kids,
    cs !! i = Some (Element q kids) ->
    exists q', cs1 !! i = Some (Element q' kids).
Proof.
  unfold inline_step.
  destruct (first_text cs 0) as [[i0 data]|] eqn:Hft; [|discriminate].
  destruct (first_text_lookup _ _ _ _ Hft) as (j & -> & Hj). simpl in *.
  destruct (match_parts BASE_RE (getTopLevelText cs)) as [original attribute_string].
  destruct (tryToReplace _ _ _ _) as [e' content].
  intros Hok i q kids Hi.
  destruct (store_target_keeps_kids ancs p cs (inline_target ancs p cs j) e'
              i q kids Hi) as [q' Hq'].
  destruct (store_target ancs p cs (inline_target ancs p cs j) e')
    as [[a2 p2] cs2]. simpl in Hq'.
  injection Hok as _ _ <- _.
  exists q'. rewrite list_lookup_insert_ne; [assumption|].
  intros ->. congruence.
Qed.

(** C4 (amended): below the element the walk is started on, an opaque
    element (a pre element, or an element with the tag name code) is never
    handed to the recursion, the loop over the children returns it exactly
    as it was, and the inline branch on its parent leaves its child nodes as
    they were; in the editor, a syntax node with the class hmd-codeblock
    gives no token. *)
Theorem C4_opaque_children_are_skipped :
  (forall (rec rec' : list Props -> Props -> list Node -> Run Walk),
      (forall a q kids, is_html q = true -> opaque q = false ->
                        rec a q kids = rec' a q kids) ->
      forall todo ancs p done found,
        children_loop rec ancs p done todo found
        = children_loop rec' ancs p done todo found)
  /\ (forall fuel ancs p cs found ancs' p' cs' bs,
         children_loop (recurseAndParseElements innerHTML setInnerHTML fuel)
                       ancs p [] cs found = Ok (ancs', p', cs', bs) ->
         length cs' = length cs
         /\ forall i q kids,
             cs !! i = Some (Element q kids) -> opaque q = true ->
             cs' !! i = Some (Element q kids))
  /\ (forall ancs p cs ancs1 p1 cs1 toAdd,
         inline_step ancs p cs = Ok (ancs1, p1, cs1, toAdd) ->
         forall i q kids,
           cs !! i = Some (Element q kids) ->
           exists q', cs1 !! i = Some (Element q' kids))
  /\ (forall (compile : string -> option re) (doc : string) (n : SyntaxNode)
             (rest : list SyntaxNode) (props : string),
         tokenProps n = Some props ->
         List.existsb (String.eqb "hmd-codeblock") (Str.split_on " " props) = true ->
         enter compile doc n = Some []
         /\ build compile doc (n :: rest) = build compile doc rest).
Proof.
  split; [exact children_loop_ext|].
  split.
  { intros fuel ancs p cs found ancs' p' cs' bs Hloop.
    destruct (children_loop_frame _ _ _ _ _ _ _ _ _ _ Hloop) as (todo' & -> & Hlen & Hfr).
    simpl. split; [exact Hlen | exact Hfr]. }
  split; [exact inline_step_frame|].
  intros compile doc n rest props Hprops Hcode.
  assert (Henter : enter compile doc n = Some []).
  { unfold enter. rewrite Hprops. destruct props; [reflexivity|].
    rewrite Hcode. reflexivity. }
  split; [exact Henter|].
  cbn [build]. rewrite Henter. destruct (build compile doc rest); reflexivity.
Qed.

End OpaqueFacts.

(** The theorem on a paragraph with a code child and a pre child that hold
    annotation text, and on a syntax node of a code block. *)
Lemma C4_opaque_children_are_skipped_witness :
  children_loop (Host.walk 2) [] (Host.with_classes Examples.p_elem ["note"]) []
                [Text "Hello "; Element Examples.code_elem [Text "x {.y}"];
                 Element Examples.pre_elem [Text "{.z}"]] []
  = Ok ([], Host.with_classes Examples.p_elem ["note"],
        [Text "Hello "; Element Examples.code_elem [Text "x {.y}"];
         Element Examples.pre_elem [Text "{.z}"]], [])
  /\ [Text "Hello "; Element Examples.code_elem [Text "x {.y}"];
      Element Examples.pre_elem [Text "{.z}"]] !! 1%nat
     = Some (Element Examples.code_elem [Text "x {.y}"])
  /\ enter (fun _ => None) "x {.y}" (mkNode (Some "hmd-codeblock line") 0 6)
     = Some [].
Proof.
  destruct (C4_opaque_children_are_skipped Host.plain_innerHTML Host.plain_setInnerHTML)
    as (_ & Hloop & _ & Henter).
  assert (Hrun :
    children_loop (Host.walk 2) [] (Host.with_classes Examples.p_elem ["note"]) []
                  [Text "Hello "; Element Examples.code_elem [Text "x {.y}"];
                   Element Examples.pre_elem [Text "{.z}"]] []
    = Ok ([], Host.with_classes Examples.p_elem ["note"],
          [Text "Hello "; Element Examples.code_elem [Text "x {.y}"];
           Element Examples.pre_elem [Text "{.z}"]], []))
    by (vm_compute; reflexivity).
  split; [exact Hrun|]. split.
  - exact (proj2 (Hloop 2%nat _ _ _ _ _ _ _ _ Hrun) 1%nat Examples.code_elem
                 [Text "x {.y}"] eq_refl eq_refl).
  - exact (proj1 (Henter (fun _ => None) "x {.y}"
                         (mkNode (Some "hmd-codeblock line") 0 6) []
                         "hmd-codeblock line" eq_refl eq_refl)).
Defined.

(** C4 (counterexample): a pre element the walk is started on is scanned:
    the annotation in its own text is parsed and applied to it, and its
    text node is rewritten.  This is how the post processor gets the
    attributes of a code block applied. *)
Lemma C4_root_pre_is_scanned :
  opaque Examples.pre_elem = true
  /\ Host.walk 2 [] Examples.pre_elem Examples.fenced
     = Ok ([], Host.with_classes Examples.pre_elem ["note"],
           [Text EmptyString; Element Examples.code_elem [Text "x {.y}"]],
           [mkEWA (Some Self) (Some [("class", Some "note")]) (Some ".note")]).
Proof. split; vm_compute; reflexivity. Qed.

(* ===================================================================== *)
(** * rangesInclude and the state field *)
(* ===================================================================== *)

(** C6: [rangesInclude] is true exactly when some range starts inside
    [from, to], or ends inside it, or strictly contains it, both ends of the
    span counted as inside; so a range that starts at [from] or ends at [to]
    is included. *)
Theorem C6_rangesInclude_spec (ranges : list SelectionRange) (from to : Z) :
  (rangesInclude ranges from to = true <->
   exists r, In r ranges
             /\ ((from <= sel_from r <= to)%Z
                 \/ (from <= sel_to r <= to)%Z
                 \/ (sel_from r < from /\ to < sel_to r)%Z))
  /\ ((from <= to)%Z ->
      forall r, In r ranges -> sel_from r = from \/ sel_to r = to ->
                rangesInclude ranges from to = true).
Proof.
  assert (Hiff : rangesInclude ranges from to = true <->
                 exists r, In r ranges
                           /\ ((from <= sel_from r <= to)%Z
                               \/ (from <= sel_to r <= to)%Z
                               \/ (sel_from r < from /\ to < sel_to r)%Z)).
  { induction ranges as [|range rest IH]; simpl.
    - split; [discriminate | intros (r & [] & _)].
    - destruct ((sel_from range >=? from)%Z && (sel_from range <=? to)%Z) eqn:H1.
      { split; [intros _|reflexivity]. exists range. split; [left; reflexivity|]. lia. }
      destruct ((sel_to range >=? from)%Z && (sel_to range <=? to)%Z) eqn:H2.
      { split; [intros _|reflexivity]. exists range. split; [left; reflexivity|]. lia. }
      destruct ((sel_from range <? from)%Z && (sel_to range >? to)%Z) eqn:H3.
      { split; [intros _|reflexivity]. exists range. split; [left; reflexivity|]. lia. }
      rewrite IH. split.
      + intros (r & Hr & Hcase). exists r. split; [right; exact Hr | exact Hcase].
      + intros (r & [<- | Hr] & Hcase); [lia|]. exists r. split; assumption. }
  split; [exact Hiff|].
  intros Hle r Hr Hedge. apply Hiff. exists r. split; [exact Hr|]. lia.
Qed.

(** A caret at the start and a caret at the end of the span [3, 10]. *)
Lemma C6_rangesInclude_spec_witness :
  rangesInclude [mkSel 3 3] 3 10 = true /\ rangesInclude [mkSel 10 10] 3 10 = true.
Proof.
  split.
  - apply (proj2 (C6_rangesInclude_spec [mkSel 3 3] 3 10) ltac:(lia) (mkSel 3 3));
      [left; reflexivity | left; reflexivity].
  - apply (proj2 (C6_rangesInclude_spec [mkSel 10 10] 3 10) ltac:(lia) (mkSel 10 10));
      [left; reflexivity | right; reflexivity].
Defined.

(** What the filter keeps: the ranges it says yes to, in their order. *)
Lemma filter_set_spec (sel : list SelectionRange) (v committed : DecorationSet) :
  filter_set sel v = Some committed ->
  forall r, In r committed <-> In r v /\ keeps sel r = Some true.
Proof.
  revert committed. induction v as [|x v IH]; simpl; intros committed.
  - intros [= <-] r. simpl. tauto.
  - destruct (keeps sel x) as [b|] eqn:Hx; [|discriminate].
    destruct (filter_set sel v) as [rest'|]; [|discriminate].
    intros [= <-] r. specialize (IH _ eq_refl r).
    destruct b; simpl; rewrite ?IH; split.
    + intros [<- | [? ?]]; auto.
    + intros [[<- | ?] ?]; auto.
    + intros [? ?]; auto.
    + intros [[<- | ?] Hk]; [congruence | auto].
Qed.

(** The filter returns when every decoration of the set has an anchor. *)
Lemma filter_set_total (sel : list SelectionRange) (v : DecorationSet) :
  (forall r, In r v -> exists b loc, spec (range_value r) = ReplaceSpec b loc) ->
  exists committed, filter_set sel v = Some committed.
Proof.
  induction v as [|x v IH]; simpl; intros Hall; [eauto|].
  destruct (Hall x (or_introl eq_refl)) as (b & [from to] & Hx).
  unfold keeps at 1. rewrite Hx.
  destruct IH as [rest' ->]; [intros r Hr; apply Hall; right; exact Hr|].
  eauto.
Qed.

(** C5 (amended): after a transaction that carries the result of a rebuild
    (the update effect and then the replace effect, as [updateDecos]
    dispatches them), the field holds the replace decorations of the
    rebuild whose anchor does not meet the new selection, and no other: no
    committed entry has an anchor that [rangesInclude] finds in the
    selection.  A caret inside the anchor, its ends included, takes the
    entry away; a caret outside an anchor whose start is not after its end
    leaves the entry of the rebuild in.  The update returns when every decoration of the replace effect has
    an anchor. *)
Theorem C5_rebuild_transaction_filters_by_selection
        {ChangeSet : Type} (mapSet : ChangeSet -> DecorationSet -> DecorationSet)
        (deco : DecorationSet) (tr : Transaction ChangeSet)
        (mark value : DecorationSet) :
  effects tr = [UpdateEffect mark; ReplaceEffect value] ->
  field_update mapSet deco tr = filter_set (newSelection tr) value
  /\ ((forall r, In r value ->
                 exists b loc, spec (range_value r) = ReplaceSpec b loc) ->
      exists committed, field_update mapSet deco tr = Some committed)
  /\ forall committed,
      field_update mapSet deco tr = Some committed ->
      forall r b from to,
        spec (range_value r) = ReplaceSpec b (from, to) ->
        (In r committed <->
         In r value /\ rangesInclude (newSelection tr) from to = false)
        /\ (forall c, newSelection tr = [mkSel c c] -> (from <= c <= to)%Z ->
                      ~ In r committed)
        /\ (forall c, newSelection tr = [mkSel c c] -> (from <= to)%Z ->
                      (c < from \/ to < c)%Z ->
                      In r value -> In r committed).
Proof.
  intros Heff.
  assert (Hfield : field_update mapSet deco tr = filter_set (newSelection tr) value).
  { unfold field_update. rewrite Heff. reflexivity. }
  split; [exact Hfield|]. split.
  { intros Hall. rewrite Hfield. apply filter_set_total. exact Hall. }
  intros committed Hc r b from to Hspec. rewrite Hfield in Hc.
  assert (Hin : In r committed <->
                In r value /\ rangesInclude (newSelection tr) from to = false).
  { rewrite (filter_set_spec _ _ _ Hc r). unfold keeps. rewrite Hspec.
    destruct (rangesInclude (newSelection tr) from to); simpl;
      split; intros [? ?]; split; congruence. }
  split; [exact Hin|]. split.
  - intros c Hsel Hc' Hr. apply Hin in Hr. destruct Hr as [_ Hr].
    rewrite Hsel in Hr. simpl in Hr. rewrite Z.geb_leb in Hr.
    destruct (Z.leb_spec from c); destruct (Z.leb_spec c to); simpl in Hr;
      try discriminate; lia.
  - intros c Hsel Hle Hc' Hr. apply Hin. split; [exact Hr|].
    rewrite Hsel. simpl. rewrite Z.geb_leb, Z.gtb_ltb.
    destruct (Z.leb_spec from c); destruct (Z.leb_spec c to);
      destruct (Z.ltb_spec c from); destruct (Z.ltb_spec to c); simpl;
        try reflexivity; lia.
Qed.

(** A rebuild with the caret at 5, inside the anchor [3, 10], and a rebuild
    with the caret at 11, outside it. *)
Lemma C5_rebuild_transaction_filters_by_selection_witness :
  field_update (fun (_ : unit) d => d) [Examples.hidden]
               (mkTr tt [UpdateEffect []; ReplaceEffect [Examples.hidden]]
                     (Examples.caret 5))
  = Some []
  /\ field_update (fun (_ : unit) d => d) []
                  (mkTr tt [UpdateEffect []; ReplaceEffect [Examples.hidden]]
                        (Examples.caret 11))
     = Some [Examples.hidden].
Proof.
  split.
  - rewrite (proj1 (C5_rebuild_transaction_filters_by_selection
                      (fun (_ : unit) d => d) [Examples.hidden]
                      (mkTr tt [UpdateEffect []; ReplaceEffect [Examples.hidden]]
                            (Examples.caret 5))
                      [] [Examples.hidden] eq_refl)).
    reflexivity.
  - rewrite (proj1 (C5_rebuild_transaction_filters_by_selection
                      (fun (_ : unit) d => d) []
                      (mkTr tt [UpdateEffect []; ReplaceEffect [Examples.hidden]]
                            (Examples.caret 11))
                      [] [Examples.hidden] eq_refl)).
    reflexivity.
Defined.

(** C5 (counterexample): a transaction that only moves the caret to 5, with
    no change and no effect, leaves the entry anchored at [3, 10] in the
    field, although the new selection is inside its anchor. *)
Lemma C5_selection_only_transaction_keeps_entry :
  field_update (fun (_ : unit) d => d) [Examples.hidden]
               (mkTr tt [] (Examples.caret 5))
  = Some [Examples.hidden]
  /\ spec (range_value Examples.hidden) = ReplaceSpec true (3, 10)%Z
  /\ rangesInclude (Examples.caret 5) 3 10 = true.
Proof. repeat split. Qed.

(* ===================================================================== *)
(** * The decoration cache *)
(* ===================================================================== *)

(** A cached value is handed out as it is: no allocation, no write. *)
Lemma decoration_for_cached (mgr : Manager) (t : TokenSpec) (deco : Decoration) :
  decoCache mgr !! token_value t = Some deco ->
  decoration_for mgr t = (mgr, Some deco).
Proof. intros Hc. unfold decoration_for. rewrite Hc. reflexivity. Qed.

(** A turn that throws leaves the manager alone: the value was not cached
    and its decoration cannot be built. *)
Lemma decoration_for_throws (mgr mgr' : Manager) (t : TokenSpec) :
  decoration_for mgr t = (mgr', None) ->
  mgr' = mgr /\ decoCache mgr !! token_value t = None /\ spec_of t = None.
Proof.
  unfold decoration_for.
  destruct (decoCache mgr !! token_value t) eqn:Hc; [discriminate|].
  destruct (spec_of t); [discriminate|].
  intros [= <-]. auto.
Qed.

(** A turn that returns leaves its decoration in the cache under the value
    of the token, and keeps what the cache held. *)
Lemma decoration_for_caches (mgr mgr' : Manager) (t : TokenSpec) (deco : Decoration) :
  decoration_for mgr t = (mgr', Some deco) ->
  decoCache mgr' !! token_value t = Some deco
  /\ decoCache mgr ⊆ decoCache mgr'.
Proof.
  unfold decoration_for.
  destruct (decoCache mgr !! token_value t) as [d|] eqn:Hc.
  - intros [= <- <-]. auto.
  - destruct (spec_of t) as [sp|]; [|discriminate].
    intros [= <- <-]. simpl. split.
    + apply lookup_insert_eq.
    + apply insert_subseteq. exact Hc.
Qed.

(** The loop only adds to the cache. *)
Lemma compute_loop_grows (tokens : list TokenSpec) (mgr : Manager) :
  decoCache mgr ⊆ decoCache (compute_loop mgr tokens).1.
Proof.
  revert mgr. induction tokens as [|t rest IH]; intros mgr; simpl; [reflexivity|].
  destruct (decoration_for mgr t) as [mgr' [deco|]] eqn:Ht.
  - destruct (decoration_for_caches _ _ _ _ Ht) as [_ Hsub].
    specialize (IH mgr').
    destruct (compute_loop mgr' rest) as [mgr'' [[mark replace]|]]; simpl in *;
      etrans; eassumption.
  - destruct (decoration_for_throws _ _ _ Ht) as [-> _]. reflexivity.
Qed.

(** A second run over the same tokens, from any manager whose cache agrees
    with the one the first run left on the values of the tokens, returns
    what the first run returned and leaves that manager as it is. *)
Lemma compute_loop_again (tokens : list TokenSpec) :
  forall mgr mgr1 result,
    compute_loop mgr tokens = (mgr1, result) ->
    forall mgr',
      (forall t, In t tokens ->
                 decoCache mgr' !! token_value t = decoCache mgr1 !! token_value t) ->
      compute_loop mgr' tokens = (mgr', result).
Proof.
  induction tokens as [|t rest IH]; intros mgr mgr1 result; simpl.
  - intros [= <- <-] mgr' _. reflexivity.
  - destruct (decoration_for mgr t) as [mgr2 [deco|]] eqn:Ht.
    + destruct (decoration_for_caches _ _ _ _ Ht) as [Hdeco _].
      pose proof (compute_loop_grows rest mgr2) as Hgrow.
      destruct (compute_loop mgr2 rest) as [mgr3 result3] eqn:Hrest.
      simpl in Hgrow. intros Hres mgr' Hagree.
      assert (Hm : mgr1 = mgr3)
        by (destruct result3 as [[mark replace]|]; congruence).
      subst mgr3.
      rewrite (decoration_for_cached mgr' t deco).
      * rewrite (IH _ _ _ Hrest mgr'); [|intros t' Ht'; apply Hagree; right; exact Ht'].
        destruct result3 as [[mark replace]|]; congruence.
      * rewrite Hagree by (left; reflexivity).
        eapply lookup_weaken; eassumption.
    + destruct (decoration_for_throws _ _ _ Ht) as (-> & Hnone & Hspec).
      intros [= <- <-] mgr' Hagree.
      unfold decoration_for.
      rewrite Hagree by (left; reflexivity). rewrite Hnone, Hspec. reflexivity.
Qed.

(** After a run that returned, every token value is in the cache. *)
Lemma compute_loop_cached (tokens : list TokenSpec) :
  forall mgr mgr1 arrays,
    compute_loop mgr tokens = (mgr1, Some arrays) ->
    forall t, In t tokens -> is_Some (decoCache mgr1 !! token_value t).
Proof.
  induction tokens as [|t rest IH]; intros mgr mgr1 arrays; simpl; [tauto|].
  destruct (decoration_for mgr t) as [mgr2 [deco|]] eqn:Ht; [|discriminate].
  destruct (decoration_for_caches _ _ _ _ Ht) as [Hdeco _].
  pose proof (compute_loop_grows rest mgr2) as Hgrow.
  destruct (compute_loop mgr2 rest) as [mgr3 [[mark replace]|]] eqn:Hrest;
    [|discriminate].
  simpl in Hgrow. intros Hres t' [<- | Ht'].
  - assert (mgr1 = mgr3) as -> by (destruct (is_mark t); congruence).
    exists deco. eapply lookup_weaken; eassumption.
  - assert (mgr1 = mgr3) as -> by (destruct (is_mark t); congruence).
    eapply IH; eassumption.
Qed.

(** C9: running [compute] a second time on the same tokens, from the manager
    the first run left, returns the same decoration sets, made of the same
    decoration objects, and leaves the manager as it is: nothing is
    allocated and the cache is not written.  When the first run returned,
    each token of the second run gets the decoration the cache holds under
    the token's value. *)
Theorem C9_second_compute_reuses_cached_decorations
        (mgr : Manager) (tokens : list TokenSpec) :
  compute (compute mgr tokens).1 tokens = compute mgr tokens
  /\ allocated (compute (compute mgr tokens).1 tokens).1
     = allocated (compute mgr tokens).1
  /\ forall sets t,
      (compute mgr tokens).2 = Some sets ->
      In t tokens ->
      exists deco,
        decoCache (compute mgr tokens).1 !! token_value t = Some deco
        /\ decoration_for (compute mgr tokens).1 t
           = ((compute mgr tokens).1, Some deco).
Proof.
  assert (Hagain : compute (compute mgr tokens).1 tokens = compute mgr tokens).
  { unfold compute.
    destruct (compute_loop mgr tokens) as [mgr1 result] eqn:Hrun.
    assert (Hfst : (match result with
                    | Some (mark, replace) =>
                        (mgr1, Some (Decoration_set mark, Decoration_set replace))
                    | None => (mgr1, None)
                    end).1 = mgr1)
      by (destruct result as [[mark replace]|]; reflexivity).
    rewrite Hfst.
    rewrite (compute_loop_again tokens _ _ _ Hrun mgr1); [reflexivity|].
    intros t _. reflexivity. }
  split; [exact Hagain|]. split; [rewrite Hagain; reflexivity|].
  intros sets t Hsets Ht. unfold compute in *.
  destruct (compute_loop mgr tokens) as [mgr1 [[mark replace]|]] eqn:Hrun;
    [|discriminate].
  simpl in *.
  destruct (compute_loop_cached _ _ _ _ Hrun t Ht) as [deco Hdeco].
  exists deco. split; [exact Hdeco|]. apply decoration_for_cached. exact Hdeco.
Qed.

(** Two runs over the mark and the replace token of one annotation. *)
Lemma C9_second_compute_reuses_cached_decorations_witness :
  compute (compute (mkManager ∅ 0)
                   [MarkToken 0 9 ".note" (Some [("class", Some "note")]);
                    ReplaceToken 1 9 (0, 9)%Z "{.note}" 2]).1
          [MarkToken 0 9 ".note" (Some [("class", Some "note")]);
           ReplaceToken 1 9 (0, 9)%Z "{.note}" 2]
  = compute (mkManager ∅ 0)
            [MarkToken 0 9 ".note" (Some [("class", Some "note")]);
             ReplaceToken 1 9 (0, 9)%Z "{.note}" 2]
  /\ exists deco,
      decoration_for
        (compute (mkManager ∅ 0)
                 [MarkToken 0 9 ".note" (Some [("class", Some "note")]);
                  ReplaceToken 1 9 (0, 9)%Z "{.note}" 2]).1
        (ReplaceToken 1 9 (0, 9)%Z "{.note}" 2)
      = ((compute (mkManager ∅ 0)
                  [MarkToken 0 9 ".note" (Some [("class", Some "note")]);
                   ReplaceToken 1 9 (0, 9)%Z "{.note}" 2]).1,
         Some deco).
Proof.
  destruct (C9_second_compute_reuses_cached_decorations
              (mkManager ∅ 0)
              [MarkToken 0 9 ".note" (Some [("class", Some "note")]);
               ReplaceToken 1 9 (0, 9)%Z "{.note}" 2]) as (Hsame & _ & Hcached).
  split; [exact Hsame|].
  destruct (Hcached _ (ReplaceToken 1 9 (0, 9)%Z "{.note}" 2) eq_refl
                    (or_intror (or_introl eq_refl))) as (deco & _ & Hfor).
  exists deco. exact Hfor.
Defined.

(* ===================================================================== *)
(** * The split of getAttrs against the split of the specification *)
(* ===================================================================== *)

(** [skip_text] returns a suffix. *)
Lemma skip_text_length (s : string) :
  (String.length (Spec.skip_text s) <= String.length s)%nat.
Proof.
  induction s as [|c s IH]; simpl; [lia|].
  destruct (Spec.is_quote c); simpl; lia.
Qed.

(** What [skip_text] returns starts with a quote character. *)
Lemma skip_text_head (s : string) (c : ascii) (s' : string) :
  Spec.skip_text s = String c s' -> Spec.is_quote c = true.
Proof.
  induction s as [|a s IH]; simpl; [discriminate|].
  destruct (Spec.is_quote a) eqn:Ha; [|exact IH].
  intros [= <- _]. exact Ha.
Qed.

(** A greedy run of characters that are no quotes, before a continuation
    that fails on such a character, stops at the first quote. *)
Lemma m_star_not_quote (k : cont) (cap : option string) :
  (forall c s', Spec.is_quote c = false -> k (String c s') cap = None) ->
  forall s, m (Star not_quote) k s cap = k (Spec.skip_text s) cap.
Proof.
  intros Hk s. cbn [m].
  assert (Hn : (String.length s <= String.length s)%nat) by lia.
  revert Hn. generalize (String.length s) at 2 3. intros n. revert s.
  induction n as [|n IH]; intros s Hn.
  - destruct s; [reflexivity|simpl in Hn; lia].
  - destruct s as [|c s]; [reflexivity|].
    cbn [m has_cap not_quote]. unfold in_class.
    change (List.existsb (Ascii.eqb c) quotes) with (Spec.is_quote c).
    cbn [Spec.skip_text].
    destruct (Spec.is_quote c) eqn:Hc; simpl xorb; cbv iota.
    + reflexivity.
    + assert (Hlt : (String.length s <? String.length (String c s))%nat = true)
        by (apply Nat.ltb_lt; simpl; lia).
      rewrite Hlt. simpl in Hn.
      rewrite IH by lia.
      destruct (k (Spec.skip_text s) cap) eqn:Hks; [reflexivity|].
      apply Hk. exact Hc.
Qed.

(** The matcher on the constructors of the patterns of the split. *)
Lemma m_Cat (r1 r2 : re) (k : cont) (s : string) (cap : option string) :
  m (Cat r1 r2) k s cap = m r1 (m r2 k) s cap.
Proof. reflexivity. Qed.

Lemma m_quote_class (k : cont) (s : string) (cap : option string) :
  m (Cap (Cls false quotes)) k s cap =
  match s with
  | String q s' => if Spec.is_quote q then k s' (Some (Str.of_char q)) else None
  | EmptyString => None
  end.
Proof.
  destruct s as [|q s']; [reflexivity|]. cbn [m]. unfold in_class.
  change (List.existsb (Ascii.eqb q) quotes) with (Spec.is_quote q).
  destruct (Spec.is_quote q); [|reflexivity]. simpl xorb. cbv iota.
  replace (String.length (String q s') - String.length s')%nat with 1%nat
    by (simpl; lia).
  reflexivity.
Qed.

Lemma m_backref_char (k : cont) (q : ascii) (s : string) :
  m Backref k s (Some (Str.of_char q)) =
  match s with
  | String c s' => if Ascii.eqb q c then k s' (Some (Str.of_char q)) else None
  | EmptyString => None
  end.
Proof.
  destruct s as [|c s']; [reflexivity|]. cbn [m]. simpl.
  destruct (Ascii.eqb q c); reflexivity.
Qed.

(** One quoted piece: text, a quote, text, the same quote. *)
Lemma m_quoted_piece (k : cont) (s : string) (cap : option string) :
  m quoted_piece k s cap =
  match Spec.skip_text s with
  | String q s2 =>
      match Spec.skip_text s2 with
      | String q' s3 =>
          if Ascii.eqb q q' then k s3 (Some (Str.of_char q)) else None
      | EmptyString => None
      end
  | EmptyString => None
  end.
Proof.
  unfold quoted_piece. rewrite m_Cat, m_star_not_quote.
  2:{ intros c s' Hc. rewrite m_Cat, m_quote_class, Hc. reflexivity. }
  rewrite m_Cat, m_quote_class.
  destruct (Spec.skip_text s) as [|q s2] eqn:Hs; [reflexivity|].
  rewrite (skip_text_head _ _ _ Hs).
  pose proof (skip_text_head _ _ _ Hs) as Hq.
  rewrite m_Cat, m_star_not_quote.
  2:{ intros c s' Hc. rewrite m_backref_char.
      destruct (Ascii.eqb_spec q c) as [->|]; [congruence|reflexivity]. }
  rewrite m_backref_char. reflexivity.
Qed.

(** [pairs] told over the jumps of [skip_text], with a quote open and with
    none. *)
Lemma pairs_open_skip (q : ascii) (cap : option string) (s : string) :
  Spec.pairs (Some q) cap s =
  match Spec.skip_text s with
  | String q' s3 =>
      if Ascii.eqb q q' then Spec.pairs None (Some (Str.of_char q)) s3 else None
  | EmptyString => None
  end.
Proof.
  induction s as [|c s IH]; simpl; [reflexivity|].
  destruct (Spec.is_quote c); [|exact IH].
  rewrite (Ascii.eqb_sym c q). reflexivity.
Qed.

Lemma pairs_skip (cap : option string) (s : string) :
  Spec.pairs None cap s =
  match Spec.skip_text s with
  | String q s2 =>
      match Spec.skip_text s2 with
      | String q' s3 =>
          if Ascii.eqb q q' then Spec.pairs None (Some (Str.of_char q)) s3 else None
      | EmptyString => None
      end
  | EmptyString => Some cap
  end.
Proof.
  induction s as [|c s IH]; simpl; [reflexivity|].
  destruct (Spec.is_quote c); [|exact IH].
  apply pairs_open_skip.
Qed.


Lemma m_Lookahead (r : re) (k : cont) (s : string) (cap : option string) :
  m (Lookahead r) k s cap =
  match m r accept s cap with
  | Some (_, c') => k s c'
  | None => None
  end.
Proof. reflexivity. Qed.

Lemma m_Space (k : cont) (a : ascii) (s : string) (cap : option string) :
  m Space k (String a s) cap = if Str.is_space a then k s cap else None.
Proof. reflexivity. Qed.

(** The end of the lookahead: text without quotes up to the end. *)
Lemma m_tail (s : string) (cap : option string) :
  m (Cat (Star not_quote) (Dollar false)) accept s cap =
  match Spec.skip_text s with
  | EmptyString => Some (EmptyString, cap)
  | String _ _ => None
  end.
Proof.
  rewrite m_Cat, m_star_not_quote; [|reflexivity].
  destruct (Spec.skip_text s); reflexivity.
Qed.

(** The body of the lookahead accepts exactly the strings whose quotes pair
    up, and leaves the last closed quote in the capture. *)
Lemma m_lookahead_body (s : string) (cap : option string) :
  m (Cat (Star quoted_piece) (Cat (Star not_quote) (Dollar false))) accept s cap =
  match Spec.pairs None cap s with
  | Some c => Some (EmptyString, c)
  | None => None
  end.
Proof.
  rewrite m_Cat.
  set (kend := m (Cat (Star not_quote) (Dollar false)) accept).
  cbn [m]. change (has_cap quoted_piece) with true. cbv iota.
  assert (Hn : (String.length s <= String.length s)%nat) by lia.
  revert Hn. generalize (String.length s) at 2 3. intros n. revert s cap.
  induction n as [|n IH]; intros s cap Hn.
  - destruct s; [reflexivity|simpl in Hn; lia].
  - rewrite m_quoted_piece, (pairs_skip cap s).
    unfold kend at 2. rewrite m_tail.
    destruct (Spec.skip_text s) as [|q s2] eqn:Hs; [reflexivity|].
    destruct (Spec.skip_text s2) as [|q' s3] eqn:Hs2; [reflexivity|].
    destruct (Ascii.eqb q q'); [|reflexivity].
    pose proof (skip_text_length s) as H1. pose proof (skip_text_length s2) as H2.
    rewrite Hs in H1. rewrite Hs2 in H2. simpl in H1, H2.
    assert (Hlt : (String.length s3 <? String.length s)%nat = true)
      by (apply Nat.ltb_lt; lia).
    rewrite Hlt, IH by lia.
    destruct (Spec.pairs None (Some (Str.of_char q)) s3); reflexivity.
Qed.

(** The split pattern at the front of a string: a white space character
    followed by a string whose quotes pair up. *)
Lemma match_here_SPLIT_RE (s : string) :
  match_here SPLIT_RE s =
  match s with
  | String a s' =>
      if Str.is_space a
      then match Spec.pairs None None s' with
           | Some c => Some (s', c)
           | None => None
           end
      else None
  | EmptyString => None
  end.
Proof.
  unfold match_here, SPLIT_RE. rewrite m_Cat.
  destruct s as [|a s']; [reflexivity|].
  rewrite m_Space. destruct (Str.is_space a); [|reflexivity].
  rewrite m_Lookahead, m_lookahead_body.
  destruct (Spec.pairs None None s'); reflexivity.
Qed.

(* ---- Spec.fragments ---- *)

(** The map and the filter of [getAttrs] on a fragment that is a string. *)
Lemma trim_fragment_some (s : string) :
  trim_fragment (Some s) = Some (Str.trim s).
Proof. destruct s; reflexivity. Qed.

Lemma keep_fragment_kept (t : string) :
  t <> Str.of_char Str.bt -> keep_fragment (Some t) = Spec.kept t.
Proof.
  destruct t as [|c [|c' t']]; [reflexivity | |].
  2:{ intros _. unfold keep_fragment, Str.of_char. simpl.
      destruct (Ascii.eqb c Str.dq), (Ascii.eqb c Str.sq); reflexivity. }
  intros Hbt. unfold keep_fragment, Spec.kept, Spec.is_quote, quotes, Str.of_char.
  simpl.
  destruct (Ascii.eqb_spec c Str.sq) as [->|Hsq]; [reflexivity|].
  destruct (Ascii.eqb_spec c Str.dq) as [->|Hdq]; [reflexivity|].
  destruct (Ascii.eqb_spec c Str.bt) as [->|Hb]; [contradiction|].
  reflexivity.
Qed.

(** A character found after a trim was in the string before it. *)
Lemma existsb_trim_start (f : ascii -> bool) (s : string) :
  Str.existsb f (Str.trim_start s) = true -> Str.existsb f s = true.
Proof.
  induction s as [|c s IH]; simpl; [discriminate|].
  destruct (Str.is_space c); simpl; [|tauto].
  intros Hs. rewrite (IH Hs). apply orb_true_r.
Qed.

Lemma existsb_rev_onto (f : ascii -> bool) (s acc : string) :
  Str.existsb f (Str.rev_onto s acc) = Str.existsb f s || Str.existsb f acc.
Proof.
  revert acc. induction s as [|c s IH]; intros acc; simpl; [reflexivity|].
  rewrite IH. simpl. destruct (f c), (Str.existsb f s); reflexivity.
Qed.

Lemma existsb_trim (f : ascii -> bool) (s : string) :
  Str.existsb f (Str.trim s) = true -> Str.existsb f s = true.
Proof.
  unfold Str.trim, Str.rev. rewrite existsb_rev_onto, orb_false_r.
  intros Hs. apply existsb_trim_start in Hs.
  rewrite existsb_rev_onto, orb_false_r in Hs.
  apply existsb_trim_start. exact Hs.
Qed.

Lemma existsb_append (f : ascii -> bool) (s t : string) :
  Str.existsb f (s +:+ t) = Str.existsb f s || Str.existsb f t.
Proof.
  induction s as [|c s IH]; simpl; [reflexivity|].
  rewrite IH. apply orb_assoc.
Qed.

(** A string without a back-tick is not trimmed to a back-tick. *)
Lemma trim_not_backtick (s : string) :
  Str.existsb Spec.is_bt s = false -> Str.trim s <> Str.of_char Str.bt.
Proof.
  intros Hs Ht.
  assert (Hex : Str.existsb Spec.is_bt (Str.trim s) = true) by (rewrite Ht; reflexivity).
  apply existsb_trim in Hex. congruence.
Qed.

(** Whether the quotes pair up does not depend on the capture. *)
Lemma pairs_fails_any_capture (s : string) :
  forall open cap cap',
    Spec.pairs open cap s = None -> Spec.pairs open cap' s = None.
Proof.
  induction s as [|c s IH]; intros open cap cap'; simpl.
  - destruct open; [reflexivity|discriminate].
  - destruct (Spec.is_quote c); [|apply IH].
    destruct open as [q|]; [|apply IH].
    destruct (Ascii.eqb c q); [apply IH|reflexivity].
Qed.

(** Inside a quoted piece the rest of the string does not pair up. *)
Lemma pairs_parity (s : string) :
  forall q cap cap',
    Spec.pairs (Some q) cap s <> None -> Spec.pairs None cap' s = None.
Proof.
  induction s as [|c s IH]; intros q cap cap'; simpl.
  - intros Hne. contradiction.
  - destruct (Spec.is_quote c); [|apply IH].
    destruct (Ascii.eqb c q).
    + intros Hne. destruct (Spec.pairs (Some c) cap' s) eqn:Hp; [|reflexivity].
      exfalso. apply Hne.
      apply (IH c cap' (Some (Str.of_char q))). rewrite Hp. discriminate.
    + intros Hne. contradiction.
Qed.

(** Without a back-tick in the string, the capture the lookahead leaves is
    one the filter drops. *)
Lemma pairs_capture_dropped (s : string) :
  forall open cap c,
    Spec.pairs open cap s = Some c ->
    Str.existsb Spec.is_bt s = false ->
    (forall q, open = Some q -> Spec.is_bt q = false) ->
    Spec.dropped cap = true ->
    Spec.dropped c = true.
Proof.
  induction s as [|a s IH]; intros open cap c; simpl.
  - destruct open; [discriminate|]. intros [= <-] _ _ Hcap. exact Hcap.
  - intros Hp Hbt Hopen Hcap. apply orb_false_elim in Hbt. destruct Hbt as [Ha Hs].
    destruct (Spec.is_quote a) eqn:Hq.
    + destruct open as [q|].
      * destruct (Ascii.eqb_spec a q) as [->|]; [|discriminate].
        apply (IH _ _ _ Hp Hs); [discriminate|].
        unfold Spec.is_quote, quotes in Hq. simpl in Hq. unfold Spec.is_bt in Ha.
        destruct (Ascii.eqb_spec q Str.sq) as [->|]; [reflexivity|].
        destruct (Ascii.eqb_spec q Str.dq) as [->|]; [reflexivity|].
        rewrite Ha in Hq. discriminate.
      * apply (IH _ _ _ Hp Hs); [|exact Hcap]. intros q [= <-]. exact Ha.
    + apply (IH _ _ _ Hp Hs); assumption.
Qed.

(** The fragments of an array of the split, entry by entry. *)
Lemma fragments_cons_some (t : string) (l : list (option string)) :
  Str.existsb Spec.is_bt t = false ->
  Spec.fragments (Some t :: l)
  = (if Spec.kept (Str.trim t) then [Str.trim t] else []) ++ Spec.fragments l.
Proof.
  intros Ht. unfold Spec.fragments. cbn [List.map]. rewrite trim_fragment_some.
  cbn [List.filter].
  rewrite (keep_fragment_kept _ (trim_not_backtick _ Ht)).
  destruct (Spec.kept (Str.trim t)); reflexivity.
Qed.

Lemma fragments_cons_dropped (c : option string) (l : list (option string)) :
  Spec.dropped c = true -> Spec.fragments (c :: l) = Spec.fragments l.
Proof.
  unfold Spec.dropped, Spec.fragments. intros Hc. simpl.
  destruct (keep_fragment (trim_fragment c)); [discriminate|reflexivity].
Qed.

(** The loop of the split, read with the quote [open] that the scanner of
    the specification has open: on a string without back-tick whose quotes
    pair up from that state, the fragments are the same. *)
Lemma split_loop_refines (s : string) :
  forall n acc open cap,
    (String.length s < n)%nat ->
    Spec.pairs open cap s <> None ->
    (forall q, open = Some q -> Spec.is_quote q = true) ->
    Str.existsb Spec.is_bt acc = false ->
    Str.existsb Spec.is_bt s = false ->
    Spec.fragments (split_loop SPLIT_RE n acc s)
    = List.filter Spec.kept
        (List.map Str.trim (Spec.split_outside_quotes open acc s)).
Proof.
  induction s as [|a s IH]; intros n acc open cap Hn Hp Hopen Hacc Hs.
  - destruct n; [simpl in Hn; lia|]. simpl.
    rewrite fragments_cons_some by assumption.
    destruct (Spec.kept (Str.trim acc)); reflexivity.
  - destruct n as [|n]; [simpl in Hn; lia|]. simpl in Hn.
    simpl in Hs. apply orb_false_elim in Hs. destruct Hs as [Ha Hs].
    assert (Hacc' : Str.existsb Spec.is_bt (acc +:+ Str.of_char a) = false).
    { rewrite existsb_append, Hacc. simpl. rewrite Ha. reflexivity. }
    cbn [split_loop]. rewrite match_here_SPLIT_RE.
    cbn [Spec.split_outside_quotes]. simpl in Hp.
    destruct open as [q|].
    + (* inside a quoted piece *)
      destruct (Spec.is_quote a) eqn:Hq.
      * destruct (Ascii.eqb a q) eqn:Haq; [|contradiction].
        assert (Hsp : Str.is_space a = false).
        { unfold Spec.is_quote, quotes in Hq. simpl in Hq.
          destruct (Ascii.eqb_spec a Str.sq) as [->|]; [reflexivity|].
          destruct (Ascii.eqb_spec a Str.dq) as [->|]; [reflexivity|].
          destruct (Ascii.eqb_spec a Str.bt) as [->|]; [reflexivity|discriminate]. }
        rewrite Hsp.
        apply (IH n _ None (Some (Str.of_char q))); try assumption; [lia|discriminate].
      * assert (Haq : Ascii.eqb a q = false).
        { destruct (Ascii.eqb_spec a q) as [->|]; [|reflexivity].
          rewrite (Hopen q eq_refl) in Hq. discriminate. }
        rewrite Haq.
        rewrite (pairs_parity s q cap None Hp).
        assert (Hgo : Spec.fragments (split_loop SPLIT_RE n (acc +:+ Str.of_char a) s)
                      = List.filter Spec.kept
                          (List.map Str.trim
                             (Spec.split_outside_quotes (Some q) (acc +:+ Str.of_char a) s)))
          by (apply (IH n _ (Some q) cap); try assumption; lia).
        destruct (Str.is_space a); exact Hgo.
    + (* outside *)
      destruct (Spec.is_quote a) eqn:Hq.
      * assert (Hsp : Str.is_space a = false).
        { unfold Spec.is_quote, quotes in Hq. simpl in Hq.
          destruct (Ascii.eqb_spec a Str.sq) as [->|]; [reflexivity|].
          destruct (Ascii.eqb_spec a Str.dq) as [->|]; [reflexivity|].
          destruct (Ascii.eqb_spec a Str.bt) as [->|]; [reflexivity|discriminate]. }
        rewrite Hsp.
        apply (IH n _ (Some a) cap); try assumption; [lia|].
        intros q' [= <-]. exact Hq.
      * destruct (Str.is_space a).
        -- destruct (Spec.pairs None None s) as [c|] eqn:Hc.
           ++ assert (Hlen : (String.length s =? String.length (String a s))%nat = false)
                by (apply Nat.eqb_neq; simpl; lia).
              rewrite Hlen. simpl andb. cbv iota.
              rewrite fragments_cons_some by assumption.
              rewrite fragments_cons_dropped.
              2:{ apply (pairs_capture_dropped s None None c Hc Hs);
                  [discriminate|reflexivity]. }
              rewrite (IH n EmptyString None None); try assumption;
                [|lia|congruence|reflexivity].
              simpl. destruct (Spec.kept (Str.trim acc)); reflexivity.
           ++ exfalso. apply Hp. apply (pairs_fails_any_capture s None None cap Hc).
        -- apply (IH n _ None cap); try assumption; lia.
Qed.

(** Stripping goes through concatenation. *)
Lemma strip_quotes_append (a b : string) :
  strip_quotes (a +:+ b) = strip_quotes a +:+ strip_quotes b.
Proof.
  induction a as [|c a IH]; [reflexivity|].
  change (String c a +:+ b) with (String c (a +:+ b)).
  rewrite !strip_quotes_cons, IH. destruct (is_dq_or_sq c); reflexivity.
Qed.

(* ===================================================================== *)
(** * Concatenation *)
(* ===================================================================== *)

(** Concatenation of strings, one character at a time. *)
Lemma append_cons (x : ascii) (a b : string) :
  String x a +:+ b = String x (a +:+ b).
Proof. reflexivity. Qed.

Lemma append_nil (b : string) : EmptyString +:+ b = b.
Proof. reflexivity. Qed.

Lemma append_assoc (a b c : string) : (a +:+ b) +:+ c = a +:+ (b +:+ c).
Proof.
  induction a as [|x a IH]; [reflexivity|].
  rewrite !append_cons, IH. reflexivity.
Qed.

Lemma append_empty_r (a : string) : a +:+ EmptyString = a.
Proof.
  induction a as [|x a IH]; [reflexivity|]. rewrite append_cons, IH. reflexivity.
Qed.

Lemma length_append (a b : string) :
  String.length (a +:+ b) = (String.length a + String.length b)%nat.
Proof.
  induction a as [|x a IH]; [reflexivity|].
  rewrite append_cons. simpl. rewrite IH. reflexivity.
Qed.

(** The first part of a concatenation, by the length of the second. *)
Lemma take_append (a b : string) :
  Str.take (String.length (a +:+ b) - String.length b) (a +:+ b) = a.
Proof.
  rewrite length_append.
  replace (String.length a + String.length b - String.length b)%nat
    with (String.length a) by lia.
  induction a as [|x a IH]; [destruct b; reflexivity|].
  rewrite append_cons. simpl. rewrite IH. reflexivity.
Qed.

(** A text that starts with [g] is [g] and what follows it. *)
Lemma starts_with_split (g s : string) :
  Str.starts_with g s = true -> s = g +:+ Str.drop (String.length g) s.
Proof.
  revert s. induction g as [|x g IH]; intros s; [reflexivity|].
  destruct s as [|y s]; [discriminate|]. simpl.
  destruct (Ascii.eqb_spec x y) as [->|]; [|discriminate]. simpl.
  intros Hs. rewrite append_cons, <- (IH _ Hs). reflexivity.
Qed.

(* ===================================================================== *)
(** * The matcher reads what the patterns say *)
(* ===================================================================== *)

(** Soundness of the matcher: when [m r k s c] succeeds, [s] splits into a
    text that [r] reads and a rest on which the continuation succeeds with
    the same result. *)
Lemma m_sound (r : re) :
  forall k s c res,
    m r k s c = Some res ->
    exists p rest c',
      s = p +:+ rest /\ Sem.Matches r p rest c c' /\ k rest c' = Some res.
Proof.
  induction r as [| a | negated set | | r1 IH1 r2 IH2 | r1 IH1 | r1 IH1 | r1 IH1
                  | | r1 IH1 | multiline];
    intros k s c res; cbn [m].
  - intros Hk. exists EmptyString, s, c. repeat split; [constructor|exact Hk].
  - destruct s as [|x s]; [discriminate|].
    destruct (Ascii.eqb_spec x a) as [->|]; [|discriminate].
    intros Hk. exists (Str.of_char a), s, c. repeat split; [constructor|exact Hk].
  - destruct s as [|x s]; [discriminate|].
    destruct (in_class negated set x) eqn:Hx; [|discriminate].
    intros Hk. exists (Str.of_char x), s, c.
    repeat split; [constructor; exact Hx|exact Hk].
  - destruct s as [|x s]; [discriminate|].
    destruct (Str.is_space x) eqn:Hx; [|discriminate].
    intros Hk. exists (Str.of_char x), s, c.
    repeat split; [constructor; exact Hx|exact Hk].
  - intros Hm.
    destruct (IH1 _ _ _ _ Hm) as (p1 & rest1 & c1 & -> & H1 & Hm2).
    destruct (IH2 _ _ _ _ Hm2) as (p2 & rest & c2 & -> & H2 & Hk).
    exists (p1 +:+ p2), rest, c2. rewrite append_assoc.
    repeat split; [econstructor; eassumption|exact Hk].
  - generalize (String.length s) at 1. intros n. revert s c res.
    induction n as [|n IHn]; intros s c res.
    + intros Hk. exists EmptyString, s, c. repeat split; [constructor|exact Hk].
    + destruct (m r1 _ s (if has_cap r1 then None else c)) as [x|] eqn:Hm.
      * intros [= ->].
        destruct (IH1 _ _ _ _ Hm) as (p1 & rest1 & c1 & -> & H1 & Hk').
        destruct (String.length rest1 <? String.length (p1 +:+ rest1))%nat eqn:Hlt;
          [|discriminate].
        destruct (IHn _ _ _ Hk') as (p2 & rest & c2 & -> & H2 & Hk).
        exists (p1 +:+ p2), rest, c2. rewrite append_assoc.
        repeat split; [|exact Hk].
        econstructor; [exact H1| |exact H2].
        intros ->. apply Nat.ltb_lt in Hlt. rewrite append_nil in Hlt. lia.
      * intros Hk. exists EmptyString, s, c. repeat split; [constructor|exact Hk].
  - destruct (m r1 _ s (if has_cap r1 then None else c)) as [x|] eqn:Hm.
    + intros [= ->].
      destruct (IH1 _ _ _ _ Hm) as (p1 & rest1 & c1 & -> & H1 & Hk').
      destruct (String.length rest1 <? String.length (p1 +:+ rest1))%nat eqn:Hlt;
        [|discriminate].
      exists p1, rest1, c1. repeat split; [|exact Hk'].
      constructor; [exact H1|].
      intros ->. apply Nat.ltb_lt in Hlt. rewrite append_nil in Hlt. lia.
    + intros Hk. exists EmptyString, s, c. repeat split; [constructor|exact Hk].
  - intros Hm.
    destruct (IH1 _ _ _ _ Hm) as (p & rest & c1 & -> & H1 & Hk).
    rewrite take_append in Hk.
    exists p, rest, (Some p). repeat split; [econstructor; exact H1|exact Hk].
  - destruct c as [g|].
    + destruct (Str.starts_with g s) eqn:Hg; [|discriminate].
      intros Hk. exists g, (Str.drop (String.length g) s), (Some g).
      repeat split; [apply starts_with_split; exact Hg|constructor|exact Hk].
    + intros Hk. exists EmptyString, s, None. repeat split; [constructor|exact Hk].
  - destruct (m r1 _ s c) as [[x c1]|] eqn:Hm; [|discriminate].
    intros Hk.
    destruct (IH1 _ _ _ _ Hm) as (p & rest & c1' & -> & H1 & [= <- <-]).
    exists EmptyString, (p +:+ rest), c1'.
    repeat split; [constructor; exact H1|exact Hk].
  - destruct s as [|x s].
    + intros Hk. exists EmptyString, EmptyString, c.
      repeat split; [constructor|exact Hk].
    + destruct multiline; simpl; [|discriminate].
      destruct (Str.is_line_terminator x) eqn:Hx; [|discriminate].
      intros Hk. exists EmptyString, (String x s), c.
      repeat split; [constructor; exact Hx|exact Hk].
Qed.

(** One match attempt reads a prefix of the text. *)
Lemma match_here_sound (r : re) (s rest : string) (c : option string) :
  match_here r s = Some (rest, c) ->
  exists p, s = p +:+ rest /\ Sem.Matches r p rest None c.
Proof.
  unfold match_here. intros Hm.
  destruct (m_sound _ _ _ _ _ Hm) as (p & rest' & c' & -> & H1 & [= <- <-]).
  exists p. split; [reflexivity|exact H1].
Qed.

(** The text read is the text up to what is left. *)
Lemma take_consumed (s p rest : string) :
  s = p +:+ rest -> Str.take (String.length s - String.length rest) s = p.
Proof. intros ->. apply take_append. Qed.

(** One step of the search for the leftmost match. *)
Lemma exec_from_step (r : re) (s : string) (i : nat) :
  exec_from r s i =
  match match_here r s with
  | Some (rest, c) =>
      Some (mkMatch i (Str.take (String.length s - String.length rest) s) c)
  | None =>
      match s with
      | String _ s' => exec_from r s' (S i)
      | EmptyString => None
      end
  end.
Proof. destruct s; reflexivity. Qed.

(** What [exec] returns: the matched text stands in the string at the index
    reported, and the pattern reads it there. *)
Lemma exec_from_sound (r : re) (s : string) :
  forall i mr,
    exec_from r s i = Some mr ->
    exists pre rest,
      s = pre +:+ (matched mr +:+ rest)
      /\ index mr = (i + String.length pre)%nat
      /\ Sem.Matches r (matched mr) rest None (group1 mr).
Proof.
  induction s as [|x s IH]; intros i mr; rewrite exec_from_step;
    (destruct (match_here r _) as [[rest c]|] eqn:Hm;
     [ destruct (match_here_sound _ _ _ _ Hm) as (p & Hs & H1);
       rewrite (take_consumed _ _ _ Hs);
       intros [= <-]; cbn [matched group1 index];
       exists EmptyString, rest; repeat split; [exact Hs|simpl; lia|exact H1] | ]).
  - discriminate.
  - intros Hex. destruct (IH _ _ Hex) as (pre & rest & Hs & Hi & H1).
    exists (String x pre), rest. rewrite append_cons, <- Hs.
    repeat split; [simpl; lia|exact H1].
Qed.

(** What a pattern of a given form reads. *)
Lemma Matches_Chr_inv (a : ascii) (p rest : string) (c c' : option string) :
  Sem.Matches (Chr a) p rest c c' -> p = Str.of_char a /\ c' = c.
Proof. inversion 1; subst; auto. Qed.

Lemma Matches_Cls_inv (negated : bool) (set : list ascii) (p rest : string)
      (c c' : option string) :
  Sem.Matches (Cls negated set) p rest c c' ->
  exists a, p = Str.of_char a /\ in_class negated set a = true /\ c' = c.
Proof. inversion 1; subst; eauto. Qed.

Lemma Matches_Cat_inv (r1 r2 : re) (p rest : string) (c c2 : option string) :
  Sem.Matches (Cat r1 r2) p rest c c2 ->
  exists p1 p2 c1,
    p = p1 +:+ p2
    /\ Sem.Matches r1 p1 (p2 +:+ rest) c c1
    /\ Sem.Matches r2 p2 rest c1 c2.
Proof. inversion 1; subst; eauto 10. Qed.

Lemma Matches_Cap_inv (r : re) (p rest : string) (c c' : option string) :
  Sem.Matches (Cap r) p rest c c' ->
  c' = Some p /\ exists c1, Sem.Matches r p rest None c1.
Proof. inversion 1; subst; eauto. Qed.

Lemma Matches_Opt_Chr_inv (a : ascii) (p rest : string) (c c' : option string) :
  Sem.Matches (Opt (Chr a)) p rest c c' ->
  (p = EmptyString \/ p = Str.of_char a) /\ c' = c.
Proof.
  inversion 1; subst; [auto|].
  match goal with H : Sem.Matches (Chr a) _ _ _ _ |- _ =>
    apply Matches_Chr_inv in H; destruct H as [-> ->] end.
  auto.
Qed.

Lemma Matches_Dollar_inv (multiline : bool) (p rest : string) (c c' : option string) :
  Sem.Matches (Dollar multiline) p rest c c' ->
  p = EmptyString /\ c' = c
  /\ (rest = EmptyString
      \/ (multiline = true
          /\ exists a rest', rest = String a rest' /\ Str.is_line_terminator a = true)).
Proof. inversion 1; subst; eauto 10. Qed.

Lemma Matches_Star_Cls (negated : bool) (set : list ascii) (p rest : string)
      (c c' : option string) :
  Sem.Matches (Star (Cls negated set)) p rest c c' ->
  Sem.all (in_class negated set) p = true /\ c' = c.
Proof.
  intros H. remember (Star (Cls negated set)) as r eqn:Hr.
  induction H; try discriminate; [auto|].
  injection Hr as ->.
  apply Matches_Cls_inv in H. destruct H as (a & -> & Ha & ->).
  destruct (IHMatches2 eq_refl) as [Hall ->].
  split; [|reflexivity]. simpl. rewrite Ha. exact Hall.
Qed.

Lemma Matches_Star_Chr (a : ascii) (p rest : string) (c c' : option string) :
  Sem.Matches (Star (Chr a)) p rest c c' ->
  Sem.all (fun x => Ascii.eqb x a) p = true /\ c' = c.
Proof.
  intros H. remember (Star (Chr a)) as r eqn:Hr.
  induction H; try discriminate; [auto|].
  injection Hr as ->.
  apply Matches_Chr_inv in H. destruct H as (-> & ->).
  destruct (IHMatches2 eq_refl) as [Hall ->].
  split; [|reflexivity]. simpl. rewrite Ascii.eqb_refl. exact Hall.
Qed.

(** The part the three annotation patterns share, before a tail [t]. *)
Lemma annotation_shape (t : re) (p rest : string) (c cap : option string) :
  Sem.Matches
    (Cat (Chr "{") (Cat (Opt (Chr ":")) (Cat spaces
       (Cat (Cap (Cat first_char (Star not_close))) (Cat spaces t)))))
    p rest c cap ->
  exists colon sp1 c0 g sp2 pt,
    p = "{" +:+ colon +:+ sp1 +:+ String c0 g +:+ sp2 +:+ pt
    /\ (colon = EmptyString \/ colon = ":")
    /\ Sem.all Sem.is_space_char sp1 = true
    /\ in_class true ["}"; Str.nl; " "]%char c0 = true
    /\ Sem.all (in_class true ["}"; Str.nl]%char) g = true
    /\ Sem.all Sem.is_space_char sp2 = true
    /\ Sem.Matches t pt rest (Some (String c0 g)) cap.
Proof.
  intros H.
  apply Matches_Cat_inv in H. destruct H as (p1 & q1 & c1 & -> & H1 & H).
  apply Matches_Chr_inv in H1. destruct H1 as [-> ->].
  apply Matches_Cat_inv in H. destruct H as (p2 & q2 & c2 & -> & H2 & H).
  apply Matches_Opt_Chr_inv in H2. destruct H2 as [Hcolon ->].
  apply Matches_Cat_inv in H. destruct H as (p3 & q3 & c3 & -> & H3 & H).
  apply Matches_Star_Chr in H3. destruct H3 as [Hsp1 ->].
  apply Matches_Cat_inv in H. destruct H as (p4 & q4 & c4 & -> & H4 & H).
  apply Matches_Cap_inv in H4. destruct H4 as (-> & c5 & H4).
  apply Matches_Cat_inv in H4. destruct H4 as (p5 & q5 & c6 & -> & H5 & H6).
  apply Matches_Cls_inv in H5. destruct H5 as (c0 & -> & Hc0 & ->).
  apply Matches_Star_Cls in H6. destruct H6 as [Hg ->].
  apply Matches_Cat_inv in H. destruct H as (p6 & q6 & c7 & -> & H7 & H).
  apply Matches_Star_Chr in H7. destruct H7 as [Hsp2 ->].
  exists p2, p3, c0, q5, p6, q6.
  repeat split; try assumption.
Qed.

(** Every character of a concatenation. *)
Lemma all_append (f : ascii -> bool) (a b : string) :
  Sem.all f (a +:+ b) = Sem.all f a && Sem.all f b.
Proof.
  induction a as [|x a IH]; [reflexivity|].
  rewrite append_cons. simpl. rewrite IH. apply andb_assoc.
Qed.

Lemma all_weaken (f g : ascii -> bool) (s : string) :
  (forall c, f c = true -> g c = true) -> Sem.all f s = true -> Sem.all g s = true.
Proof.
  intros Hfg. induction s as [|x s IH]; simpl; [reflexivity|].
  intros H. apply andb_prop in H. destruct H as [Hx Hs].
  rewrite (Hfg _ Hx), (IH Hs). reflexivity.
Qed.

(** The two classes of the capture. *)
Lemma in_class_first (c : ascii) :
  in_class true ["}"; Str.nl; " "]%char c = true ->
  (Sem.is_close c || Sem.is_nl c || Sem.is_space_char c) = false.
Proof.
  unfold in_class, Sem.is_close, Sem.is_nl, Sem.is_space_char. simpl.
  destruct (Ascii.eqb c "}"), (Ascii.eqb c Str.nl), (Ascii.eqb c " ");
    simpl; congruence.
Qed.

Lemma in_class_not_close (c : ascii) :
  in_class true ["}"; Str.nl]%char c = true ->
  negb (Sem.is_close c || Sem.is_nl c) = true.
Proof.
  unfold in_class, Sem.is_close, Sem.is_nl. simpl.
  destruct (Ascii.eqb c "}"), (Ascii.eqb c Str.nl); simpl; congruence.
Qed.

(** What the part shared by the three patterns reads is an annotation. *)
Lemma annotation_sound (t : re) (p rest : string) (c cap : option string) :
  Sem.Matches
    (Cat (Chr "{") (Cat (Opt (Chr ":")) (Cat spaces
       (Cat (Cap (Cat first_char (Star not_close))) (Cat spaces t)))))
    p rest c cap ->
  exists a g pt,
    p = a +:+ pt
    /\ Sem.annotation (a +:+ "}") g
    /\ Sem.Matches t pt rest (Some g) cap.
Proof.
  intros H. apply annotation_shape in H.
  destruct H as (colon & sp1 & c0 & g & sp2 & pt & -> & Hcolon & Hsp1 & Hc0 & Hg & Hsp2 & Ht).
  exists ("{" +:+ colon +:+ sp1 +:+ String c0 g +:+ sp2), (String c0 g), pt.
  split; [|split; [|exact Ht]].
  - rewrite !append_assoc. reflexivity.
  - exists colon, sp1, c0, g, sp2.
    split; [rewrite !append_assoc; reflexivity|].
    split; [reflexivity|]. split; [exact Hcolon|].
    split; [exact Hsp1|]. split; [exact Hsp2|].
    split; [apply in_class_first; exact Hc0|].
    revert Hg. apply all_weaken. apply in_class_not_close.
Qed.

(** An annotation holds no line feed, and it holds a closing brace. *)
Lemma annotation_no_nl (p g : string) :
  Sem.annotation p g -> Sem.all (fun c => negb (Sem.is_nl c)) p = true.
Proof.
  intros (colon & sp1 & c0 & g' & sp2 & -> & -> & Hcolon & Hsp1 & Hsp2 & Hc0 & Hg).
  assert (Hsp : forall sp, Sem.all Sem.is_space_char sp = true ->
                           Sem.all (fun c => negb (Sem.is_nl c)) sp = true).
  { intros sp. apply all_weaken. intros c Hc.
    unfold Sem.is_space_char in Hc. apply Ascii.eqb_eq in Hc. subst c. reflexivity. }
  rewrite !all_append. rewrite (Hsp _ Hsp1), (Hsp _ Hsp2).
  assert (Hcol : Sem.all (fun c => negb (Sem.is_nl c)) colon = true)
    by (destruct Hcolon as [-> | ->]; reflexivity).
  rewrite Hcol. simpl.
  apply orb_false_elim in Hc0. destruct Hc0 as [Hc0 _].
  apply orb_false_elim in Hc0. destruct Hc0 as [_ Hnl]. rewrite Hnl. simpl.
  rewrite andb_true_r. revert Hg. apply all_weaken.
  intros c Hc. apply negb_true_iff in Hc. apply orb_false_elim in Hc.
  destruct Hc as [_ ->]. reflexivity.
Qed.

Lemma annotation_has_close (p g : string) :
  Sem.annotation p g -> Str.existsb Sem.is_close p = true.
Proof.
  intros (colon & sp1 & c0 & g' & sp2 & -> & _).
  rewrite !existsb_append. simpl. rewrite !orb_true_r. reflexivity.
Qed.

(** X1: a match of [BASE_RE] is an annotation.  The matched text sits at the
    reported index of the text; it is an opening brace, an optional colon,
    spaces, the capture, spaces and a closing brace; and the capture is not
    empty, does not start with a space or a line feed, and holds no closing
    brace and no line feed. *)
Theorem BASE_RE_match_is_annotation (s : string) (mr : MatchResult) :
  exec BASE_RE s = Some mr ->
  exists pre rest g,
    s = pre +:+ matched mr +:+ rest
    /\ index mr = String.length pre
    /\ group1 mr = Some g
    /\ Sem.annotation (matched mr) g.
Proof.
  intros Hex. apply exec_from_sound in Hex.
  destruct Hex as (pre & rest & Hs & Hi & Hm).
  apply (annotation_sound (Chr "}")) in Hm.
  destruct Hm as (a & g & pt & Hp & Hann & Ht).
  apply Matches_Chr_inv in Ht. destruct Ht as [-> Hcap].
  unfold Str.of_char in Hp. rewrite <- Hp in Hann.
  exists pre, rest, g. repeat split; auto.
Qed.

(** An annotation with a colon and spaces, inside a line. *)
Lemma BASE_RE_match_is_annotation_witness :
  exists pre rest g,
    "a {: .x }b" = pre +:+ "{: .x }" +:+ rest
    /\ 2 = String.length pre
    /\ Some ".x " = Some g
    /\ Sem.annotation "{: .x }" g.
Proof.
  apply (BASE_RE_match_is_annotation "a {: .x }b" (mkMatch 2 "{: .x }" (Some ".x "))).
  vm_compute. reflexivity.
Defined.

(** X2: a match of [END_RE] is an annotation that ends its line: the
    text after the match is empty or starts with a line terminator. *)
Theorem END_RE_match_ends_its_line (s : string) (mr : MatchResult) :
  exec END_RE s = Some mr ->
  exists pre rest g,
    s = pre +:+ matched mr +:+ rest
    /\ index mr = String.length pre
    /\ group1 mr = Some g
    /\ Sem.annotation (matched mr) g
    /\ match rest with
       | EmptyString => True
       | String a _ => Str.is_line_terminator a = true
       end.
Proof.
  intros Hex. apply exec_from_sound in Hex.
  destruct Hex as (pre & rest & Hs & Hi & Hm).
  apply (annotation_sound (Cat (Chr "}") (Dollar true))) in Hm.
  destruct Hm as (a & g & pt & Hp & Hann & Ht).
  apply Matches_Cat_inv in Ht. destruct Ht as (p1 & p2 & c1 & -> & H1 & H2).
  apply Matches_Chr_inv in H1. destruct H1 as [-> ->].
  apply Matches_Dollar_inv in H2. destruct H2 as (-> & Hcap & Hrest).
  rewrite append_empty_r in Hp. unfold Str.of_char in Hp. rewrite <- Hp in Hann.
  exists pre, rest, g.
  repeat split; auto.
  destruct Hrest as [-> | (_ & x & rest' & -> & Hx)]; [exact I | exact Hx].
Qed.

(** An annotation at the end of the first of two lines. *)
Lemma END_RE_match_ends_its_line_witness :
  exists pre rest g,
    Examples.lines "a {.x}" "b" = pre +:+ "{.x}" +:+ rest
    /\ 2 = String.length pre
    /\ Some ".x" = Some g
    /\ Sem.annotation "{.x}" g
    /\ match rest with
       | EmptyString => True
       | String a _ => Str.is_line_terminator a = true
       end.
Proof.
  apply (END_RE_match_ends_its_line (Examples.lines "a {.x}" "b")
           (mkMatch 2 "{.x}" (Some ".x"))).
  vm_compute. reflexivity.
Defined.

(** X3: a match of [BLOCK_RE] runs to the end of the text.  It is a line
    feed, spaces, an annotation and spaces, with no line feed after the first
    one: a block annotation is the last line of the text, and nothing but
    spaces comes after it. *)
Theorem BLOCK_RE_match_is_last_line (s : string) (mr : MatchResult) :
  exec BLOCK_RE s = Some mr ->
  exists pre sp0 p sp3 g,
    s = pre +:+ matched mr
    /\ index mr = String.length pre
    /\ matched mr = String Str.nl (sp0 +:+ p +:+ sp3)
    /\ Sem.all Sem.is_space_char sp0 = true
    /\ Sem.all Sem.is_space_char sp3 = true
    /\ Sem.annotation p g
    /\ group1 mr = Some g
    /\ Sem.all (fun c => negb (Sem.is_nl c)) (sp0 +:+ p +:+ sp3) = true.
Proof.
  intros Hex. apply exec_from_sound in Hex.
  destruct Hex as (pre & rest & Hs & Hi & Hm).
  apply Matches_Cat_inv in Hm. destruct Hm as (p1 & q1 & c1 & Hp1 & H1 & Hm).
  apply Matches_Chr_inv in H1. destruct H1 as [-> ->].
  apply Matches_Cat_inv in Hm. destruct Hm as (sp0 & q2 & c2 & -> & H2 & Hm).
  apply Matches_Star_Chr in H2. destruct H2 as [Hsp0 ->].
  apply (annotation_sound (Cat (Chr "}") (Cat spaces (Dollar false)))) in Hm.
  destruct Hm as (a & g & pt & -> & Hann & Ht).
  apply Matches_Cat_inv in Ht. destruct Ht as (p3 & q3 & c3 & -> & H3 & Ht).
  apply Matches_Chr_inv in H3. destruct H3 as [-> ->].
  apply Matches_Cat_inv in Ht. destruct Ht as (sp3 & q4 & c4 & -> & H4 & Ht).
  apply Matches_Star_Chr in H4. destruct H4 as [Hsp3 ->].
  apply Matches_Dollar_inv in Ht. destruct Ht as (-> & Hcap & Hrest).
  assert (Hrest' : rest = EmptyString).
  { destruct Hrest as [-> | (Hf & _)]; [reflexivity | discriminate]. }
  subst rest.
  assert (Hm : matched mr = String Str.nl (sp0 +:+ (a +:+ "}") +:+ sp3)).
  { rewrite Hp1. unfold Str.of_char. rewrite append_cons, append_nil.
    rewrite append_empty_r, !append_assoc. reflexivity. }
  exists pre, sp0, (a +:+ "}"), sp3, g.
  split; [rewrite Hs, append_empty_r; reflexivity|].
  split; [exact Hi|]. split; [exact Hm|].
  split; [exact Hsp0|]. split; [exact Hsp3|]. split; [exact Hann|].
  split; [auto|].
  assert (Hsp : forall sp, Sem.all Sem.is_space_char sp = true ->
                           Sem.all (fun c => negb (Sem.is_nl c)) sp = true).
  { intros sp. apply all_weaken. intros c Hc.
    unfold Sem.is_space_char in Hc. apply Ascii.eqb_eq in Hc. subst c. reflexivity. }
  rewrite (all_append _ sp0), (all_append _ (a +:+ "}")).
  rewrite (Hsp _ Hsp0), (Hsp _ Hsp3), (annotation_no_nl _ _ Hann).
  reflexivity.
Qed.

(** A block annotation with a space after it, under the text of an item. *)
Lemma BLOCK_RE_match_is_last_line_witness :
  exists pre sp0 p sp3 g,
    Examples.lines "Item" "{: .x} " = pre +:+ String Str.nl "{: .x} "
    /\ 4 = String.length pre
    /\ String Str.nl "{: .x} " = String Str.nl (sp0 +:+ p +:+ sp3)
    /\ Sem.all Sem.is_space_char sp0 = true
    /\ Sem.all Sem.is_space_char sp3 = true
    /\ Sem.annotation p g
    /\ Some ".x" = Some g
    /\ Sem.all (fun c => negb (Sem.is_nl c)) (sp0 +:+ p +:+ sp3) = true.
Proof.
  apply (BLOCK_RE_match_is_last_line (Examples.lines "Item" "{: .x} ")
           (mkMatch 4 (String Str.nl "{: .x} ") (Some ".x"))).
  vm_compute. reflexivity.
Defined.

(* ===================================================================== *)
(** * One pattern inside another *)
(* ===================================================================== *)

(** Success of the matcher is monotone in the continuation: a continuation
    that succeeds more often makes the match succeed more often. *)
Lemma m_mono (r : re) :
  forall k k' : cont,
    (forall s c, is_Some (k s c) -> is_Some (k' s c)) ->
    forall s c, is_Some (m r k s c) -> is_Some (m r k' s c).
Proof.
  induction r as [| a | negated set | | r1 IH1 r2 IH2 | r1 IH1 | r1 IH1 | r1 IH1
                  | | r1 IH1 | multiline];
    intros k k' Hk s c; cbn [m].
  - apply Hk.
  - destruct s as [|x s]; [auto|]. destruct (Ascii.eqb x a); [apply Hk|auto].
  - destruct s as [|x s]; [auto|]. destruct (in_class negated set x); [apply Hk|auto].
  - destruct s as [|x s]; [auto|]. destruct (Str.is_space x); [apply Hk|auto].
  - apply IH1. intros s' c'. apply IH2. exact Hk.
  - generalize (String.length s). intros n. revert s c.
    induction n as [|n IHn]; intros s c; [apply Hk|].
    match goal with
    | |- is_Some (match ?a with Some y => Some y | None => _ end) ->
         is_Some (match ?b with Some z => Some z | None => _ end) =>
        assert (Hab : is_Some a -> is_Some b); [|destruct a eqn:Ha; destruct b eqn:Hb]
    end.
    + apply IH1. intros s' c'. destruct (String.length s' <? String.length s)%nat; [|auto].
      apply IHn.
    + auto.
    + intros _. destruct Hab as [? Hab]; [eauto|discriminate].
    + eauto.
    + apply Hk.
  - match goal with
    | |- is_Some (match ?a with Some y => Some y | None => _ end) ->
         is_Some (match ?b with Some z => Some z | None => _ end) =>
        assert (Hab : is_Some a -> is_Some b); [|destruct a eqn:Ha; destruct b eqn:Hb]
    end.
    + apply IH1. intros s' c'. destruct (String.length s' <? String.length s)%nat; [|auto].
      apply Hk.
    + auto.
    + intros _. destruct Hab as [? Hab]; [eauto|discriminate].
    + eauto.
    + apply Hk.
  - apply IH1. intros s' c'. apply Hk.
  - destruct c as [g|]; [|apply Hk]. destruct (Str.starts_with g s); [apply Hk|auto].
  - destruct (m r1 (fun s' c' => Some (s', c')) s c) as [[? c']|]; [apply Hk|auto].
  - destruct s as [|x s]; [apply Hk|].
    destruct (multiline && Str.is_line_terminator x); [apply Hk|auto].
Qed.

(** The search succeeds exactly when the pattern matches from some suffix. *)
Lemma exec_from_within (r : re) (s : string) :
  forall i, is_Some (exec_from r s i) <-> Sem.matches_within r s.
Proof.
  unfold Sem.matches_within.
  induction s as [|x s IH]; intros i; rewrite exec_from_step.
  - destruct (match_here r EmptyString) as [[rest c]|] eqn:Hm.
    + split; [intros _; exists 0; simpl; rewrite Hm; eauto | eauto].
    + split; [intros [? [=]]|].
      intros [j Hj]. destruct j; simpl in Hj; rewrite Hm in Hj; destruct Hj; discriminate.
  - destruct (match_here r (String x s)) as [[rest c]|] eqn:Hm.
    + split; [intros _; exists 0; simpl; rewrite Hm; eauto | eauto].
    + rewrite IH. split.
      * intros [j Hj]. exists (S j). exact Hj.
      * intros [[|j] Hj]; [simpl in Hj; rewrite Hm in Hj; destruct Hj; discriminate|].
        exists j. exact Hj.
Qed.

Lemma test_within (r : re) (s : string) :
  test r s = true <-> Sem.matches_within r s.
Proof.
  rewrite <- (exec_from_within r s 0). unfold test, exec.
  destruct (exec_from r s 0); split; eauto; try discriminate.
  intros [? [=]].
Qed.

(** Dropping twice, and dropping the first part of a concatenation. *)
Lemma str_drop_drop (i j : nat) (s : string) :
  Str.drop j (Str.drop i s) = Str.drop (i + j) s.
Proof.
  revert s. induction i as [|i IH]; intros s; [reflexivity|].
  destruct s as [|x s]; [destruct j; reflexivity|]. simpl. apply IH.
Qed.

Lemma str_drop_append (a b : string) : Str.drop (String.length a) (a +:+ b) = b.
Proof. induction a as [|x a IH]; [destruct b; reflexivity|]. rewrite append_cons. exact IH. Qed.

(** Where [END_RE] matches, [BASE_RE] matches. *)
Lemma match_here_END_RE_BASE_RE (s : string) :
  is_Some (match_here END_RE s) -> is_Some (match_here BASE_RE s).
Proof.
  unfold match_here, END_RE, BASE_RE. generalize (@None string).
  revert s. do 5 (intros ? ?; rewrite !m_Cat; apply m_mono).
  intros t0 d0. rewrite m_Cat.
  apply m_mono. intros s' c' _. unfold accept. eauto.
Qed.

(** Where [BLOCK_RE] matches, [BASE_RE] matches after the line feed and the
    spaces. *)
Lemma match_here_BLOCK_RE_BASE_RE (s : string) :
  is_Some (match_here BLOCK_RE s) ->
  exists j, is_Some (match_here BASE_RE (Str.drop j s)).
Proof.
  unfold match_here, BLOCK_RE. rewrite m_Cat. intros [res Hres].
  apply m_sound in Hres. destruct Hres as (p1 & rest1 & c1 & -> & H1 & Hres).
  apply Matches_Chr_inv in H1. destruct H1 as [-> ->].
  rewrite m_Cat in Hres.
  apply m_sound in Hres. destruct Hres as (p2 & rest2 & c2 & -> & H2 & Hres).
  apply Matches_Star_Chr in H2. destruct H2 as [_ ->].
  exists (String.length (Str.of_char Str.nl +:+ p2)).
  rewrite <- append_assoc, str_drop_append.
  assert (Hsome : is_Some
            (m (Cat (Chr "{") (Cat (Opt (Chr ":")) (Cat spaces
                  (Cat (Cap (Cat first_char (Star not_close)))
                     (Cat spaces (Cat (Chr "}") (Cat spaces (Dollar false))))))))
               accept rest2 None)) by eauto.
  clear Hres. revert Hsome. unfold BASE_RE. generalize (@None string).
  revert rest2. do 5 (intros ? ?; rewrite !m_Cat; apply m_mono).
  intros t0 d0. rewrite m_Cat.
  apply m_mono. intros s' c' _. unfold accept. eauto.
Qed.

(** A text where [BLOCK_RE] or [END_RE] matches holds a match of
    [BASE_RE]. *)
Lemma within_BASE_RE (s : string) :
  test BLOCK_RE s || test END_RE s = true -> Sem.matches_within BASE_RE s.
Proof.
  intros H. apply orb_prop in H. destruct H as [H | H].
  - apply test_within in H. destruct H as [i Hi].
    apply match_here_BLOCK_RE_BASE_RE in Hi. destruct Hi as [j Hj].
    exists (i + j). rewrite <- str_drop_drop. exact Hj.
  - apply test_within in H. destruct H as [i Hi].
    exists i. apply match_here_END_RE_BASE_RE. exact Hi.
Qed.

(** X4: a text in which [BLOCK_RE] or [END_RE] matches is a text in
    which [BASE_RE] matches.  So the inline test of the walk is true
    whenever the block test is (the block branch has to be tried first), and
    every line the editor lets through holds an inline annotation. *)
Theorem block_and_line_end_annotations_are_inline (s : string) :
  test BLOCK_RE s || test END_RE s = true -> test BASE_RE s = true.
Proof. intros H. apply test_within, within_BASE_RE. exact H. Qed.

(** The text of an item with a block annotation. *)
Lemma block_and_line_end_annotations_are_inline_witness :
  test BASE_RE (Examples.lines "Item" "{: .x}") = true.
Proof.
  apply (block_and_line_end_annotations_are_inline (Examples.lines "Item" "{: .x}")).
  vm_compute. reflexivity.
Defined.

(** A text with an inline annotation holds a closing brace. *)
Lemma test_BASE_RE_close (s : string) :
  test BASE_RE s = true -> Str.existsb Sem.is_close s = true.
Proof.
  intros H. apply test_exec in H. destruct H as [mr Hmr].
  apply exec_from_sound in Hmr. destruct Hmr as (pre & rest & -> & _ & Hm).
  apply (annotation_sound (Chr "}")) in Hm.
  destruct Hm as (a & g & pt & Hp & Hann & Ht).
  apply Matches_Chr_inv in Ht. destruct Ht as [-> _].
  rewrite Hp, !existsb_append. simpl. rewrite !orb_true_r. reflexivity.
Qed.

(** X5: a text without a closing brace holds no annotation: none of the
    three patterns matches in it. *)
Theorem no_closing_brace_no_annotation (s : string) :
  Str.existsb Sem.is_close s = false ->
  test BASE_RE s = false /\ test BLOCK_RE s = false /\ test END_RE s = false.
Proof.
  intros Hs.
  assert (Hbase : test BASE_RE s = false).
  { destruct (test BASE_RE s) eqn:Hb; [|reflexivity].
    apply test_BASE_RE_close in Hb. congruence. }
  split; [exact Hbase|].
  assert (Hor : test BLOCK_RE s || test END_RE s = false).
  { destruct (test BLOCK_RE s || test END_RE s) eqn:Hb; [|reflexivity].
    apply within_BASE_RE, test_within in Hb. congruence. }
  apply orb_false_elim in Hor. exact Hor.
Qed.

(** An annotation that is not closed. *)
Lemma no_closing_brace_no_annotation_witness :
  test BASE_RE "a {.x b" = false /\ test BLOCK_RE "a {.x b" = false
  /\ test END_RE "a {.x b" = false.
Proof. apply (no_closing_brace_no_annotation "a {.x b"). reflexivity. Defined.

(* ===================================================================== *)
(** * parseLine *)
(* ===================================================================== *)

(** A text is its first characters and the rest. *)
Lemma str_take_drop (j : nat) (s : string) : s = Str.take j s +:+ Str.drop j s.
Proof.
  revert s. induction j as [|j IH]; intros s; [destruct s; reflexivity|].
  destruct s as [|x s]; [reflexivity|]. simpl. rewrite append_cons, <- IH. reflexivity.
Qed.

(** Every match [matchAll] lists is a match [exec] finds in a suffix of the
    string. *)
Lemma matchAll_loop_sound (r : re) (n : nat) :
  forall offset s mr',
    In mr' (matchAll_loop r n offset s) ->
    exists j mr,
      exec r (Str.drop j s) = Some mr
      /\ matched mr' = matched mr /\ group1 mr' = group1 mr.
Proof.
  induction n as [|n IH]; intros offset s mr'; simpl; [tauto|].
  destruct (exec r s) as [mr|] eqn:Hex; [|intros []].
  intros [<- | Hin].
  - exists 0, mr. split; [destruct s; exact Hex | split; reflexivity].
  - destruct (String.length (matched mr)).
    + destruct (Str.drop (index mr + 0) s) as [|x s'] eqn:Hd; [destruct Hin|].
      apply IH in Hin. destruct Hin as (j & mr0 & Hj & Hm).
      exists (index mr + 0 + S j), mr0. split; [|exact Hm].
      rewrite <- str_drop_drop, Hd. exact Hj.
    + apply IH in Hin. destruct Hin as (j & mr0 & Hj & Hm).
      exists (index mr + S n0 + j), mr0. split; [|exact Hm].
      rewrite <- str_drop_drop. exact Hj.
Qed.

(** X6: [parseLine] returns no entry exactly when [END_RE] does not
    match in the line.  Every entry it returns has no element; its text is
    the capture of an annotation that stands in the line and is followed
    there by the end of the line or by a line terminator; and its attributes
    are what [getAttrs] reads from that capture. *)
Theorem parseLine_entries (s : string) :
  (parseLine s = [] <-> test END_RE s = false)
  /\ forall e, In e (parseLine s) ->
       element e = None
       /\ exists pre p rest g,
            s = pre +:+ p +:+ rest
            /\ Sem.annotation p g
            /\ match rest with
               | EmptyString => True
               | String a _ => Str.is_line_terminator a = true
               end
            /\ text e = Some g
            /\ attributes e = getAttrs (Some g).
Proof.
  split.
  - unfold parseLine, matchAll, test. simpl.
    destruct (exec END_RE s); simpl; split; intros; congruence.
  - intros e He. unfold parseLine in He. apply in_map_iff in He.
    destruct He as (mr' & <- & Hin). simpl. split; [reflexivity|].
    apply matchAll_loop_sound in Hin. destruct Hin as (j & mr & Hex & Hm & Hg).
    apply exec_from_sound in Hex. destruct Hex as (pre & rest & Hs & _ & Hmatch).
    apply (annotation_sound (Cat (Chr "}") (Dollar true))) in Hmatch.
    destruct Hmatch as (a & g & pt & Hp & Hann & Ht).
    apply Matches_Cat_inv in Ht. destruct Ht as (p1 & p2 & c1 & -> & H1 & H2).
    apply Matches_Chr_inv in H1. destruct H1 as [-> ->].
    apply Matches_Dollar_inv in H2. destruct H2 as (-> & Hcap & Hrest).
    rewrite append_empty_r in Hp. unfold Str.of_char in Hp.
    exists (Str.take j s +:+ pre), (a +:+ "}"), rest, g.
    split; [|split; [exact Hann|split]].
    + rewrite (str_take_drop j s) at 1. rewrite Hs, Hp, !append_assoc. reflexivity.
    + destruct Hrest as [-> | (_ & x & rest' & -> & Hx)]; [exact I | exact Hx].
    + rewrite Hg, Hcap. split; reflexivity.
Qed.

(** The one entry of a line with a class annotation. *)
Lemma parseLine_entries_witness :
  element (mkEWA (None : option unit) (Some [("class", Some "x")]) (Some ".x")) = None
  /\ exists pre p rest g,
       "a {.x}" = pre +:+ p +:+ rest
       /\ Sem.annotation p g
       /\ match rest with
          | EmptyString => True
          | String a _ => Str.is_line_terminator a = true
          end
       /\ text (mkEWA (None : option unit) (Some [("class", Some "x")]) (Some ".x"))
          = Some g
       /\ attributes (mkEWA (None : option unit) (Some [("class", Some "x")]) (Some ".x"))
          = getAttrs (Some g).
Proof.
  apply (proj2 (parseLine_entries "a {.x}")
           (mkEWA None (Some [("class", Some "x")]) (Some ".x"))).
  vm_compute. left. reflexivity.
Defined.

(* ===================================================================== *)
(** * getAttrs: the pairs *)
(* ===================================================================== *)

(** The text before the first separator holds no separator. *)
Lemma before_no_separator (c : ascii) (s : string) :
  Str.existsb (fun a => Ascii.eqb a c) (Str.before c s) = false.
Proof.
  induction s as [|a s IH]; simpl; [reflexivity|].
  destruct (Ascii.eqb a c) eqn:Ha; simpl; [reflexivity|]. rewrite Ha. exact IH.
Qed.

(** The three ways a fragment becomes a pair. *)
Lemma attr_of_pair_cases (unit : string) :
  (Str.first_is classChar unit = true
   /\ attr_of_pair unit = ("class", Some (Str.slice1 unit)))
  \/ (exists rest,
        Str.after keySeparator unit = Some rest
        /\ test allowedKeyChars (Str.before keySeparator unit) = true
        /\ attr_of_pair unit
           = (Str.before keySeparator unit, Some (Str.before keySeparator rest)))
  \/ (Str.first_is classChar unit = false
      /\ (Str.existsb (fun a => Ascii.eqb a keySeparator) unit = false
          \/ test allowedKeyChars (Str.before keySeparator unit) = false)
      /\ attr_of_pair unit = (unit, None)).
Proof.
  destruct (Str.first_is classChar unit) eqn:Hc.
  { left. split; [reflexivity|]. unfold attr_of_pair. rewrite Hc. reflexivity. }
  right. unfold attr_of_pair. rewrite Hc, test_Chr.
  destruct (Str.existsb (fun a => Ascii.eqb a keySeparator) unit) eqn:Hsep;
    [|right; auto].
  rewrite slice0_indexOf by assumption.
  destruct (test allowedKeyChars (Str.before keySeparator unit)) eqn:Hkey;
    [|right; auto].
  left. destruct (after_is_some _ _ Hsep) as [rest Hrest].
  exists rest. split; [exact Hrest|]. split; [reflexivity|]. simpl.
  apply split_limit2_spec. exact Hrest.
Qed.

(** X7: [getAttrs] returns one pair for each fragment.  No key is
    empty, so the skip of an empty key in [tryToReplace] never fires on
    its result.  The key of a flag (a pair without value) is a whole
    fragment that does not start with the class character, and it holds the
    separator only when the text before its first separator has no
    character allowed in a key.  For a pair with a value, either the key is
    class, or neither the key nor the value holds the separator. *)
Theorem getAttrs_pairs (str : option string) (attrs : list Attr) :
  getAttrs str = Some attrs ->
  length attrs = length (trys str)
  /\ forall key value, In (key, value) attrs ->
       key <> EmptyString
       /\ match value with
          | None =>
              In key (trys str)
              /\ Str.first_is classChar key = false
              /\ (Str.existsb (fun a => Ascii.eqb a keySeparator) key = false
                  \/ test allowedKeyChars (Str.before keySeparator key) = false)
          | Some v =>
              key = "class"
              \/ (Str.existsb (fun a => Ascii.eqb a keySeparator) key = false
                  /\ Str.existsb (fun a => Ascii.eqb a keySeparator) v = false)
          end.
Proof.
  intros Hg.
  assert (Hall : Forall (fun t => t <> EmptyString) (trys str)).
  { apply List.Forall_forall. intros u Hu. apply (trys_fragments str u Hu). }
  assert (Hmap : attrs = List.map attr_of_pair (trys str)).
  { rewrite <- (getAttrs_loop_map _ Hall). unfold getAttrs in Hg.
    destruct (trys str); [discriminate|]. congruence. }
  subst attrs. split; [apply length_map|].
  intros key value Hin. apply in_map_iff in Hin. destruct Hin as (u & Hu & Hin).
  assert (Hne : u <> EmptyString) by (apply (trys_fragments str u Hin)).
  destruct (attr_of_pair_cases u)
    as [[_ Heq] | [(rest & Hrest & Hkey & Heq) | (Hclass & Hflag & Heq)]];
    rewrite Heq in Hu; injection Hu as <- <-.
  - split; [discriminate | left; reflexivity].
  - split.
    + intros Hempty. rewrite Hempty in Hkey. discriminate.
    + right. split; apply before_no_separator.
  - split; [exact Hne | auto].
Qed.

(** A class, a pair with two separators, a flag, and two flags that hold
    the separator. *)
Lemma getAttrs_pairs_witness :
  length [("class", Some "a"); ("k", Some "v"); ("open", None); ("=x", None);
          ("/=y", None)]
  = length (trys (Some ".a k=v=w open =x /=y"))
  /\ forall key value,
       In (key, value)
          [("class", Some "a"); ("k", Some "v"); ("open", None); ("=x", None);
           ("/=y", None)] ->
       key <> EmptyString
       /\ match value with
          | None =>
              In key (trys (Some ".a k=v=w open =x /=y"))
              /\ Str.first_is classChar key = false
              /\ (Str.existsb (fun a => Ascii.eqb a keySeparator) key = false
                  \/ test allowedKeyChars (Str.before keySeparator key) = false)
          | Some v =>
              key = "class"
              \/ (Str.existsb (fun a => Ascii.eqb a keySeparator) key = false
                  /\ Str.existsb (fun a => Ascii.eqb a keySeparator) v = false)
          end.
Proof.
  apply (getAttrs_pairs (Some ".a k=v=w open =x /=y")). vm_compute. reflexivity.
Defined.

(** On white space alone the scanner of the split yields empty pieces. *)
Lemma split_outside_quotes_blank (s : string) :
  Sem.all Str.is_space s = true ->
  List.filter Spec.kept
    (List.map Str.trim (Spec.split_outside_quotes None EmptyString s)) = [].
Proof.
  induction s as [|a s IH]; simpl; [reflexivity|].
  intros H. apply andb_prop in H. destruct H as [Ha Hs].
  assert (Hq : Spec.is_quote a = false).
  { unfold Spec.is_quote, quotes. simpl.
    destruct (Ascii.eqb_spec a Str.sq) as [->|]; [discriminate|].
    destruct (Ascii.eqb_spec a Str.dq) as [->|]; [discriminate|].
    destruct (Ascii.eqb_spec a Str.bt) as [->|]; [discriminate|reflexivity]. }
  rewrite Hq, Ha. simpl. apply IH. exact Hs.
Qed.

(** White space holds no quote character. *)
Lemma blank_no_quote (s : string) :
  Sem.all Str.is_space s = true ->
  Str.existsb Spec.is_bt s = false
  /\ forall cap, Spec.pairs None cap s = Some cap.
Proof.
  induction s as [|a s IH]; simpl; [auto|].
  intros H. apply andb_prop in H. destruct H as [Ha Hs].
  destruct (IH Hs) as [Hbt Hp].
  assert (Hq : Spec.is_quote a = false).
  { unfold Spec.is_quote, quotes. simpl.
    destruct (Ascii.eqb_spec a Str.sq) as [->|]; [discriminate|].
    destruct (Ascii.eqb_spec a Str.dq) as [->|]; [discriminate|].
    destruct (Ascii.eqb_spec a Str.bt) as [->|]; [discriminate|reflexivity]. }
  rewrite Hq. split; [|exact Hp]. rewrite Hbt, orb_false_r.
  unfold Spec.is_bt. destruct (Ascii.eqb_spec a Str.bt) as [->|]; [discriminate|reflexivity].
Qed.

(** X8: on a text of white space alone [getAttrs] returns nothing. *)
Theorem getAttrs_blank (s : string) :
  Sem.all Str.is_space s = true -> getAttrs (Some s) = None.
Proof.
  intros Hs. destruct s as [|a s]; [reflexivity|].
  destruct (blank_no_quote _ Hs) as [Hbt Hp].
  assert (Hfr : trys (Some (String a s)) = []).
  { change (trys (Some (String a s)))
      with (Spec.fragments
              (split_loop SPLIT_RE (S (2 * String.length (String a s)))
                          EmptyString (String a s))).
    rewrite (split_loop_refines _ _ EmptyString None None);
      [apply split_outside_quotes_blank; exact Hs | simpl; lia | | discriminate
       | reflexivity | exact Hbt].
    rewrite Hp. discriminate. }
  unfold getAttrs. rewrite Hfr. reflexivity.
Qed.

(** A tab and a space. *)
Lemma getAttrs_blank_witness :
  getAttrs (Some (String "009" " ")) = None.
Proof. apply (getAttrs_blank (String "009" " ")). reflexivity. Defined.

(* ===================================================================== *)
(** * tryToReplace: rejection and removal *)
(* ===================================================================== *)

Section ReplaceFacts.
Context {E : Type} `{ElementHost E}.

(** The loop over two lists of pairs, one after the other. *)
Lemma apply_attrs_app (pre post : list Attr) (element : option E) :
  apply_attrs element (pre ++ post)
  = match apply_attrs element pre with
    | Returned e1 => apply_attrs e1 post
    | Thrown e' => Thrown e'
    end.
Proof.
  revert element. induction pre as [|[key value] pre IH]; intros element;
    [reflexivity|].
  cbn [app apply_attrs]. destruct (String.length key =? 0)%nat; [apply IH|].
  destruct (set_one element key (clean_value value)); [apply IH|reflexivity].
Qed.

(** X9: [tryToReplace] stops at the first pair the host rejects.  The
    content comes back as it was, the element is left as the pairs before
    the rejected one made it (and as the rejected call left it), and the
    pairs after it are not applied, whatever they are. *)
Theorem tryToReplace_stops_at_first_rejection
        (element e1 e' : option E) (content original key : string)
        (value : option string) (pre post : list Attr) :
  apply_attrs element pre = Returned e1 ->
  key <> EmptyString ->
  set_one e1 key (clean_value value) = Thrown e' ->
  tryToReplace element content (Some (pre ++ (key, value) :: post)) original
  = (e', content).
Proof.
  intros Hpre Hkey Hset.
  apply tryToReplace_rejected. rewrite apply_attrs_app, Hpre.
  cbn [apply_attrs]. destruct key; [contradiction|]. simpl. rewrite Hset. reflexivity.
Qed.

End ReplaceFacts.

(** Three flags, the second with a name the host rejects: the first is set,
    the third is not. *)
Lemma tryToReplace_stops_at_first_rejection_witness :
  tryToReplace (Some Examples.p_elem) "x {a b/c d}"
               (Some ([("a", None)] ++ ("b/c", None) :: [("d", None)])) "{a b/c d}"
  = (Some (Host.with_attrs Examples.p_elem [("a", "true")]), "x {a b/c d}").
Proof.
  apply (tryToReplace_stops_at_first_rejection
           (Some Examples.p_elem)
           (Some (Host.with_attrs Examples.p_elem [("a", "true")]))
           (Some (Host.with_attrs Examples.p_elem [("a", "true")]))
           "x {a b/c d}" "{a b/c d}" "b/c" None [("a", None)] [("d", None)]).
  - reflexivity.
  - discriminate.
  - reflexivity.
Defined.

(** [remove_first] at the first occurrence, and without an occurrence. *)
Lemma starts_with_append (g s : string) : Str.starts_with g (g +:+ s) = true.
Proof.
  induction g as [|x g IH]; [reflexivity|].
  rewrite append_cons. simpl. rewrite Ascii.eqb_refl. exact IH.
Qed.

Lemma remove_first_at (original a b : string) :
  (forall j, j < String.length a ->
             Str.starts_with original (Str.drop j (a +:+ original +:+ b)) = false) ->
  Str.remove_first original (a +:+ original +:+ b) = a +:+ b.
Proof.
  induction a as [|x a IH]; intros Hfirst.
  - rewrite !append_nil.
    destruct original as [|o original].
    + destruct b; reflexivity.
    + rewrite append_cons. cbn [Str.remove_first].
      rewrite <- append_cons, starts_with_append, str_drop_append. reflexivity.
  - rewrite !append_cons.
    pose proof (Hfirst 0 ltac:(simpl; lia)) as H0. simpl in H0.
    rewrite append_cons in H0.
    cbn [Str.remove_first]. rewrite H0. f_equal. apply IH.
    intros j Hj. specialize (Hfirst (S j) ltac:(simpl; lia)).
    rewrite append_cons in Hfirst. exact Hfirst.
Qed.

Lemma remove_first_absent (original content : string) :
  (forall j, Str.starts_with original (Str.drop j content) = false) ->
  Str.remove_first original content = content.
Proof.
  induction content as [|x content IH]; intros Hno.
  - pose proof (Hno 0) as H0. simpl in H0. simpl. rewrite H0. reflexivity.
  - pose proof (Hno 0) as H0. simpl in H0. cbn [Str.remove_first]. rewrite H0.
    f_equal. apply IH. intros j. exact (Hno (S j)).
Qed.

Section AcceptedFacts.
Context {E : Type} `{ElementHost E}.

(** X10: when the host accepts every pair, [tryToReplace] removes the
    first occurrence of the matched text and nothing else: the text before
    it and the text after it, later occurrences included, stay.  When the
    matched text does not occur in the content, the content comes back as it
    was although the attributes have been set. *)
Theorem tryToReplace_removes_first_occurrence
        (element e' : option E) (attrs : list Attr) (original : string) :
  attrs <> [] ->
  apply_attrs element attrs = Returned e' ->
  (forall a b,
      (forall j, j < String.length a ->
                 Str.starts_with original (Str.drop j (a +:+ original +:+ b)) = false) ->
      tryToReplace element (a +:+ original +:+ b) (Some attrs) original
      = (e', a +:+ b))
  /\ (forall content,
         (forall j, Str.starts_with original (Str.drop j content) = false) ->
         tryToReplace element content (Some attrs) original = (e', content)).
Proof.
  intros Hne Hret. split.
  - intros a b Hfirst. rewrite (tryToReplace_accepted _ _ _ _ _ Hne Hret).
    rewrite (remove_first_at _ _ _ Hfirst). reflexivity.
  - intros content Hno. rewrite (tryToReplace_accepted _ _ _ _ _ Hne Hret).
    rewrite (remove_first_absent _ _ Hno). reflexivity.
Qed.

End AcceptedFacts.

(** The matched text twice in the content: the second occurrence stays. *)
Lemma tryToReplace_removes_first_occurrence_witness :
  tryToReplace (Some Examples.p_elem) ("x " +:+ "{.y}" +:+ " {.y}")
               (Some [("class", Some "y")]) "{.y}"
  = (Some (Host.with_classes Examples.p_elem ["y"]), "x " +:+ " {.y}").
Proof.
  apply (proj1 (tryToReplace_removes_first_occurrence
                  (Some Examples.p_elem)
                  (Some (Host.with_classes Examples.p_elem ["y"]))
                  [("class", Some "y")] "{.y}" ltac:(discriminate) eq_refl)).
  intros j Hj. simpl in Hj.
  destruct j as [|[|j]]; [reflexivity | reflexivity | lia].
Defined.

(* ===================================================================== *)
(** * The walk: text nodes, trees without annotations *)
(* ===================================================================== *)

(** Storing the properties of a target leaves the text nodes and the number
    of children as they were. *)
Lemma store_target_text (ancs : list Props) (p : Props) (cs : list Node)
      (t : Target) (e : option Props) :
  length (store_target ancs p cs t e).2 = length cs
  /\ forall j d, cs !! j = Some (Text d) ->
                 (store_target ancs p cs t e).2 !! j = Some (Text d).
Proof.
  unfold store_target.
  destruct e as [e'|]; [|destruct t; simpl; auto].
  destruct t as [|i|d0|]; simpl; auto.
  destruct (cs !! i) as [[d0|qi ki]|] eqn:Hi; simpl; auto.
  split; [apply length_insert|].
  intros j d Hj. rewrite list_lookup_insert_ne; [exact Hj|].
  intros ->. congruence.
Qed.

(** Before the first text node there are elements only. *)
Lemma first_text_first (cs : list Node) (n i : nat) (data : string) :
  first_text cs n = Some (i, data) ->
  exists k, i = (n + k)%nat /\ cs !! k = Some (Text data)
            /\ forall j, j < k -> exists q kids, cs !! j = Some (Element q kids).
Proof.
  revert n. induction cs as [|[d|q kids] cs IH]; intros n; simpl.
  - discriminate.
  - intros [= <- <-]. exists 0%nat. split; [lia|]. split; [reflexivity|]. lia.
  - intros Hf. destruct (IH _ Hf) as (k & -> & Hk & Hbefore).
    exists (S k). split; [lia|]. split; [exact Hk|].
    intros [|j] Hj; simpl; [eauto|]. apply Hbefore. lia.
Qed.

Section InlineFacts.
Context `{ElementHost Props}.

(** X11: the inline branch writes the first text node of the element,
    whichever text node holds the annotation.  Every child before that node
    is an element; the node gets its own data back, or its data without the
    first occurrence of the matched text; the number of children and every
    other text node stay as they were. *)
Theorem inline_step_writes_first_text_node
        (ancs : list Props) (p : Props) (cs : list Node)
        (ancs1 : list Props) (p1 : Props) (cs1 : list Node) (toAdd : Binding) :
  inline_step ancs p cs = Ok (ancs1, p1, cs1, toAdd) ->
  exists i data content,
    cs !! i = Some (Text data)
    /\ (forall j, j < i -> exists q kids, cs !! j = Some (Element q kids))
    /\ cs1 !! i = Some (Text content)
    /\ (content = data
        \/ content
           = Str.remove_first
               (pattern_of (match_parts BASE_RE (getTopLevelText cs)).1) data)
    /\ length cs1 = length cs
    /\ forall j d, j <> i -> cs !! j = Some (Text d) -> cs1 !! j = Some (Text d).
Proof.
  unfold inline_step.
  destruct (first_text cs 0) as [[i0 data]|] eqn:Hft; [|discriminate].
  destruct (first_text_first _ _ _ _ Hft) as (i & -> & Hi & Hbefore). simpl in *.
  destruct (match_parts BASE_RE (getTopLevelText cs)) as [original attribute_string].
  destruct (tryToReplace (lookup_target ancs p cs (inline_target ancs p cs i)) data
              (getAttrs attribute_string) (pattern_of original))
    as [e' content] eqn:Htry.
  destruct (store_target_text ancs p cs (inline_target ancs p cs i) e') as [Hlen Htext].
  destruct (store_target ancs p cs (inline_target ancs p cs i) e')
    as [[a2 p2] cs2]. simpl in Hlen, Htext.
  intros [= _ _ <- _].
  exists i, data, content.
  assert (Hlt : i < length cs2).
  { rewrite Hlen. eapply lookup_lt_Some. exact Hi. }
  split; [exact Hi|]. split; [exact Hbefore|].
  split; [apply list_lookup_insert_eq; exact Hlt|].
  split.
  - unfold tryToReplace in Htry.
    destruct (getAttrs attribute_string) as [[|a l]|];
      [injection Htry as _ <-; left; reflexivity| |injection Htry as _ <-; left; reflexivity].
    destruct (apply_attrs _ (a :: l)); injection Htry as _ <-; [right|left]; reflexivity.
  - split; [rewrite length_insert; exact Hlen|].
    intros j d Hne Hj. rewrite list_lookup_insert_ne by congruence.
    apply Htext. exact Hj.
Qed.

End InlineFacts.

(** An annotation after an emphasised word: the text node in front is
    written, the annotation stays in the last text node. *)
Lemma inline_step_writes_first_text_node_witness :
  exists i data content,
    Cases.after_emphasis !! i = Some (Text data)
    /\ (forall j, j < i -> exists q kids,
                            Cases.after_emphasis !! j = Some (Element q kids))
    /\ [Text "text "; Element (elem HTMLElement "EM") [Text "x"]; Text "{.cls}"] !! i
       = Some (Text content)
    /\ (content = data
        \/ content
           = Str.remove_first
               (pattern_of
                  (match_parts BASE_RE (getTopLevelText Cases.after_emphasis)).1) data)
    /\ length [Text "text "; Element (elem HTMLElement "EM") [Text "x"]; Text "{.cls}"]
       = length Cases.after_emphasis
    /\ forall j d, j <> i -> Cases.after_emphasis !! j = Some (Text d) ->
                   [Text "text "; Element (elem HTMLElement "EM") [Text "x"];
                    Text "{.cls}"] !! j = Some (Text d).
Proof.
  apply (inline_step_writes_first_text_node
           [] Examples.p_elem Cases.after_emphasis
           [] (Host.with_classes Examples.p_elem ["cls"])
           [Text "text "; Element (elem HTMLElement "EM") [Text "x"]; Text "{.cls}"]
           (mkEWA (Some Self) (Some [("class", Some "cls")]) (Some ".cls"))).
  vm_compute. reflexivity.
Defined.

Section QuietFacts.
Context `{ElementHost Props}.
Variable innerHTML : list Node -> string.
Variable setInnerHTML : string -> list Node.

(** The loop over the children of a tree without annotations. *)
Lemma list_max_cons_lt (n : nat) (l : list nat) (b : nat) :
  list_max (n :: l) < b -> n < b /\ list_max l < b.
Proof. simpl. lia. Qed.

Lemma children_loop_quiet (rec : list Props -> Props -> list Node -> Run Walk)
      (fuel : nat) :
  (forall ancs q kids,
      Tree.no_annotation (getTopLevelText kids) = true ->
      List.forallb Tree.quiet kids = true ->
      list_max (List.map Tree.depth kids) < fuel ->
      rec ancs q kids = Ok (ancs, q, kids, [])) ->
  forall todo ancs p done found,
    List.forallb Tree.quiet todo = true ->
    list_max (List.map Tree.depth todo) < S fuel ->
    children_loop rec ancs p done todo found = Ok (ancs, p, done ++ todo, found).
Proof.
  intros Hrec. induction todo as [|[d|q kids] rest IH]; intros ancs p done found Hq Hd.
  - simpl. rewrite app_nil_r. reflexivity.
  - cbn [children_loop]. simpl in Hq. cbn [List.map] in Hd.
    apply list_max_cons_lt in Hd. destruct Hd as [_ Hd].
    rewrite (IH _ _ _ _ Hq Hd), <- app_assoc. reflexivity.
  - cbn [children_loop]. cbn [List.forallb] in Hq. apply andb_prop in Hq.
    destruct Hq as [Hq Hrest]. cbn [List.map] in Hd.
    apply list_max_cons_lt in Hd. destruct Hd as [Hdq Hd].
    assert (Hgo : forall f, children_loop rec ancs p (done ++ [Element q kids]) rest f
                            = Ok (ancs, p, done ++ Element q kids :: rest, f)).
    { intros f. rewrite (IH _ _ _ _ Hrest Hd), <- app_assoc. reflexivity. }
    destruct (is_html q) eqn:Hh; simpl; [|apply Hgo].
    destruct (opaque q) eqn:Ho; [apply Hgo|].
    cbn [Tree.quiet] in Hq. unfold Tree.entered in Hq. rewrite Hh, Ho in Hq.
    simpl in Hq. apply andb_prop in Hq. destruct Hq as [Hno Hkids].
    rewrite Hrec; [|exact Hno|exact Hkids|simpl in Hdq; lia].
    simpl. rewrite app_nil_r. apply Hgo.
Qed.

(** X12: a tree without annotations is left alone.  When neither test
    finds an annotation in the own text of the element, nor in the own text
    of any element the walk enters below it, and the call stack is deeper
    than the tree, the walk returns: the ancestors, the element and the
    children are as they were, and there is no binding. *)
Theorem quiet_tree_is_left_alone (fuel : nat) :
  forall ancs p cs,
    Tree.no_annotation (getTopLevelText cs) = true ->
    List.forallb Tree.quiet cs = true ->
    list_max (List.map Tree.depth cs) < fuel ->
    recurseAndParseElements innerHTML setInnerHTML fuel ancs p cs
    = Ok (ancs, p, cs, []).
Proof.
  induction fuel as [|fuel IH]; intros ancs p cs Hno Hq Hd; [lia|].
  unfold Tree.no_annotation in Hno. apply andb_prop in Hno.
  destruct Hno as [Hb Hi]. apply negb_true_iff in Hb, Hi.
  rewrite (recurse_plain innerHTML setInnerHTML _ _ _ _ Hb Hi).
  rewrite (children_loop_quiet _ fuel IH); [reflexivity|exact Hq|lia].
Qed.

End QuietFacts.

(** A list whose only annotation text is inside inline code. *)
Lemma quiet_tree_is_left_alone_witness :
  Host.walk 3 [] Examples.ul_elem Cases.plain_list
  = Ok ([], Examples.ul_elem, Cases.plain_list, []).
Proof.
  apply (quiet_tree_is_left_alone Host.plain_innerHTML Host.plain_setInnerHTML 3
           [] Examples.ul_elem Cases.plain_list).
  - reflexivity.
  - vm_compute. reflexivity.
  - vm_compute. lia.
Defined.

(* ===================================================================== *)
(** * rangesInclude as a test of intersection *)
(* ===================================================================== *)

(** X13: for a span and ranges that are not inverted, [rangesInclude]
    is the test that some range meets the closed span. *)
Theorem rangesInclude_is_intersection (ranges : list SelectionRange) (from to : Z) :
  (from <=? to)%Z = true ->
  List.forallb (fun r => (sel_from r <=? sel_to r)%Z) ranges = true ->
  rangesInclude ranges from to
  = List.existsb (fun r => (sel_from r <=? to)%Z && (from <=? sel_to r)%Z) ranges.
Proof.
  intros Hle. apply Z.leb_le in Hle.
  induction ranges as [|r rest IH]; intros Hwf; [reflexivity|].
  cbn [List.forallb] in Hwf. apply andb_prop in Hwf. destruct Hwf as [Hr Hrest].
  apply Z.leb_le in Hr. cbn [rangesInclude List.existsb]. rewrite (IH Hrest).
  rewrite !Z.geb_leb, Z.gtb_ltb.
  destruct (Z.leb_spec from (sel_from r)); destruct (Z.leb_spec (sel_from r) to);
    destruct (Z.leb_spec from (sel_to r)); destruct (Z.leb_spec (sel_to r) to);
    destruct (Z.ltb_spec (sel_from r) from); destruct (Z.ltb_spec to (sel_to r));
    simpl; try reflexivity; lia.
Qed.

(** Two ranges on either side of the span. *)
Lemma rangesInclude_is_intersection_witness :
  rangesInclude [mkSel 0 2; mkSel 12 20] 3 10
  = List.existsb (fun r => (sel_from r <=? 10)%Z && (3 <=? sel_to r)%Z)
                 [mkSel 0 2; mkSel 12 20].
Proof.
  apply (rangesInclude_is_intersection [mkSel 0 2; mkSel 12 20] 3 10); reflexivity.
Defined.

(* ===================================================================== *)
(** * The state field: the last effect, and the throw *)
(* ===================================================================== *)

(** The filter throws exactly on a set that holds a mark decoration. *)
Lemma filter_set_none (sel : list SelectionRange) (v : DecorationSet) :
  filter_set sel v = None <-> List.existsb Field.is_mark_range v = true.
Proof.
  induction v as [|r v IH]; simpl; [split; discriminate|].
  unfold keeps, Field.is_mark_range at 1.
  destruct (spec (range_value r)) as [attrs | b [from to]]; simpl.
  - tauto.
  - destruct (filter_set sel v); simpl.
    + split; [discriminate|]. intros Hv. apply IH in Hv. discriminate.
    + split; [intros _|reflexivity]. apply IH. reflexivity.
Qed.

Section FieldFacts.
Context {ChangeSet : Type} (mapSet : ChangeSet -> DecorationSet -> DecorationSet).

(** Once the filter has thrown, the update has thrown. *)
Lemma fold_reducer_none (tr : Transaction ChangeSet) (l : list Effect) :
  fold_left (reducer tr) l None = None.
Proof. induction l as [|e l IH]; [reflexivity|exact IH]. Qed.

(** The field after the effects read so far, from the last update or replace
    effect [a] among them. *)
Lemma fold_reducer_last (tr : Transaction ChangeSet) (d0 : DecorationSet)
      (l : list Effect) :
  forall cur a,
    match a with
    | Some (UpdateEffect v) => Some v
    | Some (ReplaceEffect v) => filter_set (newSelection tr) v
    | _ => Some d0
    end = Some cur ->
    List.forallb (Field.returns (newSelection tr)) l = true ->
    fold_left (reducer tr) l (Some cur)
    = match fold_left (fun acc e => match e with OtherEffect => acc | _ => Some e end)
                      l a with
      | Some (UpdateEffect v) => Some v
      | Some (ReplaceEffect v) => filter_set (newSelection tr) v
      | _ => Some d0
      end.
Proof.
  induction l as [|e l IH]; intros cur a Ha Hret; [simpl; congruence|].
  cbn [List.forallb] in Hret. apply andb_prop in Hret. destruct Hret as [He Hl].
  cbn [fold_left]. destruct e as [v | v |].
  - apply IH; [reflexivity | exact Hl].
  - simpl in He. cbn [reducer].
    destruct (filter_set (newSelection tr) v) as [cur'|] eqn:Hf; [|discriminate].
    apply IH; [exact Hf | exact Hl].
  - apply IH; [exact Ha | exact Hl].
Qed.

(** X14: when no filter throws, the state field after a transaction is
    decided by the last update or replace effect of the transaction alone:
    it is the value of an update effect, the filtered value of a replace
    effect, and the old value mapped through the changes when there is
    neither.  The effects before the last one leave no trace. *)
Theorem field_update_last_effect (deco : DecorationSet) (tr : Transaction ChangeSet) :
  List.forallb (Field.returns (newSelection tr)) (effects tr) = true ->
  field_update mapSet deco tr
  = match Field.last_effect (effects tr) with
    | Some (UpdateEffect value) => Some value
    | Some (ReplaceEffect value) => filter_set (newSelection tr) value
    | _ => Some (mapSet (changes tr) deco)
    end.
Proof.
  intros Hret. unfold field_update, Field.last_effect.
  apply (fold_reducer_last tr (mapSet (changes tr) deco) (effects tr) _ None);
    [reflexivity | exact Hret].
Qed.

(** The reducer throws exactly when the filter of some replace effect does. *)
Lemma fold_reducer_throws (tr : Transaction ChangeSet) (l : list Effect) :
  forall d,
    fold_left (reducer tr) l (Some d) = None
    <-> exists v, In (ReplaceEffect v) l /\ filter_set (newSelection tr) v = None.
Proof.
  induction l as [|e l IH]; intros d.
  - simpl. split; [discriminate | intros (v & [] & _)].
  - cbn [fold_left]. destruct e as [v | v |]; cbn [reducer].
    + rewrite IH. split; intros (v' & Hin & Hf); exists v'; split; auto.
      * right. exact Hin.
      * destruct Hin as [Heq | Hin]; [discriminate | exact Hin].
    + destruct (filter_set (newSelection tr) v) as [d'|] eqn:Hf.
      * rewrite IH. split; intros (v' & Hin & Hf'); exists v'; split; auto.
        -- right. exact Hin.
        -- destruct Hin as [[= ->] | Hin]; [congruence | exact Hin].
      * rewrite fold_reducer_none. split; [intros _|reflexivity].
        exists v. split; [left; reflexivity | exact Hf].
    + rewrite IH. split; intros (v' & Hin & Hf); exists v'; split; auto.
      * right. exact Hin.
      * destruct Hin as [Heq | Hin]; [discriminate | exact Hin].
Qed.

(** X15: the update of the state field throws exactly when a replace
    effect of the transaction carries a decoration without an anchor, as a
    mark decoration is. *)
Theorem field_update_throws_on_mark_decoration
        (deco : DecorationSet) (tr : Transaction ChangeSet) :
  field_update mapSet deco tr = None
  <-> exists value,
        In (ReplaceEffect value) (effects tr)
        /\ List.existsb Field.is_mark_range value = true.
Proof.
  unfold field_update. rewrite fold_reducer_throws.
  split; intros (v & Hin & Hf); exists v; (split; [exact Hin|]);
    apply (filter_set_none (newSelection tr) v); exact Hf.
Qed.

End FieldFacts.

(** A transaction whose last effect of the two kinds is a replace effect,
    the caret outside the anchor. *)
Lemma field_update_last_effect_witness :
  field_update (fun (_ : unit) d => d) []
               (mkTr tt [UpdateEffect []; OtherEffect; ReplaceEffect [Examples.hidden];
                         OtherEffect]
                     (Examples.caret 11))
  = Some [Examples.hidden].
Proof.
  rewrite (field_update_last_effect (fun (_ : unit) d => d) []
             (mkTr tt [UpdateEffect []; OtherEffect; ReplaceEffect [Examples.hidden];
                       OtherEffect]
                   (Examples.caret 11)) eq_refl).
  reflexivity.
Defined.

(* ===================================================================== *)
(** * compute: ranges, throw, reuse *)
(* ===================================================================== *)

(** The sort keeps the ranges. *)
Lemma In_insert_range (r x : Range) (l : list Range) :
  In x (insert_range r l) <-> x = r \/ In x l.
Proof.
  induction l as [|y l IH]; simpl; [intuition congruence|].
  destruct (range_from r <? range_from y)%Z; simpl; [intuition congruence|].
  rewrite IH. intuition congruence.
Qed.

Lemma In_Decoration_set (x : Range) (l : list Range) :
  In x (Decoration_set l) <-> In x l.
Proof.
  unfold Decoration_set. induction l as [|r l IH]; simpl; [tauto|].
  rewrite In_insert_range, IH. intuition congruence.
Qed.

(** The loop makes one range per token, in the order of the tokens, each
    with the decoration the cache holds afterwards under the token's
    value. *)
Lemma compute_loop_ranges (tokens : list TokenSpec) :
  forall mgr mgr' mark replace,
    compute_loop mgr tokens = (mgr', Some (mark, replace)) ->
    Forall2 (Tokens.range_of mgr')
            (List.filter is_mark tokens) mark
    /\ Forall2 (Tokens.range_of mgr')
               (List.filter (fun t => negb (is_mark t)) tokens) replace.
Proof.
  induction tokens as [|t rest IH]; intros mgr mgr' mark replace; simpl.
  - intros [= _ <- <-]. split; constructor.
  - destruct (decoration_for mgr t) as [mgr1 [deco|]] eqn:Ht; [|discriminate].
    destruct (decoration_for_caches _ _ _ _ Ht) as [Hdeco _].
    pose proof (compute_loop_grows rest mgr1) as Hgrow.
    destruct (compute_loop mgr1 rest) as [mgr2 [[mark1 replace1]|]] eqn:Hrest;
      [|discriminate].
    simpl in Hgrow. destruct (IH _ _ _ _ Hrest) as [Hm Hr].
    assert (Hc : decoCache mgr2 !! token_value t = Some deco)
      by (eapply lookup_weaken; eassumption).
    destruct (is_mark t); simpl; intros [= <- <- <-]; split; auto;
      constructor; auto; repeat split; auto.
Qed.

(** X16: when [compute] returns, its two sets are made of one range for
    each token, taken in the order of the tokens before the sort by
    position: the mark tokens give the ranges of the first set, the other
    tokens those of the second, and each range has the span of its token and
    the decoration the cache holds afterwards under the value of its
    token. *)
Theorem compute_makes_one_range_per_token
        (mgr mgr' : Manager) (tokens : list TokenSpec) (marks replaces : DecorationSet) :
  compute mgr tokens = (mgr', Some (marks, replaces)) ->
  exists mark replace,
    marks = Decoration_set mark
    /\ replaces = Decoration_set replace
    /\ Forall2 (Tokens.range_of mgr')
               (List.filter is_mark tokens) mark
    /\ Forall2 (Tokens.range_of mgr')
               (List.filter (fun t => negb (is_mark t)) tokens) replace.
Proof.
  unfold compute.
  destruct (compute_loop mgr tokens) as [mgr1 [[mark replace]|]] eqn:Hloop;
    [|discriminate].
  intros [= <- <- <-]. exists mark, replace.
  split; [reflexivity|]. split; [reflexivity|].
  apply (compute_loop_ranges _ _ _ _ _ Hloop).
Qed.

(** The loop throws on a token without attributes whose value is neither
    cached nor carried by a token before it. *)
Lemma compute_loop_throws_at (pre post : list TokenSpec) (t : TokenSpec) :
  spec_of t = None ->
  forall mgr,
    decoCache mgr !! token_value t = None ->
    Forall (fun t' => token_value t' <> token_value t) pre ->
    (compute_loop mgr (pre ++ t :: post)).2 = None.
Proof.
  intros Hspec. induction pre as [|t0 pre IH]; intros mgr Hcache Hpre; simpl.
  - unfold decoration_for. rewrite Hcache, Hspec. reflexivity.
  - inversion Hpre as [|? ? Hne Hpre']; subst.
    destruct (decoration_for mgr t0) as [mgr1 [deco|]] eqn:Ht; [|reflexivity].
    assert (Hcache1 : decoCache mgr1 !! token_value t = None).
    { unfold decoration_for in Ht.
      destruct (decoCache mgr !! token_value t0); [injection Ht as <- _; exact Hcache|].
      destruct (spec_of t0); [|discriminate].
      injection Ht as <- _. simpl. rewrite lookup_insert_ne by exact Hne. exact Hcache. }
    specialize (IH mgr1 Hcache1 Hpre').
    destruct (compute_loop mgr1 (pre ++ t :: post)) as [mgr2 [[m1 r1]|]];
      [discriminate|reflexivity].
Qed.

(** X17: [compute] throws whenever some mark token without attributes has
    a value that the cache does not hold and that no token before it
    carries, whatever the tokens before and after it are. *)
Theorem compute_throws_on_uncached_token_without_attributes
        (mgr : Manager) (pre post : list TokenSpec) (from to : Z) (value : string) :
  decoCache mgr !! value = None ->
  List.forallb (fun t' => negb (String.eqb (token_value t') value)) pre = true ->
  (compute mgr (pre ++ MarkToken from to value None :: post)).2 = None.
Proof.
  intros Hcache Hpre.
  assert (Hne : Forall (fun t' => token_value t' <> value) pre).
  { apply List.Forall_forall. intros t' Ht'.
    rewrite List.forallb_forall in Hpre. specialize (Hpre t' Ht').
    apply negb_true_iff, String.eqb_neq in Hpre. exact Hpre. }
  assert (Hloop : (compute_loop mgr (pre ++ MarkToken from to value None :: post)).2
                  = None)
    by (apply compute_loop_throws_at; auto).
  unfold compute.
  destruct (compute_loop mgr (pre ++ MarkToken from to value None :: post))
    as [mgr1 [[mark replace]|]]; [discriminate|reflexivity].
Qed.

(** The mark token of a capture that is a tab alone, from which [getAttrs]
    reads nothing, after the replace token of another annotation, from an
    empty cache. *)
Lemma compute_throws_on_uncached_token_without_attributes_witness :
  (compute (mkManager ∅ 0)
           ([ReplaceToken 1 9 (0, 9)%Z "{.note}" 2]
            ++ MarkToken 20 24 (String "009" EmptyString) None :: [])).2 = None.
Proof.
  apply (compute_throws_on_uncached_token_without_attributes
           (mkManager ∅ 0) [ReplaceToken 1 9 (0, 9)%Z "{.note}" 2] []
           20 24 (String "009" EmptyString)).
  - reflexivity.
  - reflexivity.
Defined.

(** A token whose value the cache holds gets the cached decoration. *)
Lemma compute_loop_reuses (tokens : list TokenSpec) :
  forall mgr mgr' mark replace value deco,
    decoCache mgr !! value = Some deco ->
    compute_loop mgr tokens = (mgr', Some (mark, replace)) ->
    forall t, In t tokens -> token_value t = value ->
              In (mkRange (token_from t) (token_to t) deco)
                 (if is_mark t then mark else replace).
Proof.
  induction tokens as [|t0 rest IH]; intros mgr mgr' mark replace value deco Hv;
    simpl; [intros _ t []|].
  destruct (decoration_for mgr t0) as [mgr1 [d0|]] eqn:Ht; [|discriminate].
  destruct (decoration_for_caches _ _ _ _ Ht) as [Hd0 Hsub].
  destruct (compute_loop mgr1 rest) as [mgr2 [[mark1 replace1]|]] eqn:Hrest;
    [|discriminate].
  assert (Hv1 : decoCache mgr1 !! value = Some deco)
    by (eapply lookup_weaken; eassumption).
  intros Hres t [<- | Hin] Hval.
  - assert (d0 = deco) as -> by (rewrite Hval in Hd0; congruence).
    destruct (is_mark t0); injection Hres as _ <- <-; left; reflexivity.
  - pose proof (IH _ _ _ _ _ _ Hv1 Hrest t Hin Hval) as Hr.
    destruct (is_mark t0); injection Hres as _ <- <-;
      destruct (is_mark t); simpl; auto.
Qed.

(** X18: a decoration in the cache stays there through [compute], and
    every token with that value gets it, whatever the anchor and the kind
    of the token.  So the range of a replace token whose matched text was
    seen before carries the anchor of the first occurrence, not its own. *)
Theorem compute_reuses_cached_decoration_by_value
        (mgr mgr' : Manager) (tokens : list TokenSpec)
        (marks replaces : DecorationSet) (value : string) (deco : Decoration) :
  decoCache mgr !! value = Some deco ->
  compute mgr tokens = (mgr', Some (marks, replaces)) ->
  decoCache mgr' !! value = Some deco
  /\ forall t, In t tokens -> token_value t = value ->
               In (mkRange (token_from t) (token_to t) deco)
                  (if is_mark t then marks else replaces).
Proof.
  intros Hv. unfold compute.
  pose proof (compute_loop_grows tokens mgr) as Hgrow.
  destruct (compute_loop mgr tokens) as [mgr1 [[mark replace]|]] eqn:Hloop;
    [|discriminate].
  intros [= <- <- <-]. simpl in Hgrow. split.
  - eapply lookup_weaken; eassumption.
  - intros t Hin Hval.
    pose proof (compute_loop_reuses _ _ _ _ _ _ _ Hv Hloop t Hin Hval) as Hr.
    destruct (is_mark t); apply In_Decoration_set; exact Hr.
Qed.

(** The mark and the replace token of one annotation. *)
Lemma compute_makes_one_range_per_token_witness :
  exists mark replace,
    [mkRange 0 9 (mkDeco 0 (MarkSpec (fromEntries [("class", Some "note")])))]
    = Decoration_set mark
    /\ [mkRange 1 9 (mkDeco 1 (ReplaceSpec true (0, 9)%Z))] = Decoration_set replace
    /\ Forall2 (Tokens.range_of
                  (compute (mkManager ∅ 0)
                     [MarkToken 0 9 ".note" (Some [("class", Some "note")]);
                      ReplaceToken 1 9 (0, 9)%Z "{.note}" 2]).1)
               (List.filter is_mark
                  [MarkToken 0 9 ".note" (Some [("class", Some "note")]);
                   ReplaceToken 1 9 (0, 9)%Z "{.note}" 2]) mark
    /\ Forall2 (Tokens.range_of
                  (compute (mkManager ∅ 0)
                     [MarkToken 0 9 ".note" (Some [("class", Some "note")]);
                      ReplaceToken 1 9 (0, 9)%Z "{.note}" 2]).1)
               (List.filter (fun t => negb (is_mark t))
                  [MarkToken 0 9 ".note" (Some [("class", Some "note")]);
                   ReplaceToken 1 9 (0, 9)%Z "{.note}" 2]) replace.
Proof.
  apply (compute_makes_one_range_per_token (mkManager ∅ 0)).
  vm_compute. reflexivity.
Defined.

(** The same annotation text on a later line: the range carries the anchor
    of the first line. *)
Lemma compute_reuses_cached_decoration_by_value_witness :
  decoCache
    (compute (mkManager (<["{.note}" := mkDeco 0 (ReplaceSpec true (0, 9)%Z)]> ∅) 1)
             [ReplaceToken 21 29 (20, 29)%Z "{.note}" 2]).1 !! "{.note}"
  = Some (mkDeco 0 (ReplaceSpec true (0, 9)%Z))
  /\ forall t, In t [ReplaceToken 21 29 (20, 29)%Z "{.note}" 2] ->
               token_value t = "{.note}" ->
               In (mkRange (token_from t) (token_to t)
                           (mkDeco 0 (ReplaceSpec true (0, 9)%Z)))
                  (if is_mark t then []
                   else [mkRange 21 29 (mkDeco 0 (ReplaceSpec true (0, 9)%Z))]).
Proof.
  apply (compute_reuses_cached_decoration_by_value
           (mkManager (<["{.note}" := mkDeco 0 (ReplaceSpec true (0, 9)%Z)]> ∅) 1)
           (compute (mkManager (<["{.note}" := mkDeco 0 (ReplaceSpec true (0, 9)%Z)]> ∅) 1)
                    [ReplaceToken 21 29 (20, 29)%Z "{.note}" 2]).1
           [ReplaceToken 21 29 (20, 29)%Z "{.note}" 2]
           [] [mkRange 21 29 (mkDeco 0 (ReplaceSpec true (0, 9)%Z))]
           "{.note}" (mkDeco 0 (ReplaceSpec true (0, 9)%Z))).
  - vm_compute. reflexivity.
  - vm_compute. reflexivity.
Defined.

(* ===================================================================== *)
(** * enter: the tokens of a syntax node *)
(* ===================================================================== *)

Section BuildFacts.
Variable compile : string -> option re.

(** The tokens of the items of one node. *)
Lemma items_tokens_paired (from to : Z) (original : string)
      (items : list (ElementWithAttributes unit)) :
  forall ts, items_tokens compile from to original items = Some ts ->
             Tokens.paired from to ts = true
             /\ length ts = 2 * length items.
Proof.
  induction items as [|item rest IH]; intros ts; simpl.
  - intros [= <-]. auto.
  - unfold item_tokens.
    destruct (compile (replace_pattern (pattern_of (text item)))) as [r|]; [|discriminate].
    destruct (exec r original) as [mr|]; [|discriminate].
    destruct (items_tokens compile from to original rest) as [ts'|]; [|discriminate].
    intros [= <-]. destruct (IH _ eq_refl) as [Hp Hl].
    split; [|simpl; lia].
    cbn [app Tokens.paired]. rewrite Hp, !Z.eqb_refl. simpl.
    rewrite !andb_true_r. apply Z.leb_le. lia.
Qed.

(** X19: the tokens [enter] returns for a syntax node come in pairs: a
    mark token over the span of the node, then a replace token anchored at
    that span, which starts one character before the index of the match and
    ends at the end of the matched text.  There are none, or two for each
    entry of [parseLine]. *)
Theorem enter_tokens_come_in_pairs (doc : string) (n : SyntaxNode)
        (ts : list TokenSpec) :
  enter compile doc n = Some ts ->
  Tokens.paired (node_from n) (node_to n) ts = true
  /\ (ts = []
      \/ length ts
         = 2 * length (parseLine (sliceString doc (node_from n) (node_to n)))).
Proof.
  unfold enter.
  destruct (tokenProps n) as [[|c props]|]; try (intros [= <-]; auto).
  destruct (List.existsb _ _); [intros [= <-]; auto|].
  destruct (negb _); [intros [= <-]; auto|].
  intros Hit. apply items_tokens_paired in Hit. destruct Hit as [Hp Hl]. auto.
Qed.

End BuildFacts.

(** A node at 20 with an annotation after two spaces. *)
Lemma enter_tokens_come_in_pairs_witness :
  Tokens.paired 20 34
    [MarkToken 20 34 ".note" (Some [("class", Some "note")]);
     ReplaceToken 26 34 (20, 34)%Z "{.note}" 7] = true
  /\ ([MarkToken 20 34 ".note" (Some [("class", Some "note")]);
       ReplaceToken 26 34 (20, 34)%Z "{.note}" 7] = []
      \/ length [MarkToken 20 34 ".note" (Some [("class", Some "note")]);
                 ReplaceToken 26 34 (20, 34)%Z "{.note}" 7]
         = 2 * length (parseLine
                         (sliceString "01234567890123456789Hello  {.note}" 20 34))).
Proof.
  apply (enter_tokens_come_in_pairs Cases.compile_note
           "01234567890123456789Hello  {.note}" (mkNode (Some "formatting") 20 34)).
  vm_compute. reflexivity.
Defined.

(* ===================================================================== *)
(** * The bindings of the walk *)
(* ===================================================================== *)

(** The capture of a match of [BASE_RE] and of [BLOCK_RE] is that of an
    annotation. *)
Lemma BASE_RE_capture (s : string) (mr : MatchResult) :
  exec BASE_RE s = Some mr ->
  exists p g, Sem.annotation p g /\ group1 mr = Some g.
Proof.
  intros Hex. apply exec_from_sound in Hex.
  destruct Hex as (pre & rest & _ & _ & Hm).
  apply (annotation_sound (Chr "}")) in Hm.
  destruct Hm as (a & g & pt & _ & Hann & Ht).
  apply Matches_Chr_inv in Ht. destruct Ht as [_ Hcap]. eauto.
Qed.

Lemma BLOCK_RE_capture (s : string) (mr : MatchResult) :
  exec BLOCK_RE s = Some mr ->
  exists p g, Sem.annotation p g /\ group1 mr = Some g.
Proof.
  intros Hex. apply exec_from_sound in Hex.
  destruct Hex as (pre & rest & _ & _ & Hm).
  apply Matches_Cat_inv in Hm. destruct Hm as (p1 & q1 & c1 & _ & _ & Hm).
  apply Matches_Cat_inv in Hm. destruct Hm as (p2 & q2 & c2 & _ & _ & Hm).
  apply (annotation_sound (Cat (Chr "}") (Cat spaces (Dollar false)))) in Hm.
  destruct Hm as (a & g & pt & _ & Hann & Ht).
  apply Matches_Cat_inv in Ht. destruct Ht as (p3 & q3 & c3 & _ & H3 & Ht).
  apply Matches_Chr_inv in H3. destruct H3 as [_ ->].
  apply Matches_Cat_inv in Ht. destruct Ht as (p4 & q4 & c4 & _ & H4 & Ht).
  apply Matches_Star_Chr in H4. destruct H4 as [_ ->].
  apply Matches_Dollar_inv in Ht. destruct Ht as (_ & Hcap & _). eauto.
Qed.

Section BindingFacts.
Context `{ElementHost Props}.
Variable innerHTML : list Node -> string.
Variable setInnerHTML : string -> list Node.

(** The binding of the block branch, of the inline branch, and those of the
    loop. *)
Lemma block_step_binding (ancs : list Props) (p : Props) (cs : list Node)
      (ancs1 : list Props) (p1 : Props) (cs1 : list Node) (toAdd : Binding) :
  test BLOCK_RE (getTopLevelText cs) = true ->
  block_step innerHTML setInnerHTML ancs p cs = (ancs1, p1, cs1, toAdd) ->
  Tree.carries_annotation toAdd.
Proof.
  intros Htest. apply test_exec in Htest. destruct Htest as [mr Hex].
  unfold block_step, match_parts. rewrite Hex.
  destruct (BLOCK_RE_capture _ _ Hex) as (q & g & Hann & Hg). rewrite Hg.
  cbn [attributes].
  destruct (tryToReplace _ _ _ _) as [e' content].
  destruct (store_target _ _ _ _ _) as [[a2 p2] c2].
  intros [= _ _ _ <-]. exists q, g. simpl. eauto.
Qed.

Lemma inline_step_binding (ancs : list Props) (p : Props) (cs : list Node)
      (ancs1 : list Props) (p1 : Props) (cs1 : list Node) (toAdd : Binding) :
  test BASE_RE (getTopLevelText cs) = true ->
  inline_step ancs p cs = Ok (ancs1, p1, cs1, toAdd) ->
  Tree.carries_annotation toAdd.
Proof.
  intros Htest. apply test_exec in Htest. destruct Htest as [mr Hex].
  unfold inline_step, match_parts. rewrite Hex.
  destruct (BASE_RE_capture _ _ Hex) as (q & g & Hann & Hg). rewrite Hg.
  destruct (first_text cs 0) as [[i data]|]; [|discriminate].
  cbn [attributes].
  destruct (tryToReplace _ _ _ _) as [e' content].
  destruct (store_target _ _ _ _ _) as [[a2 p2] c2].
  intros [= _ _ _ <-]. exists q, g. simpl. eauto.
Qed.

Lemma children_loop_bindings (rec : list Props -> Props -> list Node -> Run Walk) :
  (forall a q kids a' q' kids' bs,
      rec a q kids = Ok (a', q', kids', bs) -> Forall Tree.carries_annotation bs) ->
  forall todo ancs p done found ancs' p' cs' bs,
    children_loop rec ancs p done todo found = Ok (ancs', p', cs', bs) ->
    Forall Tree.carries_annotation found -> Forall Tree.carries_annotation bs.
Proof.
  intros Hrec. induction todo as [|[d|q kids] rest IH];
    intros ancs p done found ancs' p' cs' bs; cbn [children_loop].
  - intros [= _ _ _ <-]. auto.
  - apply IH.
  - destruct (negb (is_html q)); [apply IH|].
    destruct (opaque q); [apply IH|].
    destruct (rec (p :: ancs) q kids) as [[[[up q'] kids'] bs0]| |] eqn:Hr;
      [|discriminate|discriminate].
    intros Hloop Hfound. apply (IH _ _ _ _ _ _ _ _ Hloop).
    apply Forall_app. split; [exact Hfound|]. eapply Hrec. exact Hr.
Qed.

(** X20: every binding the walk returns carries the capture of an
    annotation, and its attributes are what [getAttrs] reads from that
    capture. *)
Theorem walk_bindings_are_annotations (fuel : nat) :
  forall ancs p cs ancs' p' cs' bs,
    recurseAndParseElements innerHTML setInnerHTML fuel ancs p cs
    = Ok (ancs', p', cs', bs) ->
    Forall Tree.carries_annotation bs.
Proof.
  induction fuel as [|fuel IH]; intros ancs p cs ancs' p' cs' bs; [discriminate|].
  cbn [recurseAndParseElements].
  destruct (test BLOCK_RE (getTopLevelText cs)) eqn:Hb.
  - destruct (block_step innerHTML setInnerHTML ancs p cs)
      as [[[a1 p1] c1] toAdd] eqn:Hstep.
    pose proof (block_step_binding _ _ _ _ _ _ _ Hb Hstep) as Hgood.
    destruct (is_li p).
    + destruct (recurseAndParseElements innerHTML setInnerHTML fuel a1 p1 c1)
        as [[[[a2 p2] c2] bs2]| |] eqn:Hrec; [|discriminate|discriminate].
      intros Hloop. apply (children_loop_bindings _ IH _ _ _ _ _ _ _ _ _ Hloop).
      constructor; [exact Hgood|]. eapply IH. exact Hrec.
    + intros Hloop. apply (children_loop_bindings _ IH _ _ _ _ _ _ _ _ _ Hloop).
      constructor; [exact Hgood|constructor].
  - destruct (test BASE_RE (getTopLevelText cs)) eqn:Hi.
    + destruct (inline_step ancs p cs) as [[[[a1 p1] c1] toAdd]| |] eqn:Hstep;
        [|discriminate|discriminate].
      pose proof (inline_step_binding _ _ _ _ _ _ _ Hi Hstep) as Hgood.
      intros Hloop. apply (children_loop_bindings _ IH _ _ _ _ _ _ _ _ _ Hloop).
      constructor; [exact Hgood|constructor].
    + intros Hloop. apply (children_loop_bindings _ IH _ _ _ _ _ _ _ _ _ Hloop).
      constructor.
Qed.

End BindingFacts.

(** The two bindings of a list item with an inline and a block annotation. *)
Lemma walk_bindings_are_annotations_witness :
  Forall Tree.carries_annotation
    [mkEWA (Some (Ancestor 0)) (Some [("class", Some "x")]) (Some ".x");
     mkEWA (Some Self) (Some [("class", Some "y")]) (Some ".y")].
Proof.
  apply (walk_bindings_are_annotations Host.plain_innerHTML Host.plain_setInnerHTML 3
           [Examples.ul_elem] Examples.li_elem Examples.annotated_item
           [Host.with_classes Examples.ul_elem ["x"]]
           (Host.with_classes Examples.li_elem ["y"]) [Text "Item "]).
  vm_compute. reflexivity.
Defined.

(* ===================================================================== *)
(** * A quoted value, from the split to the host *)
(* ===================================================================== *)

(** The first character of a concatenation. *)
Lemma first_is_append (c : ascii) (a b : string) :
  a <> EmptyString -> Str.first_is c (a +:+ b) = Str.first_is c a.
Proof. destruct a; [contradiction|reflexivity]. Qed.

(** The text before and after the separator that follows a text without
    separator. *)
Lemma before_append (c : ascii) (a rest : string) :
  Str.existsb (fun x => Ascii.eqb x c) a = false ->
  Str.before c (a +:+ String c rest) = a
  /\ Str.after c (a +:+ String c rest) = Some rest.
Proof.
  induction a as [|x a IH]; intros Ha.
  - rewrite append_nil. simpl. rewrite Ascii.eqb_refl. auto.
  - simpl in Ha. apply orb_false_elim in Ha. destruct Ha as [Hx Ha].
    rewrite append_cons. simpl. rewrite Hx.
    destruct (IH Ha) as [-> ->]. auto.
Qed.

(** A value between two double or two single quotes is, once stripped, the
    text between them. *)
Lemma strip_quotes_quoted (q : ascii) (v : string) :
  is_dq_or_sq q = true ->
  Str.existsb is_dq_or_sq v = false ->
  strip_quotes (Examples.quoted q v) = v.
Proof.
  intros Hq Hv. unfold Examples.quoted.
  rewrite strip_quotes_cons, Hq, strip_quotes_append.
  rewrite (strip_quotes_keeps _ Hv).
  unfold Str.of_char. rewrite strip_quotes_cons, Hq.
  change (strip_quotes EmptyString) with EmptyString.
  apply append_empty_r.
Qed.

(** The pair of a unit made of a key, the separator and a quoted value. *)
Lemma attr_of_pair_quoted (key v : string) (q : ascii) :
  is_dq_or_sq q = true ->
  Str.existsb (fun a => Ascii.eqb a keySeparator) v = false ->
  Str.first_is classChar key = false ->
  Str.existsb (fun a => Ascii.eqb a keySeparator) key = false ->
  test allowedKeyChars key = true ->
  attr_of_pair (key +:+ "=" +:+ Examples.quoted q v)
  = (key, Some (Examples.quoted q v)).
Proof.
  intros Hq Hv Hclass Hkey Htest.
  assert (Hne : key <> EmptyString) by (intros ->; discriminate).
  destruct (before_append keySeparator key (Examples.quoted q v) Hkey) as [Hb Ha].
  change ("=" +:+ Examples.quoted q v) with (String keySeparator (Examples.quoted q v)).
  rewrite (attr_of_pair_key_value _ (Examples.quoted q v)).
  - rewrite Hb. f_equal. f_equal. apply before_without.
    unfold Examples.quoted. simpl. rewrite existsb_append, Hv. simpl.
    unfold is_dq_or_sq in Hq. unfold keySeparator.
    destruct (Ascii.eqb_spec q "="%char) as [->|]; [discriminate|reflexivity].
  - rewrite first_is_append by exact Hne. exact Hclass.
  - exact Ha.
  - rewrite Hb. exact Htest.
Qed.

(** The call the loop of [tryToReplace] makes for such a pair: the quotes
    are gone, the text between them is passed as it is. *)
Lemma set_one_quoted {E : Type} `{ElementHost E} (e : E) (key v : string) (q : ascii) :
  is_dq_or_sq q = true ->
  Str.existsb is_dq_or_sq v = false ->
  set_one (Some e) key (clean_value (Some (Examples.quoted q v)))
  = on_element
      (if String.eqb key "class" then addClasses e (Str.split_on " " v)
       else setAttr e key (match v with
                           | EmptyString => AttrTrue
                           | _ => AttrString v
                           end)).
Proof.
  intros Hq Hv.
  assert (Hc : clean_value (Some (Examples.quoted q v)) = Some v).
  { unfold clean_value. change (truthy (Some (Examples.quoted q v))) with true.
    cbv iota. simpl option_map. rewrite (strip_quotes_quoted _ _ Hq Hv). reflexivity. }
  rewrite Hc. unfold set_one.
  destruct (String.eqb key "class"); [reflexivity|].
  destruct v; reflexivity.
Qed.

(** C1 (amended): on an annotation text whose quotes pair up (every quote
    closed by the same character, no other quote character in between) and
    that holds no back-tick, the fragments [getAttrs] works on are those of
    the split at the white space outside the quoted pieces, trimmed,
    without the empty ones and the lone quotes.  For every such fragment
    made of a key, the separator and a value between two double or two
    single quotes, where the value holds no quote and no separator and the
    key is one of the key and value form (it does not start with the class
    character, holds no separator and has a character allowed in a key),
    [getAttrs] returns the pair of the key and the quoted value, white
    space included; and once the pairs before it are accepted, the call
    the loop of [tryToReplace] makes on the element for this pair is
    [setAttr] with the key and the text between the quotes, the quotes
    stripped and the white space kept ([true] when that text is empty;
    [addClasses] with the pieces of that text when the key is class), the
    loop going on with the pairs after it when the host accepts the call. *)
Theorem C1_split_outside_quotes_and_strip (s : string) :
  Spec.well_quoted s = true ->
  Str.existsb Spec.is_bt s = false ->
  trys (Some s)
  = List.filter Spec.kept
      (List.map Str.trim (Spec.split_outside_quotes None EmptyString s))
  /\ forall (key v : string) (q : ascii),
       In (key +:+ "=" +:+ Examples.quoted q v) (trys (Some s)) ->
       is_dq_or_sq q = true ->
       Str.existsb is_dq_or_sq v = false ->
       Str.existsb (fun a => Ascii.eqb a keySeparator) v = false ->
       Str.first_is classChar key = false ->
       Str.existsb (fun a => Ascii.eqb a keySeparator) key = false ->
       test allowedKeyChars key = true ->
       exists pre post,
         getAttrs (Some s) = Some (pre ++ (key, Some (Examples.quoted q v)) :: post)
         /\ forall (E : Type) (host : ElementHost E) (element : option E) (e1 : E),
              apply_attrs element pre = Returned (Some e1) ->
              apply_attrs element (pre ++ (key, Some (Examples.quoted q v)) :: post)
              = match on_element
                        (if String.eqb key "class"
                         then addClasses e1 (Str.split_on " " v)
                         else setAttr e1 key (match v with
                                              | EmptyString => AttrTrue
                                              | _ => AttrString v
                                              end)) with
                | Returned e2 => apply_attrs e2 post
                | Thrown e2 => Thrown e2
                end.
Proof.
  intros Hw Hs. split.
  - unfold Spec.well_quoted in Hw.
    destruct s as [|a s]; [reflexivity|].
    change (trys (Some (String a s)))
      with (Spec.fragments
              (split_loop SPLIT_RE (S (2 * String.length (String a s)))
                          EmptyString (String a s))).
    apply (split_loop_refines _ _ _ None None); try assumption; try reflexivity.
    + lia.
    + destruct (Spec.pairs None None (String a s)); discriminate.
    + discriminate.
  - intros key v q Hin Hq Hv Hsep Hclass Hkey Htest.
    assert (Hall : Forall (fun t => t <> EmptyString) (trys (Some s))).
    { apply List.Forall_forall. intros u Hu. apply (trys_fragments (Some s) u Hu). }
    destruct (in_split _ _ Hin) as (l1 & l2 & Hsplit).
    exists (List.map attr_of_pair l1), (List.map attr_of_pair l2).
    split.
    + assert (Hg : getAttrs (Some s) = Some (List.map attr_of_pair (trys (Some s)))).
      { rewrite <- (getAttrs_loop_map _ Hall). unfold getAttrs.
        destruct (trys (Some s)); [destruct Hin | reflexivity]. }
      rewrite Hg, Hsplit, List.map_app. cbn [List.map].
      rewrite (attr_of_pair_quoted key v q Hq Hsep Hclass Hkey Htest).
      reflexivity.
    + intros E host element e1 Hpre.
      rewrite apply_attrs_app, Hpre. cbn [apply_attrs].
      assert (Hne : (String.length key =? 0)%nat = false)
        by (destruct key; [discriminate|reflexivity]).
      rewrite Hne, (set_one_quoted e1 key v q Hq Hv). reflexivity.
Qed.

(** The theorem on the units of the example of the specification: the unit
    with the quoted value is a fragment, its pair is returned, and the host
    receives the key with the value [a b]. *)
Lemma C1_split_outside_quotes_and_strip_witness :
  trys (Some Examples.dq_units)
  = [("data-x=" +:+ Examples.quoted Str.dq "a b"); "checked"]
  /\ exists pre post,
       getAttrs (Some Examples.dq_units)
       = Some (pre ++ ("data-x", Some (Examples.quoted Str.dq "a b")) :: post)
       /\ forall (E : Type) (host : ElementHost E) (element : option E) (e1 : E),
            apply_attrs element pre = Returned (Some e1) ->
            apply_attrs element
              (pre ++ ("data-x", Some (Examples.quoted Str.dq "a b")) :: post)
            = match on_element (setAttr e1 "data-x" (AttrString "a b")) with
              | Returned e2 => apply_attrs e2 post
              | Thrown e2 => Thrown e2
              end.
Proof.
  destruct (C1_split_outside_quotes_and_strip Examples.dq_units)
    as (Hsplit & Hunit); [reflexivity | reflexivity |].
  split; [rewrite Hsplit; vm_compute; reflexivity|].
  apply (Hunit "data-x" "a b" Str.dq); try reflexivity.
  vm_compute. left. reflexivity.
Defined.

(** C1 (counterexample): the value of the first unit is between two double
    quotes, but a quote further on has no partner: the split is made at the
    white space inside the quoted value and not at the white space after
    it. *)
Lemma C1_unpaired_quote_splits_quoted_value :
  trys (Some ("x=" +:+ Examples.quoted Str.dq "a b" +:+ " y="
              +:+ Str.of_char Str.dq +:+ "c"))
  = ["x=" +:+ Str.of_char Str.dq +:+ "a";
     "b" +:+ Str.of_char Str.dq +:+ " y=" +:+ Str.of_char Str.dq +:+ "c"]
  /\ Spec.split_outside_quotes None EmptyString
       ("x=" +:+ Examples.quoted Str.dq "a b" +:+ " y="
        +:+ Str.of_char Str.dq +:+ "c")
     = ["x=" +:+ Examples.quoted Str.dq "a b";
        "y=" +:+ Str.of_char Str.dq +:+ "c"].
Proof. split; vm_compute; reflexivity. Qed.
